(** * whois-bun: the pattern engine and the bitmap cache, embedded in Rocq

    The embedding follows [lib.ts] of the repository (the file that exports
    [parsePattern], [validatePattern], [validateExtensions], [shuffleArray],
    [generateCombinations], [countRemainingDomains], [analyzePattern],
    [processPatterns] and the class [Bitmap]).

    Conventions of the embedding:
    - a JavaScript string is a [string]: a sequence of code units, here the
      code units 0..255; [toLowerCase] is the Unicode lower-casing of that
      range;
    - an integer-valued JavaScript number is a [Z] (or a [nat] where it counts
      or indexes a list); where the source relies on the rounding of doubles
      ([analyzePattern]) the rounding is written out;
    - [Math.random] is an oracle [nat -> nat], one draw per loop turn;
    - a thrown exception is the [Throw] case of [completion]; a value of a
      kind the embedding does not follow (a capacity that is a string, say)
      ends a call in [Unmodelled];
    - [JSON.stringify] and [JSON.parse] are a decimal printer and a
      recursive-descent parser of the JSON grammar;
    - [Date.now] and the parsing of a date are the two fields of a [clock];
    - the memory of the host is a [host]: it tells which arrays can be
      created; the functions named [..._on] take it and end in the
      [RangeError] of an array that cannot be created, the functions without
      it give what a call computes once its arrays are there;
    - an object used as a map ([DomainHistory]) is a [gmap]. *)

From Stdlib Require Import ZArith Lia Ascii String List Bool Permutation.
From stdpp Require Import base list strings pretty gmap.

Local Open Scope Z_scope.
Local Set Warnings "-register-all".

(** [String.append] unfolds on a constructor, as the list append does. *)
Local Arguments String.append !_ _ / : simpl nomatch.

(* ===================================================================== *)
(** * Part I: definitions                                                 *)
(* ===================================================================== *)

(** ** JavaScript strings *)

(** [s.split('')]: the code units of [s], each as a one-unit string. *)
Fixpoint split_chars (s : string) : list string :=
  match s with
  | EmptyString => []
  | String c r => String c EmptyString :: split_chars r
  end.

(** [String.prototype.toLowerCase] on one code unit below 256: [A-Z] and the
    Latin-1 capitals U+00C0..U+00DE (the multiplication sign U+00D7 apart)
    move up by 32; every other unit is kept. *)
Definition toLowerCase_char (c : ascii) : ascii :=
  let n := nat_of_ascii c in
  if ((65 <=? n) && (n <=? 90))%nat
     || ((192 <=? n) && (n <=? 222) && negb (n =? 215))%nat
  then ascii_of_nat (n + 32)
  else c.

Fixpoint toLowerCase (s : string) : string :=
  match s with
  | EmptyString => EmptyString
  | String c r => String (toLowerCase_char c) (toLowerCase r)
  end.

(** [s.startsWith(p)]. *)
Definition startsWith (p s : string) : bool := String.prefix p s.

(** [s.endsWith(p)]: some tail of [s] is [p]. *)
Fixpoint endsWith (p s : string) : bool :=
  String.eqb p s ||
  match s with
  | EmptyString => false
  | String _ r => endsWith p r
  end.

(** [s.includes(p)]: [p] starts at some position of [s]. *)
Fixpoint includes (p s : string) : bool :=
  String.prefix p s ||
  match s with
  | EmptyString => false
  | String _ r => includes p r
  end.

(** The character class [[0-9]]. *)
Definition is_digit (c : ascii) : bool :=
  let n := nat_of_ascii c in ((48 <=? n) && (n <=? 57))%nat.

(** The character class [[a-z]]. *)
Definition is_lower (c : ascii) : bool :=
  let n := nat_of_ascii c in ((97 <=? n) && (n <=? 122))%nat.

Fixpoint string_exists (f : ascii -> bool) (s : string) : bool :=
  match s with
  | EmptyString => false
  | String c r => f c || string_exists f r
  end.

Fixpoint string_forall (f : ascii -> bool) (s : string) : bool :=
  match s with
  | EmptyString => true
  | String c r => f c && string_forall f r
  end.

(** [/[0-9]/.test(s)]: a digit somewhere in [s]. *)
Definition has_digit (s : string) : bool := string_exists is_digit s.

(** [/^[0-9]/.test(s)]: [s] starts with a digit. *)
Definition starts_with_digit (s : string) : bool :=
  match s with
  | EmptyString => false
  | String c _ => is_digit c
  end.

(** ** The alphabets *)

Definition CONSONANTS : list string := split_chars "bcdfghjklmnpqrstvwxz".
Definition VOWELS : list string := split_chars "aeiou".
Definition NUMBERS : list string := split_chars "0123456789".
Definition LETTERS : list string := split_chars "abcdefghijklmnopqrstuvwxyz".

(** [[...LETTERS, ...'0123456789', '-'].filter(char => char)]: the filter
    keeps the truthy, that is the non-empty, strings. *)
Definition ALL_CHARS : list string :=
  filter (fun char => char <> EmptyString)
         (LETTERS ++ split_chars "0123456789" ++ ["-"]).

(** ** [PatternPart] and [parsePattern] *)

(** The interface [PatternPart]. [value] and [isWildcard] are optional in the
    source; [possibilities] is optional there too, but every part that
    [parsePattern] builds carries it, and [generateCombinations] reads it
    with a non-null assertion, so the embedding keeps it as a plain list. *)
Record PatternPart : Type := {
  type : string;
  value : option string;
  possibilities : list string;
  isWildcard : option bool
}.

(** The parser's loop state: the parts pushed so far and [currentLiteral]. *)
Definition parser_state : Type := (list PatternPart * string)%type.

(** The closure [processLiteral]: flush a non-empty [currentLiteral]. *)
Definition processLiteral (st : parser_state) : parser_state :=
  let '(parts, currentLiteral) := st in
  match currentLiteral with
  | EmptyString => st
  | _ =>
    (parts ++ [ {| type := "literal";
                   value := Some currentLiteral;
                   possibilities := [toLowerCase currentLiteral];
                   isWildcard := None |} ],
     EmptyString)
  end.

(** [parts.push(p)] after [processLiteral()]. *)
Definition push_part (p : PatternPart) (st : parser_state) : parser_state :=
  let '(parts, currentLiteral) := processLiteral st in
  (parts ++ [p], currentLiteral).

(** One turn of the [for] loop over the pattern's code units. *)
Definition parse_step (char : ascii) (st : parser_state) : parser_state :=
  let lowerChar := toLowerCase_char char in
  if Ascii.eqb lowerChar "c" then
    push_part {| type := "c"; value := None;
                 possibilities := CONSONANTS; isWildcard := None |} st
  else if Ascii.eqb lowerChar "v" then
    push_part {| type := "v"; value := None;
                 possibilities := VOWELS; isWildcard := None |} st
  else if Ascii.eqb lowerChar "n" then
    push_part {| type := "n"; value := None;
                 possibilities := NUMBERS; isWildcard := None |} st
  else if Ascii.eqb lowerChar "l" then
    push_part {| type := "l"; value := None;
                 possibilities := LETTERS; isWildcard := None |} st
  else if Ascii.eqb char "_" then
    push_part {| type := "wildcard"; value := None;
                 possibilities := ALL_CHARS; isWildcard := Some true |} st
  else if Ascii.eqb char "-" then
    push_part {| type := String char EmptyString; value := None;
                 possibilities := [String char EmptyString];
                 isWildcard := None |} st
  else
    (fst st, snd st +:+ String char EmptyString).

Fixpoint parse_loop (pattern : string) (st : parser_state) : parser_state :=
  match pattern with
  | EmptyString => st
  | String char rest => parse_loop rest (parse_step char st)
  end.

Definition parsePattern (pattern : string) : list PatternPart :=
  fst (processLiteral (parse_loop pattern ([], EmptyString))).

(** ** [validatePattern] and [validateExtensions] *)

(** The set [validChars] of [validatePattern]. *)
Definition validChars : string :=
  "abcdefghijklmnopqrstuvwxyzABCDEFGHIJKLMNOPQRSTUVWXYZ0123456789-_cvnl".

Definition validChars_has (c : ascii) : bool :=
  string_exists (Ascii.eqb c) validChars.

(** The first unit of [pattern] outside [validChars], if any. *)
Fixpoint first_invalid_char (pattern : string) : option ascii :=
  match pattern with
  | EmptyString => None
  | String c r => if validChars_has c then first_invalid_char r else Some c
  end.

(** [validatePattern]: [None] is JavaScript's [null], [Some msg] the error. *)
Definition validatePattern (pattern : string) : option string :=
  if String.eqb pattern "" then Some "Pattern cannot be empty"
  else if includes " " pattern then Some "Pattern cannot contain spaces"
  else if startsWith "-" pattern then Some "Pattern cannot start with hyphen"
  else if endsWith "-" pattern then Some "Pattern cannot end with hyphen"
  else if includes "--" pattern
       then Some "Pattern cannot contain consecutive hyphens"
  else match first_invalid_char pattern with
       | Some char =>
         Some ("Invalid character in pattern: " +:+ String char EmptyString)
       | None => None
       end.

(** [/^[.a-z0-9]+$/.test(ext)], the test of the source. *)
Definition ext_char_ok (c : ascii) : bool :=
  Ascii.eqb c "." || is_lower c || is_digit c.

Definition ext_regex (ext : string) : bool :=
  negb (String.eqb ext "") && string_forall ext_char_ok ext.

(** The checks [validateExtensions] runs on one element. *)
Definition check_extension (ext : string) : option string :=
  if negb (startsWith "." ext)
  then Some ("Extension must start with dot: " +:+ ext)
  else if (String.length ext <? 2)%nat
  then Some ("Extension too short: " +:+ ext)
  else if negb (ext_regex ext)
  then Some ("Invalid extension format: " +:+ ext)
  else None.

Fixpoint check_extensions (extensions : list string) : option string :=
  match extensions with
  | [] => None
  | ext :: rest =>
    match check_extension ext with
    | Some err => Some err
    | None => check_extensions rest
    end
  end.

Definition validateExtensions (extensions : list string) : option string :=
  match extensions with
  | [] => Some "At least one extension is required"
  | _ => check_extensions extensions
  end.

(** ** [shuffleArray] *)

(** [Math.random()] is read from an oracle: [rand i] is what the loop turn
    with index [i] draws, already scaled, and [Math.floor(Math.random() *
    (i + 1))] is [rand i mod (i + 1)]: every value of [0..i], and no other,
    is an outcome. *)
Definition oracle : Type := nat -> nat.

(** [[array[i], array[j]] = [array[j], array[i]]]: both reads, then both
    writes. The loop only swaps positions inside the array; outside it the
    embedding leaves the array as it is. *)
Definition swap {A : Type} (i j : nat) (array : list A) : list A :=
  match array !! j, array !! i with
  | Some aj, Some ai => <[j := ai]> (<[i := aj]> array)
  | _, _ => array
  end.

(** The turns [i, i-1, ..., 1] of the loop of [shuffleArray]. *)
Fixpoint shuffle_loop {A : Type} (rand : oracle) (i : nat) (array : list A)
  : list A :=
  match i with
  | O => array
  | S i' => shuffle_loop rand i' (swap i (rand i mod (i + 1))%nat array)
  end.

Definition shuffleArray {A : Type} (rand : oracle) (array : list A) : list A :=
  shuffle_loop rand (length array - 1)%nat array.

(** ** [generateCombinations] *)

(** [part.possibilities?.length || 1]. *)
Definition radix (part : PatternPart) : nat :=
  match length (possibilities part) with
  | O => 1%nat
  | n => n
  end.

(** [totalCombinations]: the [reduce] over the parts. The index array of
    the generator has this many entries, so the count is exact here (an
    array of 2^32 entries or more cannot be built). *)
Definition totalCombinations (patternParts : list PatternPart) : nat :=
  fold_left (fun acc part => (acc * radix part)%nat) patternParts 1%nat.

(** The inner [for] loop over the parts, from the state [(current, result,
    lastChar)]; [None] is the [break] with [isValid = false]. A part is read
    at [current % possibilities.length]; parts with no possibility at all
    are outside the embedding (the source computes with [NaN] there). *)
Fixpoint decode_loop (patternParts : list PatternPart) (current : nat)
    (result lastChar : string) : option string :=
  match patternParts with
  | [] => Some result
  | part :: rest =>
    let index := (current mod length (possibilities part))%nat in
    let char := nth index (possibilities part) "undefined" in
    if (String.length result =? 0)%nat
       && (String.eqb char "-" || has_digit char)
    then None
    else if String.eqb char "-" && String.eqb lastChar "-"
    then None
    else decode_loop rest (current / length (possibilities part))%nat
                     (result +:+ char) char
  end.

(** One turn of the outer loop: the candidate that index [i] yields, or
    [None] when the index is skipped. *)
Definition decode (patternParts : list PatternPart) (i : nat)
  : option string :=
  match decode_loop patternParts i "" "" with
  | None => None
  | Some result =>
    if endsWith "-" result || starts_with_digit result
    then None
    else Some result
  end.

(** [generateCombinations]: the values the generator yields, in order, once
    its index array is built; [generateCombinations_on] below is the call on
    any host, with the [RangeError] of an index array that cannot be
    created. *)
Definition generateCombinations (rand : oracle)
    (patternParts : list PatternPart) : list string :=
  omap (decode patternParts)
       (shuffleArray rand (seq 0 (totalCombinations patternParts))).

(** ** [analyzePattern] *)

(** A JavaScript number that holds a count: a non-negative integer that a
    double represents, [Infinity], or [NaN]. *)
Inductive number : Type :=
| Finite (z : Z)
| Infinity
| NaN.

(** Rounding of a non-negative integer to the nearest double, ties to even:
    below 2^53 every integer is a double; above, 53 significant bits are
    kept; from 2^1024 on the result is [Infinity]. *)
Definition round_double (z : Z) : number :=
  if z <? 2 ^ 53 then Finite z
  else
    let e := Z.log2 z - 52 in
    let q := z / 2 ^ e in
    let r := z mod 2 ^ e in
    let half := 2 ^ (e - 1) in
    let m := if r <? half then q
             else if half <? r then q + 1
             else if Z.even q then q else q + 1 in
    if 2 ^ 1024 <=? m * 2 ^ e then Infinity else Finite (m * 2 ^ e).

(** [acc * n] for a count [acc] and an array length [n]. *)
Definition number_mul (acc : number) (n : nat) : number :=
  match acc with
  | Finite z => round_double (z * Z.of_nat n)
  | Infinity => match n with O => NaN | _ => Infinity end
  | NaN => NaN
  end.

(** The argument of [analyzePattern]. *)
Record PatternEntry : Type := {
  entry_pattern : string;
  entry_extensions : list string;
  entry_comment : option string
}.

(** The interface [PatternAnalysis]. *)
Record PatternAnalysis : Type := {
  pattern : string;
  extensions : list string;
  combinations : number;
  totalDomains : number;
  parts : list PatternPart;
  comment : option string
}.

(** [analyzePattern]: [inl msg] is the error string, [inr a] the analysis. *)
Definition analyzePattern (entry : PatternEntry) : string + PatternAnalysis :=
  match validatePattern (entry_pattern entry) with
  | Some validationResult => inl validationResult
  | None =>
    match validateExtensions (entry_extensions entry) with
    | Some extensionResult => inl extensionResult
    | None =>
      let parts := parsePattern (entry_pattern entry) in
      let combinations :=
        fold_left (fun acc part => number_mul acc (length (possibilities part)))
                  parts (Finite 1) in
      let totalDomains :=
        number_mul combinations (length (entry_extensions entry)) in
      inr {| pattern := entry_pattern entry;
             extensions := entry_extensions entry;
             combinations := combinations;
             totalDomains := totalDomains;
             parts := parts;
             comment := entry_comment entry |}
    end
  end.

(** ** Completions *)

(** The exceptions the modelled code can raise. *)
Inductive exception : Type :=
| SyntaxError
| TypeError
| RangeError.

(** How a call ends: with a value, with an exception, or on a value of a
    kind the embedding does not follow any further ([Unmodelled]: a
    capacity that is not an integer below 2^53, for one). *)
Inductive completion (A : Type) : Type :=
| Normal (a : A)
| Throw (e : exception)
| Unmodelled.

Arguments Normal {A} a.
Arguments Throw {A} e.
Arguments Unmodelled {A}.

(** The host of a call, as far as its memory goes: [byte_block n] tells
    whether the data block of a byte array of [n] bytes can be created when
    the call asks for it, [array_block n] whether an array of [n] elements
    can. *)
Record host : Type := {
  byte_block : Z -> bool;
  array_block : Z -> bool
}.

(** ** JSON texts and values *)

(** The double quote, as a code unit. *)
Definition dquote : ascii := "034".

(** [s] between double quotes. *)
Definition quoted (s : string) : string :=
  String dquote (s +:+ String dquote EmptyString).

(** A parsed JSON value. [JNumber z] is a number literal without fraction
    and exponent whose value a double holds exactly (below 2^53 in absolute
    value); [JReal] stands for every other number literal. *)
Inductive json : Type :=
| JNull
| JBool (b : bool)
| JNumber (z : Z)
| JReal
| JString (s : string)
| JArray (elements : list json)
| JObject (members : list (string * json)).

(** JSON white space: space, tab, line feed, carriage return. *)
Definition is_ws (c : ascii) : bool :=
  Ascii.eqb c " " || Ascii.eqb c "009" || Ascii.eqb c "010"
  || Ascii.eqb c "013".

Fixpoint skip_ws (s : string) : string :=
  match s with
  | EmptyString => EmptyString
  | String c r => if is_ws c then skip_ws r else s
  end.

Definition digit_value (c : ascii) : N := (N_of_ascii c - 48)%N.

(** The longest run of digits at the head of [s], read in base ten on top
    of [acc], and what follows it. *)
Fixpoint parse_digits (acc : N) (s : string) : N * string :=
  match s with
  | EmptyString => (acc, EmptyString)
  | String c r =>
    if is_digit c then parse_digits (acc * 10 + digit_value c)%N r
    else (acc, s)
  end.

(** One or more digits. *)
Definition skip_digits1 (s : string) : option string :=
  match s with
  | String c r => if is_digit c then Some (snd (parse_digits 0 r)) else None
  | EmptyString => None
  end.

(** The optional fraction and exponent of a number literal: [None] when
    one starts and is malformed, [Some (false, s)] when there is neither. *)
Definition parse_frac_exp (s : string) : option (bool * string) :=
  let frac :=
    match s with
    | String c r =>
      if Ascii.eqb c "." then
        match skip_digits1 r with
        | Some r' => Some (true, r')
        | None => None
        end
      else Some (false, s)
    | EmptyString => Some (false, s)
    end in
  match frac with
  | None => None
  | Some (seen, s1) =>
    match s1 with
    | String c r =>
      if Ascii.eqb c "e" || Ascii.eqb c "E" then
        let r1 := match r with
                  | String sign r' =>
                    if Ascii.eqb sign "+" || Ascii.eqb sign "-" then r' else r
                  | EmptyString => r
                  end in
        match skip_digits1 r1 with
        | Some r' => Some (true, r')
        | None => None
        end
      else Some (seen, s1)
    | EmptyString => Some (seen, s1)
    end
  end.

(** The integer part of a number literal: a lone [0], or digits that do
    not start with [0]. *)
Definition parse_int_part (s : string) : option (N * string) :=
  match s with
  | String c r =>
    if Ascii.eqb c "0" then Some (0%N, r)
    else if is_digit c then Some (parse_digits 0 s)
    else None
  | EmptyString => None
  end.

(** A number literal at the head of [s]. *)
Definition parse_number (s : string) : option (json * string) :=
  let '(negative, s1) :=
    match s with
    | String c r => if Ascii.eqb c "-" then (true, r) else (false, s)
    | EmptyString => (false, s)
    end in
  match parse_int_part s1 with
  | None => None
  | Some (n, s2) =>
    match parse_frac_exp s2 with
    | None => None
    | Some (true, rest) => Some (JReal, rest)
    | Some (false, rest) =>
      if (Z.of_N n <? 2 ^ 53)
      then Some (JNumber (if negative then - Z.of_N n else Z.of_N n), rest)
      else Some (JReal, rest)
    end
  end.

Definition hex_value (c : ascii) : option N :=
  let n := N_of_ascii c in
  if is_digit c then Some (n - 48)%N
  else if ((97 <=? n) && (n <=? 102))%N then Some (n - 87)%N
  else if ((65 <=? n) && (n <=? 70))%N then Some (n - 55)%N
  else None.

(** The unit a [\uXXXX] escape denotes. A unit above 255 has no
    counterpart among the units of the embedding and is read as U+00FF. *)
Definition unicode_escape (h1 h2 h3 h4 : ascii) : option ascii :=
  match hex_value h1, hex_value h2, hex_value h3, hex_value h4 with
  | Some a, Some b, Some c, Some d =>
    let n := (((a * 16 + b) * 16 + c) * 16 + d)%N in
    Some (if (n <? 256)%N then ascii_of_N n else "255"%char)
  | _, _, _, _ => None
  end.

(** The unit a one-letter escape denotes. *)
Definition simple_escape (e : ascii) : option ascii :=
  if Ascii.eqb e dquote then Some dquote
  else if Ascii.eqb e "\" then Some "\"%char
  else if Ascii.eqb e "/" then Some "/"%char
  else if Ascii.eqb e "b" then Some "008"%char
  else if Ascii.eqb e "f" then Some "012"%char
  else if Ascii.eqb e "n" then Some "010"%char
  else if Ascii.eqb e "r" then Some "013"%char
  else if Ascii.eqb e "t" then Some "009"%char
  else None.

Definition cons_char (c : ascii) (r : option (string * string))
  : option (string * string) :=
  match r with
  | Some (body, rest) => Some (String c body, rest)
  | None => None
  end.

(** A string literal from behind its opening quote: its content and what
    follows the closing quote. *)
Fixpoint parse_string_body (s : string) : option (string * string) :=
  match s with
  | EmptyString => None
  | String c r =>
    if Ascii.eqb c dquote then Some (EmptyString, r)
    else if Ascii.eqb c "\" then
      match r with
      | EmptyString => None
      | String e r1 =>
        match simple_escape e with
        | Some x => cons_char x (parse_string_body r1)
        | None =>
          if Ascii.eqb e "u" then
            match r1 with
            | String h1 (String h2 (String h3 (String h4 r2))) =>
              match unicode_escape h1 h2 h3 h4 with
              | Some x => cons_char x (parse_string_body r2)
              | None => None
              end
            | _ => None
            end
          else None
        end
      end
    else if (nat_of_ascii c <? 32)%nat then None
    else cons_char c (parse_string_body r)
  end.

(** [s] without its first [n] units. *)
Fixpoint drop_chars (n : nat) (s : string) : string :=
  match n, s with
  | S n', String _ r => drop_chars n' r
  | _, _ => s
  end.

(** The JSON grammar, by recursive descent; [fuel] bounds the nesting of
    the calls. [parse_elements] reads from the first element of an array
    to its closing bracket, [parse_members] from the first key of an
    object to its closing brace. *)
Fixpoint parse_value (fuel : nat) (s : string) : option (json * string) :=
  match fuel with
  | O => None
  | S fuel' =>
    match s with
    | EmptyString => None
    | String c r =>
      if is_digit c || Ascii.eqb c "-" then parse_number s
      else if Ascii.eqb c dquote then
        match parse_string_body r with
        | Some (body, rest) => Some (JString body, rest)
        | None => None
        end
      else if Ascii.eqb c "[" then
        match skip_ws r with
        | EmptyString => None
        | String c1 rest as r1 =>
          if Ascii.eqb c1 "]" then Some (JArray [], rest)
          else
            match parse_elements fuel' r1 with
            | Some (elements, rest) => Some (JArray elements, rest)
            | None => None
            end
        end
      else if Ascii.eqb c "{" then
        match skip_ws r with
        | EmptyString => None
        | String c1 rest as r1 =>
          if Ascii.eqb c1 "}" then Some (JObject [], rest)
          else
            match parse_members fuel' r1 with
            | Some (members, rest) => Some (JObject members, rest)
            | None => None
            end
        end
      else if String.prefix "true" s then Some (JBool true, drop_chars 4 s)
      else if String.prefix "false" s then Some (JBool false, drop_chars 5 s)
      else if String.prefix "null" s then Some (JNull, drop_chars 4 s)
      else None
    end
  end
with parse_elements (fuel : nat) (s : string)
  : option (list json * string) :=
  match fuel with
  | O => None
  | S fuel' =>
    match parse_value fuel' s with
    | None => None
    | Some (v, r) =>
      match skip_ws r with
      | String c r1 =>
        if Ascii.eqb c "]" then Some ([v], r1)
        else if Ascii.eqb c "," then
          match parse_elements fuel' (skip_ws r1) with
          | Some (vs, rest) => Some (v :: vs, rest)
          | None => None
          end
        else None
      | EmptyString => None
      end
    end
  end
with parse_members (fuel : nat) (s : string)
  : option (list (string * json) * string) :=
  match fuel with
  | O => None
  | S fuel' =>
    match s with
    | String q r =>
      if Ascii.eqb q dquote then
        match parse_string_body r with
        | None => None
        | Some (key, r1) =>
          match skip_ws r1 with
          | String colon r2 =>
            if Ascii.eqb colon ":" then
              match parse_value fuel' (skip_ws r2) with
              | None => None
              | Some (v, r3) =>
                match skip_ws r3 with
                | String c r4 =>
                  if Ascii.eqb c "}" then Some ([(key, v)], r4)
                  else if Ascii.eqb c "," then
                    match parse_members fuel' (skip_ws r4) with
                    | Some (ms, rest) => Some ((key, v) :: ms, rest)
                    | None => None
                    end
                  else None
                | EmptyString => None
                end
              end
            else None
          | EmptyString => None
          end
        end
      else None
    | EmptyString => None
    end
  end.

(** [JSON.parse(text)]: one value between optional white space; [None] is
    the [SyntaxError]. *)
Definition JSON_parse (text : string) : option json :=
  match parse_value (2 * String.length text + 2) (skip_ws text) with
  | Some (v, rest) =>
    match skip_ws rest with
    | EmptyString => Some v
    | _ => None
    end
  | None => None
  end.

(** The member [key] of an object: the last one of that name, as
    [JSON.parse] keeps it. *)
Fixpoint lookup_member (key : string) (members : list (string * json))
  : option json :=
  match members with
  | [] => None
  | (k, v) :: rest =>
    match lookup_member key rest with
    | Some v' => Some v'
    | None => if String.eqb k key then Some v else None
    end
  end.

(** [parsed.key] for a parsed value other than [null]: [None] is
    [undefined]. Only objects have members of these names. *)
Definition get_property (parsed : json) (key : string) : option json :=
  match parsed with
  | JObject members => lookup_member key members
  | _ => None
  end.

(** [JSON.stringify] of an array of integers: decimal numerals between
    commas. *)
Fixpoint join_numbers (l : list Z) : string :=
  match l with
  | [] => EmptyString
  | [x] => pretty x
  | x :: r => pretty x +:+ "," +:+ join_numbers r
  end.

(** ** The class [Bitmap] *)

(** [ToInt32]: the integer of the same residue modulo 2^32 in
    [-2^31, 2^31). *)
Definition toInt32 (z : Z) : Z := (z + 2 ^ 31) mod 2 ^ 32 - 2 ^ 31.

(** [value.charCodeAt(i)] for the unit [c]. *)
Definition charCode (c : ascii) : Z := Z.of_N (N_of_ascii c).

Module Bitmap.

(** The fields: [size] is the capacity in bits, [bits] the [Uint8Array],
    one integer of [0..255] per byte. *)
Record t : Type := {
  size : Z;
  bits : list Z
}.

(** [Math.ceil(size / 8)] for an integer [size]. *)
Definition byte_length (size : Z) : Z := (size + 7) / 8.

(** [new Bitmap(size)] on a host that has the memory for the byte array.
    [new Uint8Array(n)] raises a [RangeError] for a negative length and for
    one above 2^53 - 1; [constructor_on] below is the constructor on any
    host, with the [RangeError] of a failed allocation. *)
Definition constructor (size : Z) : completion t :=
  let n := byte_length size in
  if (n <? 0) || (2 ^ 53 - 1 <? n) then Throw RangeError
  else Normal {| size := size; bits := replicate (Z.to_nat n) 0 |}.

(** One turn of the loop of [hash]: [hash = ((hash << 5) - hash) + code],
    then [hash = hash & hash]. *)
Definition hash_step (hash code : Z) : Z :=
  let hash := (toInt32 (Z.shiftl (toInt32 hash) 5) - hash) + code in
  Z.land (toInt32 hash) (toInt32 hash).

Fixpoint hash_loop (value : string) (hash : Z) : Z :=
  match value with
  | EmptyString => hash
  | String c r => hash_loop r (hash_step hash (charCode c))
  end.

(** [hash(value)]: [Math.abs(hash) % this.size]; [None] is the [NaN] that
    [%] gives for a capacity of 0. *)
Definition hash (b : t) (value : string) : option Z :=
  let hash := hash_loop value 0 in
  if size b =? 0 then None else Some (Z.rem (Z.abs hash) (size b)).

(** [this.bits[byteIndex]] as an operand of [|] and [&]: a byte outside
    the array reads [undefined], which both operators take as 0. *)
Definition read_byte (b : t) (byteIndex : Z) : Z :=
  match bits b !! Z.to_nat byteIndex with
  | Some byte => byte
  | None => 0
  end.

(** [add(value)]. A write outside the array, or at [NaN], changes
    nothing; a byte is stored modulo 256. *)
Definition add (b : t) (value : string) : t :=
  match hash b value with
  | None => b
  | Some index =>
    let byteIndex := index / 8 in
    let bitIndex := Z.rem index 8 in
    {| size := size b;
       bits := <[Z.to_nat byteIndex :=
                   Z.lor (read_byte b byteIndex) (Z.shiftl 1 bitIndex)
                   mod 256]> (bits b) |}
  end.

(** [test(value)]. *)
Definition test (b : t) (value : string) : bool :=
  match hash b value with
  | None => false
  | Some index =>
    let byteIndex := index / 8 in
    let bitIndex := Z.rem index 8 in
    negb (Z.land (read_byte b byteIndex) (Z.shiftl 1 bitIndex) =? 0)
  end.

(** [serialize()]: [JSON.stringify({ size, bits: Array.from(bits) })].
    An integer below 10^21 is printed as its decimal numeral. *)
Definition serialize (b : t) : string :=
  "{" +:+ quoted "size" +:+ ":" +:+ pretty (size b) +:+ ","
      +:+ quoted "bits" +:+ ":[" +:+ join_numbers (bits b) +:+ "]}".

(** [ToNumber] then [ToUint8] of an array element, for the kinds of
    element the embedding follows. *)
Definition to_uint8 (v : json) : option Z :=
  match v with
  | JNumber z => Some (z mod 256)
  | JNull => Some 0
  | JBool b => Some (if b then 1 else 0)
  | _ => None
  end.

Fixpoint to_uint8s (l : list json) : option (list Z) :=
  match l with
  | [] => Some []
  | v :: r =>
    match to_uint8 v, to_uint8s r with
    | Some x, Some xs => Some (x :: xs)
    | _, _ => None
    end
  end.

(** [new Uint8Array(x)] for [x = parsed.bits]: no argument gives the empty
    array, an array of numbers its elements modulo 256, a length that many
    zero bytes. *)
Definition new_Uint8Array (x : option json) : completion (list Z) :=
  match x with
  | None => Normal []
  | Some (JArray elements) =>
    match to_uint8s elements with
    | Some l => Normal l
    | None => Unmodelled
    end
  | Some (JNumber n) =>
    if n <? 0 then Throw RangeError else Normal (replicate (Z.to_nat n) 0)
  | Some JNull => Normal []
  | Some (JBool b) => Normal (if b then [0] else [])
  | Some _ => Unmodelled
  end.

(** [new Bitmap(parsed.size)]: the default parameter 1_000_000 stands in
    for [undefined]. *)
Definition construct_from (x : option json) : completion t :=
  match x with
  | None => constructor 1000000
  | Some (JNumber size) => constructor size
  | Some _ => Unmodelled
  end.

(** [Bitmap.deserialize(data)]. *)
Definition deserialize (data : string) : completion t :=
  match JSON_parse data with
  | None => Throw SyntaxError
  | Some JNull => Throw TypeError
  | Some parsed =>
    match construct_from (get_property parsed "size") with
    | Normal bitmap =>
      match new_Uint8Array (get_property parsed "bits") with
      | Normal bits => Normal {| size := size bitmap; bits := bits |}
      | Throw e => Throw e
      | Unmodelled => Unmodelled
      end
    | Throw e => Throw e
    | Unmodelled => Unmodelled
    end
  end.

(** [debug()]: the capacity and the number of bits set. *)
Definition popcount8 (byte : Z) : Z :=
  fold_left (fun n j => if negb (Z.land byte (Z.shiftl 1 j) =? 0)
                        then n + 1 else n)
            [0; 1; 2; 3; 4; 5; 6; 7] 0.

Definition debug (b : t) : Z * Z :=
  (size b, fold_left (fun n byte => n + popcount8 byte) (bits b) 0).


(** The byte array of [n] zero bytes that [new Uint8Array] creates: a
    [RangeError] for a negative length, for one above 2^53 - 1, and when the
    host cannot create the data block. *)
Definition allocate (h : host) (n : Z) : completion (list Z) :=
  if (n <? 0) || (2 ^ 53 - 1 <? n) || negb (byte_block h n)
  then Throw RangeError
  else Normal (replicate (Z.to_nat n) 0).

(** [new Bitmap(size)] on the host [h]. *)
Definition constructor_on (h : host) (size : Z) : completion t :=
  match allocate h (byte_length size) with
  | Normal bytes => Normal {| size := size; bits := bytes |}
  | Throw e => Throw e
  | Unmodelled => Unmodelled
  end.

(** [new Uint8Array(x)] for [x = parsed.bits] on the host [h]: the array is
    created first (no element for [undefined] and [null], as many as the
    argument has for an array, as many as it says for a number), then
    filled. *)
Definition new_Uint8Array_on (h : host) (x : option json)
  : completion (list Z) :=
  match x with
  | None => allocate h 0
  | Some (JArray elements) =>
    match allocate h (Z.of_nat (length elements)) with
    | Normal _ =>
      match to_uint8s elements with
      | Some l => Normal l
      | None => Unmodelled
      end
    | Throw e => Throw e
    | Unmodelled => Unmodelled
    end
  | Some (JNumber n) => allocate h n
  | Some JNull => allocate h 0
  | Some (JBool b) => allocate h (if b then 1 else 0)
  | Some _ => Unmodelled
  end.

(** [new Bitmap(parsed.size)] on the host [h]. *)
Definition construct_from_on (h : host) (x : option json) : completion t :=
  match x with
  | None => constructor_on h 1000000
  | Some (JNumber size) => constructor_on h size
  | Some _ => Unmodelled
  end.

(** [Bitmap.deserialize(data)] on the host [h]. *)
Definition deserialize_on (h : host) (data : string) : completion t :=
  match JSON_parse data with
  | None => Throw SyntaxError
  | Some JNull => Throw TypeError
  | Some parsed =>
    match construct_from_on h (get_property parsed "size") with
    | Normal bitmap =>
      match new_Uint8Array_on h (get_property parsed "bits") with
      | Normal bits => Normal {| size := size bitmap; bits := bits |}
      | Throw e => Throw e
      | Unmodelled => Unmodelled
      end
    | Throw e => Throw e
    | Unmodelled => Unmodelled
    end
  end.

End Bitmap.

(** The reference hash of the specification: [hash = hash * 31 + code]
    wrapped to a signed 32-bit integer at each step, then the absolute
    value modulo the capacity. *)
Fixpoint hash_reference_loop (value : string) (hash : Z) : Z :=
  match value with
  | EmptyString => hash
  | String c r => hash_reference_loop r (toInt32 (hash * 31 + charCode c))
  end.

Definition hash_reference (capacity : Z) (value : string) : Z :=
  Z.abs (hash_reference_loop value 0) mod capacity.

(** The state of a [Bitmap] object as the class keeps it (the data model's
    invariant): the byte array has [Math.ceil(size / 8)] entries. The
    constructor builds it so and [add] never resizes the array. *)
Definition bitmap_allocated (b : Bitmap.t) : Prop :=
  Z.of_nat (length (Bitmap.bits b)) = Bitmap.byte_length (Bitmap.size b).

(** The elements of a [Uint8Array] are integers of [0..255]. *)
Definition uint8_elements (l : list Z) : Prop :=
  Forall (fun byte => 0 <= byte < 256) l.

(** [add] for each value of a list, in order. *)
Definition add_all (b : Bitmap.t) (values : list string) : Bitmap.t :=
  fold_left Bitmap.add values b.

(** ** Predicates of the statements *)

(** No hyphen among the units of [s]. *)
Definition no_hyphen (s : string) : bool :=
  string_forall (fun c => negb (Ascii.eqb c "-")) s.

(** What one part contributes to a candidate: the hyphen, or a non-empty
    text without hyphen. *)
Definition piece_ok (char : string) : bool :=
  String.eqb char "-" || (negb (String.eqb char "") && no_hyphen char).

(** The alphabet of a part that [parsePattern] builds: not empty, without
    repetition, of pieces of one length. *)
Definition alphabet_ok (l : list string) : Prop :=
  l <> []
  /\ NoDup l
  /\ Forall (fun s => String.length s = String.length (hd EmptyString l)) l
  /\ Forall (fun s => piece_ok s = true) l.

Definition part_ok (part : PatternPart) : Prop :=
  alphabet_ok (possibilities part).

(** The four pruning rules on a candidate. *)
Definition candidate_ok (c : string) : Prop :=
  startsWith "-" c = false
  /\ starts_with_digit c = false
  /\ includes "--" c = false
  /\ endsWith "-" c = false.

(** The text that index [current] selects, part by part, before any
    pruning (the mixed-radix decoding alone). *)
Fixpoint assemble (patternParts : list PatternPart) (current : nat) : string :=
  match patternParts with
  | [] => EmptyString
  | part :: rest =>
    nth (current mod length (possibilities part))%nat
        (possibilities part) "undefined"
    +:+ assemble rest (current / length (possibilities part))%nat
  end.

(** The product of the alphabet sizes, as an integer. *)
Definition alphabet_product (patternParts : list PatternPart) : Z :=
  fold_left (fun acc part => acc * Z.of_nat (length (possibilities part)))
            patternParts 1.

(** The regular expression of the specification for an extension,
    [^\.[a-z0-9]+$]: a dot, then one or more of [a-z0-9]. *)
Definition spec_ext_regex (ext : string) : bool :=
  match ext with
  | String c r =>
    Ascii.eqb c "." && negb (String.eqb r "")
    && string_forall (fun x => is_lower x || is_digit x) r
  | EmptyString => false
  end.

(** Where a number literal may end: at the end of the text or in front of
    a unit that continues neither the digits, nor a fraction, nor an
    exponent. *)
Definition number_end (rest : string) : bool :=
  match rest with
  | EmptyString => true
  | String c _ =>
    negb (is_digit c || Ascii.eqb c "." || Ascii.eqb c "e" || Ascii.eqb c "E")
  end.

(** The JSON value that [serialize] prints. *)
Definition json_of_bitmap (b : Bitmap.t) : json :=
  JObject [("size", JNumber (Bitmap.size b));
           ("bits", JArray (map JNumber (Bitmap.bits b)))].

(** The invariant of the parser's loop: the parts pushed so far are
    well formed and the pending literal holds no hyphen. *)
Definition parser_inv (st : parser_state) : Prop :=
  Forall part_ok (fst st) /\ no_hyphen (snd st) = true.

(** A fact about one code unit, by inspection of the 256 units. *)
Ltac by_units c :=
  destruct c as [[] [] [] [] [] [] [] []]; try discriminate; reflexivity.

(** ** [processPatterns] *)

(** The white space of [String.prototype.trim] and of [\s] among the code
    units 0..255: tab, line feed, vertical tab, form feed, carriage return,
    space and the no-break space. *)
Definition is_space (c : ascii) : bool :=
  let n := nat_of_ascii c in
  ((9 <=? n) && (n <=? 13) || (n =? 32) || (n =? 160))%nat.

Fixpoint trimStart (s : string) : string :=
  match s with
  | EmptyString => EmptyString
  | String c r => if is_space c then trimStart r else s
  end.

Fixpoint trimEnd (s : string) : string :=
  match s with
  | EmptyString => EmptyString
  | String c r =>
    match trimEnd r with
    | EmptyString => if is_space c then EmptyString else String c EmptyString
    | r' => String c r'
    end
  end.

(** [s.trim()]. *)
Definition trim (s : string) : string := trimEnd (trimStart s).

(** [s.split(sep)] for a separator of one code unit: the pieces between the
    separators, the empty ones too; the empty string gives one empty
    piece. *)
Fixpoint split_on (sep : ascii) (s : string) : list string :=
  match s with
  | EmptyString => [EmptyString]
  | String c r =>
    if Ascii.eqb c sep then EmptyString :: split_on sep r
    else match split_on sep r with
         | piece :: rest => String c piece :: rest
         | [] => [String c EmptyString]
         end
  end.

(** [l.join(sep)]. *)
Fixpoint join (sep : string) (l : list string) : string :=
  match l with
  | [] => EmptyString
  | [s] => s
  | s :: rest => s +:+ sep +:+ join sep rest
  end.

(** [s.split(/\s*x\s*/)] for a unit [x] that is no white space, read from
    left to right. A match starts at the first unit of a run of white space
    that ends before an [x], and takes the [x] and all the white space
    behind it. [piece] is the text of the current piece, [ws] the white
    space seen since, which belongs to the piece unless an [x] comes next;
    [skipping] holds right behind an [x], where white space belongs to the
    match. Every match ends a piece, the empty one too, and the end of the
    text ends the last piece. *)
Fixpoint split_spaced (x : ascii) (s : string) (piece ws : string)
    (skipping : bool) : list string :=
  match s with
  | EmptyString => [piece +:+ ws]
  | String c r =>
    if Ascii.eqb c x then piece :: split_spaced x r EmptyString EmptyString true
    else if is_space c then
      if skipping then split_spaced x r EmptyString EmptyString true
      else split_spaced x r piece (ws +:+ String c EmptyString) false
    else split_spaced x r (piece +:+ ws +:+ String c EmptyString)
                      EmptyString false
  end.

Definition split_regex (x : ascii) (s : string) : list string :=
  split_spaced x s EmptyString EmptyString false.

(** One turn of the loop over [parts.slice(1)]: a setting [key = value]
    with the key [ext] or [extensions], in any case, replaces the
    extensions. *)
Definition apply_setting (extensions : list string) (part : string)
  : list string :=
  match split_regex "=" part with
  | key :: value :: _ =>
    if negb (String.eqb key "") && negb (String.eqb value "")
       && (String.eqb (toLowerCase key) "ext"
           || String.eqb (toLowerCase key) "extensions")
    then split_regex "," value
    else extensions
  | _ => extensions
  end.

(** The body of the loop over the trimmed lines: [None] is [continue]. *)
Definition process_line (line : string) : option PatternEntry :=
  if String.eqb line "" || startsWith "#" line then None
  else
    match split_on "#" line with
    | content :: commentParts =>
      let comment := trim (join "#" commentParts) in
      match split_regex ";" (trim content) with
      | pattern :: settings =>
        if String.eqb pattern "" then None
        else Some {| entry_pattern := pattern;
                     entry_extensions :=
                       fold_left apply_setting settings [".com"];
                     entry_comment :=
                       if String.eqb comment "" then None else Some comment |}
      | [] => None
      end
    | [] => None
    end.

(** The line feed, the separator of the lines. *)
Definition line_feed : ascii := "010".

Definition processPatterns (input : string) : list PatternEntry :=
  omap process_line (map trim (split_on line_feed input)).

(** ** [countRemainingDomains] *)

(** A value of the interface [DomainHistory]. *)
Record HistoryEntry : Type := {
  checked : bool;
  available : option bool;
  last_checked : string
}.

(** [DomainHistory]: an object used as a map from domain names. A name
    that only the prototype of the object answers ([constructor], say)
    stands for no entry: the value found there has no [last_checked], its
    date is invalid, and the loop goes on as for a missing name. *)
Definition DomainHistory : Type := gmap string HistoryEntry.

(** The clock of a call: [Date.now()], and [new Date(s).getTime()] as a
    function of the text [s], with [None] for the [NaN] of an invalid
    date. *)
Record clock : Type := {
  Date_now : Z;
  Date_getTime : string -> option Z
}.

(** The test of the inner loop: the domain is in the history and
    [daysSinceChecked < maxAgeDays]. [maxAgeDays] is a whole number of days
    here; the quotient of the difference by the 86400000 milliseconds of a
    day is below it exactly when the difference is below that many days
    (the quotient is a double: below 2^26 days half an ulp at [maxAgeDays]
    is less than one millisecond, so the rounding does not change the
    outcome); a comparison with [NaN] is false. *)
Definition recently_checked (clk : clock) (history : DomainHistory)
    (maxAgeDays : Z) (domain : string) : bool :=
  match history !! domain with
  | Some h =>
    match Date_getTime clk (last_checked h) with
    | Some lastChecked =>
      bool_decide (Date_now clk - lastChecked
                   < maxAgeDays * (1000 * 60 * 60 * 24))
    | None => false
    end
  | None => false
  end.

(** The counters [(remaining, checked)] after one domain. *)
Definition count_domain (clk : clock) (history : DomainHistory)
    (maxAgeDays : Z) (base : string) (counters : nat * nat) (ext : string)
  : nat * nat :=
  if recently_checked clk history maxAgeDays (base +:+ ext)
  then (fst counters, S (snd counters))
  else (S (fst counters), snd counters).

(** The counters after one candidate of the generator. *)
Definition count_base (clk : clock) (history : DomainHistory)
    (maxAgeDays : Z) (extensions : list string) (counters : nat * nat)
    (base : string) : nat * nat :=
  if startsWith "-" base || endsWith "-" base then counters
  else fold_left (count_domain clk history maxAgeDays base) extensions
                 counters.

(** [countRemainingDomains]: the pair [(remaining, checked)]. *)
Definition countRemainingDomains (clk : clock) (rand : oracle)
    (pattern : PatternAnalysis) (history : DomainHistory) (maxAgeDays : Z)
  : nat * nat :=
  fold_left (count_base clk history maxAgeDays (extensions pattern))
            (generateCombinations rand (parts pattern)) (O, O).

(** The domains the two loops walk through: every candidate that neither
    starts nor ends with a hyphen, with every extension. *)
Definition domains_of (bases extensions : list string) : list string :=
  flat_map (fun base =>
              if startsWith "-" base || endsWith "-" base then []
              else map (fun ext => base +:+ ext) extensions)
           bases.

(** ** Further predicates of the statements *)

(** The piece that index [current] selects in the first part. *)
Definition first_piece (patternParts : list PatternPart) (current : nat)
  : string :=
  match patternParts with
  | [] => EmptyString
  | part :: _ =>
    nth (current mod length (possibilities part))%nat
        (possibilities part) "undefined"
  end.

(** The character class [[A-Z]]. *)
Definition is_upper (c : ascii) : bool :=
  let n := nat_of_ascii c in ((65 <=? n) && (n <=? 90))%nat.

(** The units of a host name label: [[a-z0-9-]]. *)
Definition domain_char (c : ascii) : bool :=
  is_lower c || is_digit c || Ascii.eqb c "-".

(** The units [validatePattern] lets through: [[a-zA-Z0-9_-]]. *)
Definition pattern_char (c : ascii) : bool :=
  is_lower c || is_upper c || is_digit c || Ascii.eqb c "-"
  || Ascii.eqb c "_".

(** The number of units a part contributes to a candidate. *)
Definition piece_length (part : PatternPart) : nat :=
  String.length (hd EmptyString (possibilities part)).

Definition parts_length (patternParts : list PatternPart) : nat :=
  fold_right (fun part n => (piece_length part + n)%nat) 0%nat patternParts.

(** [/^[a-z]/.test(s)]: [s] starts with a lower-case letter. *)
Definition starts_with_lower (s : string) : bool :=
  match s with
  | EmptyString => false
  | String c _ => is_lower c
  end.

(** A pending literal whose units lower-case into [[a-z0-9]]. *)
Definition literal_alnum (lit : string) : bool :=
  string_forall (fun c => is_lower (toLowerCase_char c)
                          || is_digit (toLowerCase_char c)) lit.

(** A part whose possibilities are made of [[a-z0-9-]]. *)
Definition part_domain (part : PatternPart) : Prop :=
  Forall (fun s => string_forall domain_char s = true) (possibilities part).

(** The invariant of the parser on a pattern of valid characters. *)
Definition parser_domain_inv (st : parser_state) : Prop :=
  Forall part_domain (fst st) /\ literal_alnum (snd st) = true.

(** The character class [[a-zA-Z]]. *)
Definition is_letter (c : ascii) : bool := is_lower c || is_upper c.

(** The character class [[a-z0-9]]. *)
Definition is_alnum (c : ascii) : bool := is_lower c || is_digit c.

(** A part whose possibilities are made of units of the class [f]. *)
Definition part_chars (f : ascii -> bool) (part : PatternPart) : Prop :=
  Forall (fun s => string_forall f s = true) (possibilities part).

(** The parser's state on a pattern of letters that does not start with the
    digit token: parts of [[a-z0-9]], a pending literal of letters, and a
    first part, pushed or pending, without digit. *)
Definition parser_letters_inv (st : parser_state) : Prop :=
  Forall (part_chars is_alnum) (fst st)
  /\ string_forall (fun c => is_lower (toLowerCase_char c)) (snd st) = true
  /\ match fst st with
     | [] => snd st <> EmptyString
     | part :: _ => part_chars is_lower part
     end.

(** The units that [parsePattern] reads as one of the tokens [c], [v], [n]
    and [l], whatever their case. *)
Definition is_token (c : ascii) : bool :=
  let lowerChar := toLowerCase_char c in
  Ascii.eqb lowerChar "c" || Ascii.eqb lowerChar "v"
  || Ascii.eqb lowerChar "n" || Ascii.eqb lowerChar "l".

(** The units that stay in a literal: no token, no wildcard, no hyphen. *)
Definition is_literal_char (c : ascii) : bool :=
  negb (is_token c) && negb (Ascii.eqb c "_") && negb (Ascii.eqb c "-").

(** A pattern with its tokens in lower case. *)
Fixpoint lower_tokens (pattern : string) : string :=
  match pattern with
  | EmptyString => EmptyString
  | String c r =>
    String (if is_token c then toLowerCase_char c else c) (lower_tokens r)
  end.

(** The pattern text a part stands for: the text of a literal, [_] for the
    wildcard, and the [type] of every other part. *)
Definition part_source (part : PatternPart) : string :=
  match value part, isWildcard part with
  | Some v, _ => v
  | None, Some true => "_"
  | None, _ => type part
  end.

Definition parts_source (patternParts : list PatternPart) : string :=
  fold_right (fun part s => part_source part +:+ s) EmptyString patternParts.

Definition is_literal (part : PatternPart) : bool :=
  String.eqb (type part) "literal".

(** Two literal parts next to one another. *)
Fixpoint adjacent_literals (patternParts : list PatternPart) : bool :=
  match patternParts with
  | [] => false
  | a :: rest =>
    match rest with
    | b :: _ => is_literal a && is_literal b
    | [] => false
    end || adjacent_literals rest
  end.

(** What a literal part holds: a non-empty text of literal units as its
    [value], and the lower-cased text as its one possibility. *)
Definition literal_shape (part : PatternPart) : Prop :=
  is_literal part = true ->
  exists v : string,
    value part = Some v /\ v <> EmptyString
    /\ string_forall is_literal_char v = true
    /\ possibilities part = [toLowerCase v].

(** The parser's state between two turns: literal parts of that shape, none
    next to another, none at the end, and a pending text of literal units. *)
Definition parser_shape_inv (st : parser_state) : Prop :=
  Forall literal_shape (fst st)
  /\ adjacent_literals (fst st) = false
  /\ match last (fst st) with
     | Some part => is_literal part = false
     | None => True
     end
  /\ string_forall is_literal_char (snd st) = true.

(** [/^\s/.test(s)] and [/\s$/.test(s)]. *)
Definition starts_with_space (s : string) : bool :=
  match s with
  | EmptyString => false
  | String c _ => is_space c
  end.

Fixpoint ends_with_space (s : string) : bool :=
  match s with
  | EmptyString => false
  | String c r =>
    match r with
    | EmptyString => is_space c
    | _ => ends_with_space r
    end
  end.

(** A text without white space at either end. *)
Definition trimmed (s : string) : bool :=
  negb (starts_with_space s) && negb (ends_with_space s).

(** The units that can stand in the pattern of an entry: no line feed, no
    [#] and no [;]. *)
Definition entry_char (c : ascii) : bool :=
  negb (Ascii.eqb c line_feed) && negb (Ascii.eqb c "#")
  && negb (Ascii.eqb c ";").

(** What [processPatterns] reads from a line that holds a pattern only. *)
Definition default_entry (pattern : string) : PatternEntry :=
  {| entry_pattern := pattern;
     entry_extensions := [".com"];
     entry_comment := None |}.

(** ** The calls on a host *)

(** A host that creates every array it is asked for. *)
Definition roomy : host :=
  {| byte_block := fun _ => true; array_block := fun _ => true |}.

(** [Array.from({ length: totalCombinations }, (_, i) => i)]: an array has
    fewer than 2^32 elements, so the call raises a [RangeError] for a
    length of 2^32 or more, as it does when the host cannot create the
    array. *)
Definition index_array (h : host) (totalCombinations : nat)
  : completion (list nat) :=
  if (2 ^ 32 <=? Z.of_nat totalCombinations)
     || negb (array_block h (Z.of_nat totalCombinations))
  then Throw RangeError
  else Normal (seq 0 totalCombinations).

(** [generateCombinations(patternParts)] on the host [h], run to its end (by
    [Array.from] or by a [for ... of] loop): the list of the values it
    yields, or the exception of the index array, which is built, and
    shuffled in place, before anything is yielded. *)
Definition generateCombinations_on (h : host) (rand : oracle)
    (patternParts : list PatternPart) : completion (list string) :=
  match index_array h (totalCombinations patternParts) with
  | Normal indices =>
    Normal (omap (decode patternParts) (shuffleArray rand indices))
  | Throw e => Throw e
  | Unmodelled => Unmodelled
  end.

(** [countRemainingDomains] on the host [h]: the loop runs over the
    generator, whose exception ends the call. *)
Definition countRemainingDomains_on (h : host) (clk : clock) (rand : oracle)
    (pattern : PatternAnalysis) (history : DomainHistory) (maxAgeDays : Z)
  : completion (nat * nat) :=
  match generateCombinations_on h rand (parts pattern) with
  | Normal bases =>
    Normal (fold_left (count_base clk history maxAgeDays (extensions pattern))
                      bases (O, O))
  | Throw e => Throw e
  | Unmodelled => Unmodelled
  end.

(** ** Predicates of the amended statements *)

(** A count [x] that [k] multiplications on doubles make of the exact
    integer [exact]: every multiplication rounds to the nearest double, so
    a finite count is off by a factor between (1 - 2^-53)^k and
    (1 + 2^-53)^k at most, [Infinity] stands for a value that reaches 2^1024
    within that factor, and the count is never [NaN]. *)
Definition double_approx (k : nat) (exact : Z) (x : number) : Prop :=
  match x with
  | Finite z =>
    0 <= z
    /\ exact * (2 ^ 53 - 1) ^ Z.of_nat k <= z * (2 ^ 53) ^ Z.of_nat k
    /\ z * (2 ^ 53) ^ Z.of_nat k <= exact * (2 ^ 53 + 1) ^ Z.of_nat k
  | Infinity =>
    2 ^ 1024 * (2 ^ 53) ^ Z.of_nat k <= exact * (2 ^ 53 + 1) ^ Z.of_nat k
  | NaN => False
  end.

(** The code units of ASCII. On them [toLowerCase] of the host is the
    [toLowerCase] of the embedding, unit by unit. *)
Definition is_ascii_unit (c : ascii) : bool := (nat_of_ascii c <? 128)%nat.

(* ===================================================================== *)
(** * Part II: theorems                                                   *)
(* ===================================================================== *)

(** ** The parser and the validators on the examples of the test suite *)

Example parsePattern_test_ :
  map type (parsePattern "test_") = ["literal"; "wildcard"].
Proof. reflexivity. Qed.

Example parsePattern_TEST :
  parsePattern "TEST" =
  [ {| type := "literal"; value := Some "TEST";
       possibilities := ["test"]; isWildcard := None |} ].
Proof. reflexivity. Qed.

Example parsePattern_mixed :
  map type (parsePattern "test-l_n") = ["literal"; "-"; "l"; "wildcard"; "n"].
Proof. reflexivity. Qed.

Example validatePattern_examples :
  validatePattern "" = Some "Pattern cannot be empty" /\
  validatePattern "-test" = Some "Pattern cannot start with hyphen" /\
  validatePattern "test-" = Some "Pattern cannot end with hyphen" /\
  validatePattern "te--st" = Some "Pattern cannot contain consecutive hyphens" /\
  validatePattern "test!" = Some "Invalid character in pattern: !" /\
  validatePattern "test" = None /\ validatePattern "ll-ll" = None.
Proof. repeat split; reflexivity. Qed.

Example validateExtensions_examples :
  validateExtensions [".com"] = None /\
  validateExtensions ["com"] = Some "Extension must start with dot: com" /\
  validateExtensions ["."] = Some "Extension too short: ." /\
  validateExtensions [".COM"] = Some "Invalid extension format: .COM" /\
  validateExtensions [".com"; ".net"; ".org"] = None.
Proof. repeat split; reflexivity. Qed.


(** ** The hash of the bitmap *)

Lemma toInt32_shift (z : Z) : exists k, toInt32 z = z + k * 2 ^ 32.
Proof.
  exists (- ((z + 2 ^ 31) / 2 ^ 32)). unfold toInt32.
  rewrite Z.mod_eq by lia. lia.
Qed.

Lemma toInt32_congr (a b k : Z) : a = b + k * 2 ^ 32 -> toInt32 a = toInt32 b.
Proof.
  intros ->. unfold toInt32.
  replace (b + k * 2 ^ 32 + 2 ^ 31) with (b + 2 ^ 31 + k * 2 ^ 32) by lia.
  now rewrite Z_mod_plus_full.
Qed.

Lemma toInt32_range (z : Z) : - 2 ^ 31 <= toInt32 z < 2 ^ 31.
Proof.
  unfold toInt32. pose proof (Z.mod_pos_bound (z + 2 ^ 31) (2 ^ 32)). lia.
Qed.

(** The shift-and-subtract step of the source is the multiply-by-31 step. *)
Lemma hash_step_reference (hash code : Z) :
  Bitmap.hash_step hash code = toInt32 (hash * 31 + code).
Proof.
  unfold Bitmap.hash_step. rewrite Z.land_diag, Z.shiftl_mul_pow2 by lia.
  destruct (toInt32_shift hash) as [k Hk].
  destruct (toInt32_shift (toInt32 hash * 2 ^ 5)) as [k' Hk'].
  apply (toInt32_congr _ _ (k * 32 + k')). lia.
Qed.

Lemma hash_loop_reference (value : string) (hash : Z) :
  Bitmap.hash_loop value hash = hash_reference_loop value hash.
Proof.
  revert hash. induction value as [|c r IH]; intros hash; simpl.
  - reflexivity.
  - now rewrite hash_step_reference, IH.
Qed.

(** C6: for every string and every capacity above 0, the shift-based hash
    of the source equals the reference hash (multiply by 31, add the code
    unit, wrap to a signed 32-bit integer at each step, then the absolute
    value modulo the capacity), and the result lies in [0, capacity). *)
Theorem hash_refines_reference (b : Bitmap.t) (value : string) :
  0 < Bitmap.size b ->
  Bitmap.hash b value = Some (hash_reference (Bitmap.size b) value)
  /\ 0 <= hash_reference (Bitmap.size b) value < Bitmap.size b.
Proof.
  intros Hsize. unfold Bitmap.hash, hash_reference. split.
  - destruct (Z.eqb_spec (Bitmap.size b) 0) as [E|_]; [lia|].
    rewrite hash_loop_reference, Z.rem_mod_nonneg by lia. reflexivity.
  - apply Z.mod_pos_bound. exact Hsize.
Qed.

Lemma hash_refines_reference_witness :
  0 < 1000
  /\ Bitmap.hash {| Bitmap.size := 1000; Bitmap.bits := [] |} "test.com"
     = Some (hash_reference 1000 "test.com")
  /\ hash_reference 1000 "test.com" = 907.
Proof.
  split; [lia|]. split; [|reflexivity].
  apply (hash_refines_reference
           {| Bitmap.size := 1000; Bitmap.bits := [] |} "test.com").
  simpl. lia.
Defined.

(** ** Membership in the bitmap *)

Lemma land_bit (x k : Z) :
  0 <= k -> (Z.land x (Z.shiftl 1 k) =? 0) = negb (Z.testbit x k).
Proof.
  intros Hk. rewrite Z.shiftl_1_l.
  assert (Z.land x (2 ^ k) = if Z.testbit x k then 2 ^ k else 0) as ->.
  { apply Z.bits_inj'. intros n Hn.
    rewrite Z.land_spec, Z.pow2_bits_eqb by lia.
    destruct (Z.eqb_spec k n) as [->|Hne].
    - destruct (Z.testbit x n); simpl.
      + rewrite Z.pow2_bits_eqb by lia. now rewrite Z.eqb_refl.
      + now rewrite Z.bits_0.
    - rewrite andb_false_r. destruct (Z.testbit x k).
      + rewrite Z.pow2_bits_eqb by lia.
        destruct (Z.eqb_spec k n); [contradiction | reflexivity].
      + now rewrite Z.bits_0. }
  destruct (Z.testbit x k); simpl; [|reflexivity].
  apply Z.eqb_neq. pose proof (Z.pow_pos_nonneg 2 k). lia.
Qed.

Lemma testbit_set_byte (x j k : Z) :
  0 <= j -> 0 <= k < 8 ->
  Z.testbit (Z.lor x (Z.shiftl 1 j) mod 256) k = Z.testbit x k || (j =? k).
Proof.
  intros Hj Hk. change 256 with (2 ^ 8).
  rewrite Z.mod_pow2_bits_low by lia.
  now rewrite Z.lor_spec, Z.shiftl_1_l, Z.pow2_bits_eqb by lia.
Qed.

Lemma hash_index_nonneg (b : Bitmap.t) (value : string) (index : Z) :
  Bitmap.hash b value = Some index -> 0 <= index.
Proof.
  unfold Bitmap.hash. destruct (Z.eqb_spec (Bitmap.size b) 0); [discriminate|].
  intros [= <-]. apply Z.rem_nonneg; lia.
Qed.

Lemma bit_index_range (index : Z) : 0 <= index -> 0 <= Z.rem index 8 < 8.
Proof. intros H. rewrite Z.rem_mod_nonneg by lia. apply Z.mod_pos_bound. lia. Qed.

Lemma hash_add (b : Bitmap.t) (w value : string) :
  Bitmap.hash (Bitmap.add b w) value = Bitmap.hash b value.
Proof.
  unfold Bitmap.add. destruct (Bitmap.hash b w); reflexivity.
Qed.

Lemma test_testbit (b : Bitmap.t) (value : string) :
  Bitmap.test b value =
  match Bitmap.hash b value with
  | None => false
  | Some index => Z.testbit (Bitmap.read_byte b (index / 8)) (Z.rem index 8)
  end.
Proof.
  unfold Bitmap.test. destruct (Bitmap.hash b value) as [index|] eqn:E.
  - apply hash_index_nonneg in E.
    rewrite land_bit by (apply bit_index_range; lia).
    apply negb_involutive.
  - reflexivity.
Qed.

(** A bit that is set stays set under [add]. *)
Lemma add_keeps_bit (b : Bitmap.t) (w : string) (i k : Z) :
  0 <= i -> 0 <= k < 8 ->
  Z.testbit (Bitmap.read_byte b i) k = true ->
  Z.testbit (Bitmap.read_byte (Bitmap.add b w) i) k = true.
Proof.
  intros Hi Hk Hbit. unfold Bitmap.add.
  destruct (Bitmap.hash b w) as [index|] eqn:E; [|exact Hbit].
  pose proof (hash_index_nonneg _ _ _ E) as Hidx.
  unfold Bitmap.read_byte at 1. cbn [Bitmap.bits].
  destruct (decide (Z.to_nat (index / 8) = Z.to_nat i)) as [Heq|Hne].
  - assert (index / 8 = i) as -> by (apply Z2Nat.inj; [apply Z.div_pos| |]; lia).
    destruct (decide (Z.to_nat i < length (Bitmap.bits b))%nat) as [Hlt|Hge].
    + rewrite list_lookup_insert_eq by exact Hlt.
      rewrite testbit_set_byte by (try apply bit_index_range; lia).
      now rewrite Hbit.
    + rewrite list_insert_ge by lia. exact Hbit.
  - rewrite list_lookup_insert_ne by exact Hne. exact Hbit.
Qed.

Lemma test_add_monotone (b : Bitmap.t) (w value : string) :
  Bitmap.test b value = true -> Bitmap.test (Bitmap.add b w) value = true.
Proof.
  rewrite !test_testbit, hash_add.
  destruct (Bitmap.hash b value) as [index|] eqn:E; [|discriminate].
  pose proof (hash_index_nonneg _ _ _ E) as Hidx.
  apply add_keeps_bit; [apply Z.div_pos; lia | apply bit_index_range; lia].
Qed.

Lemma test_add_all_monotone (values : list string) (b : Bitmap.t)
    (value : string) :
  Bitmap.test b value = true -> Bitmap.test (add_all b values) value = true.
Proof.
  revert b. induction values as [|w values IH]; intros b H; simpl.
  - exact H.
  - apply IH, test_add_monotone, H.
Qed.

Lemma hash_index_in_array (b : Bitmap.t) (value : string) (index : Z) :
  0 < Bitmap.size b -> bitmap_allocated b ->
  Bitmap.hash b value = Some index ->
  (Z.to_nat (index / 8) < length (Bitmap.bits b))%nat.
Proof.
  intros Hsize Halloc E. pose proof (hash_index_nonneg _ _ _ E) as Hidx.
  unfold Bitmap.hash in E.
  destruct (Z.eqb_spec (Bitmap.size b) 0); [discriminate|].
  injection E as E.
  assert (index < Bitmap.size b) as Hlt.
  { rewrite <- E, Z.rem_mod_nonneg by lia. apply Z.mod_pos_bound. lia. }
  unfold bitmap_allocated, Bitmap.byte_length in Halloc.
  assert (index / 8 < (Bitmap.size b + 7) / 8) as Hdiv.
  { apply Z.div_lt_upper_bound; [lia|].
    pose proof (Z.mul_div_le (Bitmap.size b + 7) 8).
    pose proof (Z.mod_pos_bound (Bitmap.size b + 7) 8).
    pose proof (Z.div_mod (Bitmap.size b + 7) 8). lia. }
  pose proof (Z.div_pos index 8). lia.
Qed.

Lemma test_add_same (b : Bitmap.t) (value : string) :
  0 < Bitmap.size b -> bitmap_allocated b ->
  Bitmap.test (Bitmap.add b value) value = true.
Proof.
  intros Hsize Halloc. rewrite test_testbit, hash_add.
  destruct (Bitmap.hash b value) as [index|] eqn:E.
  - pose proof (hash_index_nonneg _ _ _ E) as Hidx.
    pose proof (hash_index_in_array _ _ _ Hsize Halloc E) as Hin.
    unfold Bitmap.add. rewrite E. unfold Bitmap.read_byte at 1.
    cbn [Bitmap.bits]. rewrite list_lookup_insert_eq by exact Hin.
    rewrite testbit_set_byte by (try apply bit_index_range; lia).
    rewrite Z.eqb_refl. apply orb_true_r.
  - unfold Bitmap.hash in E.
    destruct (Z.eqb_spec (Bitmap.size b) 0); [lia | discriminate].
Qed.

(** The constructor allocates the array of the invariant, with bytes of 0. *)
Lemma constructor_allocated (size : Z) (b : Bitmap.t) :
  Bitmap.constructor size = Normal b ->
  Bitmap.size b = size /\ bitmap_allocated b /\ uint8_elements (Bitmap.bits b).
Proof.
  unfold Bitmap.constructor.
  destruct (_ || _) eqn:E; [discriminate|]. intros [= <-].
  apply orb_false_elim in E as [E1 E2]. apply Z.ltb_ge in E1.
  unfold bitmap_allocated, uint8_elements. cbn [Bitmap.size Bitmap.bits].
  rewrite length_replicate, Z2Nat.id by lia. repeat split.
  apply Forall_replicate. lia.
Qed.

Lemma add_allocated (b : Bitmap.t) (w : string) :
  bitmap_allocated b -> bitmap_allocated (Bitmap.add b w).
Proof.
  unfold bitmap_allocated, Bitmap.add.
  destruct (Bitmap.hash b w); cbn [Bitmap.size Bitmap.bits];
    rewrite ?length_insert; trivial.
Qed.


Lemma add_size (b : Bitmap.t) (w : string) :
  Bitmap.size (Bitmap.add b w) = Bitmap.size b.
Proof. unfold Bitmap.add. destruct (Bitmap.hash b w); reflexivity. Qed.

Lemma add_all_allocated (values : list string) (b : Bitmap.t) :
  bitmap_allocated b -> bitmap_allocated (add_all b values).
Proof.
  revert b. induction values as [|w values IH]; intros b H; simpl;
    [exact H | apply IH, add_allocated, H].
Qed.


Lemma add_all_size (values : list string) (b : Bitmap.t) :
  Bitmap.size (add_all b values) = Bitmap.size b.
Proof.
  revert b. induction values as [|w values IH]; intros b; simpl;
    [reflexivity | now rewrite IH, add_size].
Qed.

(** C4, as amended: for every string [s] and every bitmap of capacity above
    0 whose byte array has [ceil(capacity / 8)] elements (the state in which
    the constructor builds a bitmap, [constructor_allocated], and in which
    [add] keeps it, [add_allocated]), [test(s)] is true right after [add(s)]
    and stays true after any further sequence of [add] calls. *)
Theorem test_after_add (b : Bitmap.t) (s : string) (further : list string) :
  0 < Bitmap.size b -> bitmap_allocated b ->
  Bitmap.test (Bitmap.add b s) s = true
  /\ Bitmap.test (add_all (Bitmap.add b s) further) s = true.
Proof.
  intros Hsize Halloc.
  pose proof (test_add_same b s Hsize Halloc) as H.
  split; [exact H | apply test_add_all_monotone, H].
Qed.

Lemma test_after_add_witness :
  let b := {| Bitmap.size := 10; Bitmap.bits := [0; 0] |} in
  0 < Bitmap.size b /\ bitmap_allocated b
  /\ Bitmap.test (Bitmap.add b "test1.com") "test1.com" = true
  /\ Bitmap.test
       (add_all (Bitmap.add b "test1.com") ["test2.com"; "example1.com"])
       "test1.com" = true.
Proof.
  intros b. split; [simpl; lia|]. split; [reflexivity|].
  apply (test_after_add b "test1.com" ["test2.com"; "example1.com"]).
  - simpl. lia.
  - reflexivity.
Defined.

(** C4 as stated fails: it speaks of every bitmap of capacity above 0, and
    [Bitmap.deserialize] makes of a text with the capacity 1000 and no
    [bits] member a bitmap of that capacity with an empty byte array. On it
    [add] writes outside the array, that is nowhere, and [test(s)] is false
    right after [add(s)]. *)
Lemma test_after_add_counterexample :
  Bitmap.deserialize_on roomy ("{" +:+ quoted "size" +:+ ":1000}")
  = Normal {| Bitmap.size := 1000; Bitmap.bits := [] |}
  /\ 0 < Bitmap.size {| Bitmap.size := 1000; Bitmap.bits := [] |}
  /\ Bitmap.add {| Bitmap.size := 1000; Bitmap.bits := [] |} "test.com"
     = {| Bitmap.size := 1000; Bitmap.bits := [] |}
  /\ Bitmap.test
       (Bitmap.add {| Bitmap.size := 1000; Bitmap.bits := [] |} "test.com")
       "test.com" = false.
Proof. repeat split; vm_compute; reflexivity. Qed.

(** ** The parts that [parsePattern] builds *)

Lemma toLowerCase_char_hyphen (c : ascii) :
  Ascii.eqb (toLowerCase_char c) "-" = Ascii.eqb c "-".
Proof. by_units c. Qed.

Lemma toLowerCase_no_hyphen (s : string) :
  no_hyphen (toLowerCase s) = no_hyphen s.
Proof.
  induction s as [|c r IH]; simpl; [reflexivity|].
  unfold no_hyphen in *. simpl.
  now rewrite toLowerCase_char_hyphen, IH.
Qed.

Lemma toLowerCase_empty (s : string) :
  String.eqb (toLowerCase s) "" = String.eqb s "".
Proof. destruct s; reflexivity. Qed.

Lemma no_hyphen_app (a b : string) :
  no_hyphen (a +:+ b) = no_hyphen a && no_hyphen b.
Proof.
  unfold no_hyphen. induction a as [|c r IH]; simpl; [reflexivity|].
  now rewrite IH, andb_assoc.
Qed.

Lemma alphabet_ok_singleton (s : string) :
  piece_ok s = true -> alphabet_ok [s].
Proof.
  intros H. repeat split.
  - discriminate.
  - apply NoDup_singleton.
  - repeat constructor.
  - repeat constructor. exact H.
Qed.

Lemma alphabet_ok_CONSONANTS : alphabet_ok CONSONANTS.
Proof.
  repeat split; [discriminate | compute_done | |];
    repeat constructor.
Qed.

Lemma alphabet_ok_VOWELS : alphabet_ok VOWELS.
Proof.
  repeat split; [discriminate | compute_done | |];
    repeat constructor.
Qed.

Lemma alphabet_ok_NUMBERS : alphabet_ok NUMBERS.
Proof.
  repeat split; [discriminate | compute_done | |];
    repeat constructor.
Qed.

Lemma alphabet_ok_LETTERS : alphabet_ok LETTERS.
Proof.
  repeat split; [discriminate | compute_done | |];
    repeat constructor.
Qed.

Lemma alphabet_ok_ALL_CHARS : alphabet_ok ALL_CHARS.
Proof.
  repeat split; [discriminate | compute_done | |];
    repeat constructor.
Qed.

Lemma processLiteral_inv (st : parser_state) :
  parser_inv st ->
  parser_inv (processLiteral st) /\ snd (processLiteral st) = EmptyString.
Proof.
  destruct st as [parts lit]. intros [Hparts Hlit]. simpl in *.
  destruct lit as [|c r]; [repeat split; assumption|].
  split; [|reflexivity]. split; [|reflexivity]. cbn [fst].
  apply Forall_app. split; [exact Hparts|].
  apply Forall_singleton. apply alphabet_ok_singleton.
  unfold piece_ok. rewrite toLowerCase_empty, toLowerCase_no_hyphen, Hlit.
  apply orb_true_r.
Qed.

Lemma push_part_inv (p : PatternPart) (st : parser_state) :
  part_ok p -> parser_inv st -> parser_inv (push_part p st).
Proof.
  intros Hp Hst. unfold push_part.
  destruct (processLiteral_inv st Hst) as [[H1 H2] H3].
  destruct (processLiteral st) as [parts lit]. simpl in *.
  split; [|exact H2]. cbn [fst].
  apply Forall_app. split; [exact H1 | apply Forall_singleton; exact Hp].
Qed.

Lemma parse_step_inv (char : ascii) (st : parser_state) :
  parser_inv st -> parser_inv (parse_step char st).
Proof.
  intros Hst. unfold parse_step.
  repeat match goal with
         | |- context [if ?b then _ else _] => destruct b eqn:?
         end;
    try (apply push_part_inv; [|exact Hst]; red; cbn [possibilities];
         auto using alphabet_ok_CONSONANTS, alphabet_ok_VOWELS,
           alphabet_ok_NUMBERS, alphabet_ok_LETTERS, alphabet_ok_ALL_CHARS).
  - apply alphabet_ok_singleton.
    match goal with H : Ascii.eqb char "-" = true |- _ =>
      apply Ascii.eqb_eq in H; subst char end.
    reflexivity.
  - destruct Hst as [H1 H2]. split; [exact H1|]. cbn [snd].
    rewrite no_hyphen_app, H2. unfold no_hyphen. simpl.
    match goal with H : Ascii.eqb char "-" = false |- _ => rewrite H end.
    reflexivity.
Qed.

Lemma parse_loop_inv (pattern : string) (st : parser_state) :
  parser_inv st -> parser_inv (parse_loop pattern st).
Proof.
  revert st. induction pattern as [|c r IH]; intros st H; simpl;
    [exact H | apply IH, parse_step_inv, H].
Qed.

(** Every part of a parsed pattern is well formed. *)
Lemma parsePattern_ok (pattern : string) : Forall part_ok (parsePattern pattern).
Proof.
  unfold parsePattern.
  apply processLiteral_inv, parse_loop_inv. split; [constructor | reflexivity].
Qed.

(** ** Strings: prefixes, suffixes, substrings *)

Lemma prefix_nil (s : string) : String.prefix "" s = true.
Proof. destruct s; reflexivity. Qed.

Lemma prefix_cons (a b : ascii) (s1 s2 : string) :
  String.prefix (String a s1) (String b s2)
  = Ascii.eqb a b && String.prefix s1 s2.
Proof.
  simpl. destruct (ascii_dec a b) as [->|Hne].
  - now rewrite Ascii.eqb_refl.
  - apply Ascii.eqb_neq in Hne. now rewrite Hne.
Qed.

Lemma string_eqb_cons (a b : ascii) (s1 s2 : string) :
  String.eqb (String a s1) (String b s2) = Ascii.eqb a b && String.eqb s1 s2.
Proof. reflexivity. Qed.

Lemma includes_cons (p : string) (c : ascii) (r : string) :
  includes p (String c r) = String.prefix p (String c r) || includes p r.
Proof. reflexivity. Qed.

Lemma endsWith_cons (p : string) (c : ascii) (r : string) :
  endsWith p (String c r) = String.eqb p (String c r) || endsWith p r.
Proof. reflexivity. Qed.

Lemma append_empty (a b : string) : a +:+ b = "" -> a = "" /\ b = "".
Proof. destruct a; cbn [String.append]; [auto | discriminate]. Qed.

Lemma append_assoc (a b c : string) : (a +:+ b) +:+ c = a +:+ (b +:+ c).
Proof.
  induction a as [|x a IH]; cbn [String.append]; [reflexivity | now rewrite IH].
Qed.

Lemma append_length (a b : string) :
  String.length (a +:+ b) = (String.length a + String.length b)%nat.
Proof.
  induction a as [|x a IH]; cbn [String.append String.length plus];
    [reflexivity | now rewrite IH].
Qed.

Lemma length_zero (s : string) : (String.length s =? 0)%nat = String.eqb s "".
Proof. destruct s; reflexivity. Qed.

Lemma startsWith_app (a b : string) :
  a <> "" -> startsWith "-" (a +:+ b) = startsWith "-" a.
Proof.
  destruct a as [|c r]; [congruence|]. intros _. unfold startsWith.
  cbn [String.append]. now rewrite !prefix_cons, !prefix_nil.
Qed.

Lemma endsWith_app (a b : string) :
  b <> "" -> endsWith "-" (a +:+ b) = endsWith "-" b.
Proof.
  intros Hb. induction a as [|c r IH]; [reflexivity|].
  cbn [String.append]. rewrite endsWith_cons, string_eqb_cons, IH.
  destruct (r +:+ b) as [|d t] eqn:E.
  - apply append_empty in E as [_ ->]. congruence.
  - change (String.eqb "" (String d t)) with false.
    now rewrite andb_false_r.
Qed.




(** A doubled hyphen in [a ++ b] lies in [a], in [b], or across the seam. *)
Lemma includes_hyphens_app (a b : string) :
  includes "--" (a +:+ b)
  = includes "--" a || includes "--" b
    || (endsWith "-" a && startsWith "-" b).
Proof.
  induction a as [|c r IH].
  - change (includes "--" b
            = false || includes "--" b || false && startsWith "-" b).
    now rewrite orb_false_r.
  - cbn [String.append]. rewrite !includes_cons, !endsWith_cons, IH.
    rewrite !prefix_cons, string_eqb_cons. unfold startsWith.
    destruct r as [|d t].
    + change (includes "--" "") with false. change (endsWith "-" "") with false.
      change ("" +:+ b) with b. change (String.eqb "" "") with true.
      change (String.prefix "-" "") with false.
      destruct (Ascii.eqb "-" c), (String.prefix "-" b), (includes "--" b);
        reflexivity.
    + cbn [String.append]. rewrite !prefix_cons, !prefix_nil.
      change (String.eqb "" (String d t)) with false.
      destruct (Ascii.eqb "-" c), (Ascii.eqb "-" d), (includes "--" t),
        (includes "--" b), (endsWith "-" (String d t)), (String.prefix "-" b);
        reflexivity.
Qed.

Lemma no_hyphen_cons (c : ascii) (r : string) :
  no_hyphen (String c r) = true ->
  Ascii.eqb "-" c = false /\ no_hyphen r = true.
Proof.
  unfold no_hyphen. cbn [string_forall]. intros [H1 H2]%andb_prop.
  apply negb_true_iff in H1. rewrite Ascii.eqb_sym. auto.
Qed.

Lemma no_hyphen_startsWith (s : string) :
  no_hyphen s = true -> startsWith "-" s = false.
Proof.
  destruct s as [|c r]; [reflexivity|]. intros [H _]%no_hyphen_cons.
  unfold startsWith. now rewrite prefix_cons, H.
Qed.

Lemma no_hyphen_endsWith (s : string) :
  no_hyphen s = true -> endsWith "-" s = false.
Proof.
  induction s as [|c r IH]; [reflexivity|]. intros [H1 H2]%no_hyphen_cons.
  now rewrite endsWith_cons, string_eqb_cons, H1, (IH H2).
Qed.

Lemma no_hyphen_includes (s : string) :
  no_hyphen s = true -> includes "--" s = false.
Proof.
  induction s as [|c r IH]; [reflexivity|]. intros [H1 H2]%no_hyphen_cons.
  now rewrite includes_cons, prefix_cons, H1, (IH H2).
Qed.

(** A piece is the hyphen exactly when it starts, or ends, with one; it is
    never empty and never holds a doubled hyphen. *)
Lemma piece_ok_facts (char : string) :
  piece_ok char = true ->
  char <> ""
  /\ startsWith "-" char = String.eqb char "-"
  /\ endsWith "-" char = String.eqb char "-"
  /\ includes "--" char = false.
Proof.
  unfold piece_ok. destruct (String.eqb_spec char "-") as [->|Hne]; cbn [orb].
  - intros _. repeat split; discriminate.
  - intros [H1 H2]%andb_prop. apply negb_true_iff, String.eqb_neq in H1.
    auto using no_hyphen_startsWith, no_hyphen_endsWith, no_hyphen_includes.
Qed.

(** ** The generator: pruning *)

Lemma selected_piece_ok (part : PatternPart) (current : nat) :
  part_ok part ->
  let l := possibilities part in
  In (nth (current mod length l) l "undefined") l
  /\ piece_ok (nth (current mod length l) l "undefined") = true.
Proof.
  intros (Hne & _ & _ & Hpieces) l. fold l in Hne, Hpieces.
  assert (In (nth (current mod length l) l "undefined") l) as Hin.
  { apply nth_In, Nat.mod_upper_bound. destruct l; [congruence | discriminate]. }
  split; [exact Hin|].
  rewrite Forall_forall in Hpieces. apply Hpieces, list_elem_of_In, Hin.
Qed.

(** The loop keeps the candidate free of a leading hyphen and of a doubled
    hyphen, with [lastChar] the hyphen whenever the text ends with one. *)
Lemma decode_loop_sound (patternParts : list PatternPart) :
  forall (current : nat) (result lastChar out : string),
    Forall part_ok patternParts ->
    startsWith "-" result = false ->
    includes "--" result = false ->
    (endsWith "-" result = true -> lastChar = "-") ->
    decode_loop patternParts current result lastChar = Some out ->
    startsWith "-" out = false /\ includes "--" out = false.
Proof.
  induction patternParts as [|part rest IH];
    intros current result lastChar out Hparts Hstart Hdouble Hlast Hrun.
  - injection Hrun as <-. auto.
  - apply Forall_cons in Hparts as [Hpart Hrest].
    destruct (selected_piece_ok part current Hpart) as [_ Hpiece].
    cbn [decode_loop] in Hrun. cbv zeta in Hpiece.
    set (char := nth _ _ _) in *.
    destruct (piece_ok_facts char Hpiece) as (Hne & Hs & He & Hi).
    rewrite length_zero in Hrun.
    destruct (String.eqb_spec result "") as [->|Hres].
    + cbn [andb] in Hrun.
      destruct (String.eqb char "-") eqn:Ehyp; [discriminate|].
      cbn [orb andb] in Hrun.
      destruct (has_digit char); [discriminate|].
      apply IH in Hrun; auto; cbn [String.append]; congruence.
    + cbn [andb] in Hrun.
      destruct (String.eqb char "-" && String.eqb lastChar "-") eqn:Eseam;
        [discriminate|].
      apply IH in Hrun; auto.
      * now rewrite startsWith_app.
      * rewrite includes_hyphens_app, Hdouble, Hi, Hs. cbn [orb].
        destruct (String.eqb char "-"); [|apply andb_false_r].
        destruct (endsWith "-" result); [|reflexivity].
        rewrite (Hlast eq_refl) in Eseam. discriminate.
      * rewrite endsWith_app, He by exact Hne. apply String.eqb_eq.
Qed.

Lemma decode_sound (patternParts : list PatternPart) (i : nat) (c : string) :
  Forall part_ok patternParts ->
  decode patternParts i = Some c -> candidate_ok c.
Proof.
  intros Hparts. unfold decode.
  destruct (decode_loop patternParts i "" "") as [result|] eqn:Hrun;
    [|discriminate].
  destruct (endsWith "-" result || starts_with_digit result) eqn:Hfinal;
    [discriminate|].
  intros [= <-]. apply orb_false_elim in Hfinal as [Hend Hdigit].
  apply decode_loop_sound in Hrun as [Hstart Hdouble]; auto.
  - repeat split; assumption.
  - discriminate.
Qed.

(** C1: for every pattern string [p] and every outcome of the shuffle,
    every candidate that [generateCombinations(parsePattern(p))] yields
    does not start with a hyphen, does not start with a digit, does not
    contain a doubled hyphen and does not end with a hyphen. *)
Theorem generated_candidates_pruned (rand : oracle) (p : string) :
  Forall candidate_ok (generateCombinations rand (parsePattern p)).
Proof.
  apply Forall_forall. intros c Hc. unfold generateCombinations in Hc.
  apply list_elem_of_omap in Hc as (i & _ & Hi).
  eapply decode_sound; [apply parsePattern_ok | exact Hi].
Qed.

(** ** The shuffle *)

Section Shuffle.

Context {A : Type}.
Variable rand : oracle.

Lemma insert_Permutation (l : list A) (j : nat) (x y : A) :
  l !! j = Some y -> y :: <[j := x]> l ≡ₚ x :: l.
Proof.
  revert j. induction l as [|b t IH]; intros [|j] Hj; simpl in *;
    try discriminate.
  - injection Hj as ->. apply Permutation_swap.
  - rewrite Permutation_swap, (IH j Hj). apply Permutation_swap.
Qed.

Lemma swap_Permutation (i j : nat) (array : list A) :
  swap i j array ≡ₚ array.
Proof.
  unfold swap.
  destruct (array !! j) as [aj|] eqn:Hj; [|reflexivity].
  destruct (array !! i) as [ai|] eqn:Hi; [|reflexivity].
  revert i j Hi Hj.
  induction array as [|a t IH]; intros [|i] [|j] Hi Hj; simpl in *;
    try discriminate.
  - injection Hi as ->. injection Hj as ->. reflexivity.
  - injection Hi as ->. apply insert_Permutation, Hj.
  - injection Hj as ->. apply insert_Permutation, Hi.
  - apply Permutation_skip, IH; assumption.
Qed.

Lemma shuffle_loop_Permutation (i : nat) (array : list A) :
  shuffle_loop rand i array ≡ₚ array.
Proof.
  revert array. induction i as [|i IH]; intros array; simpl.
  - reflexivity.
  - rewrite IH. apply swap_Permutation.
Qed.

(** [shuffleArray] returns a permutation of its argument, whatever the
    random draws. *)
Lemma shuffleArray_Permutation (array : list A) :
  shuffleArray rand array ≡ₚ array.
Proof. apply shuffle_loop_Permutation. Qed.

End Shuffle.

(** ** The generator: no repetition *)

Lemma NoDup_omap_inj {A B : Type} (f : A -> option B) (l : list A) :
  NoDup l ->
  (forall x y z, x ∈ l -> y ∈ l -> f x = Some z -> f y = Some z -> x = y) ->
  NoDup (omap f l).
Proof.
  induction 1 as [|x l Hx Hl IH]; intros Hinj; simpl.
  - constructor.
  - assert (NoDup (omap f l)) as Hrest.
    { apply IH. intros a b z Ha Hb. apply Hinj; now right. }
    destruct (f x) as [z|] eqn:Hfx; [|exact Hrest].
    constructor; [|exact Hrest].
    intros (y & Hy & Hfy)%list_elem_of_omap.
    apply Hx. rewrite (Hinj x y z); auto; [left | now right].
Qed.

Lemma length_omap_le {A B : Type} (f : A -> option B) (l : list A) :
  (length (omap f l) <= length l)%nat.
Proof.
  induction l as [|x l IH]; csimpl; [lia|].
  destruct (f x); simpl in *; lia.
Qed.

Lemma totalCombinations_fold (patternParts : list PatternPart) (acc : nat) :
  fold_left (fun acc part => (acc * radix part)%nat) patternParts acc
  = (acc * totalCombinations patternParts)%nat.
Proof.
  unfold totalCombinations. revert acc.
  induction patternParts as [|part rest IH]; intros acc; cbn [fold_left].
  - lia.
  - rewrite (IH (acc * radix part)%nat), (IH (1 * radix part)%nat). lia.
Qed.

Lemma totalCombinations_cons (part : PatternPart) (rest : list PatternPart) :
  totalCombinations (part :: rest)
  = (radix part * totalCombinations rest)%nat.
Proof.
  unfold totalCombinations at 1. cbn [fold_left].
  rewrite totalCombinations_fold. lia.
Qed.

(** What the loop returns is the text so far followed by the assembled
    pieces: pruning drops candidates and never alters one. *)
Lemma decode_loop_assemble (patternParts : list PatternPart) :
  forall (current : nat) (result lastChar out : string),
    decode_loop patternParts current result lastChar = Some out ->
    out = result +:+ assemble patternParts current.
Proof.
  induction patternParts as [|part rest IH];
    intros current result lastChar out Hrun; cbn [decode_loop assemble] in *.
  - injection Hrun as <-. clear. induction result as [|c r IHr];
      cbn [String.append]; [reflexivity | now rewrite <- IHr].
  - cbv zeta in Hrun.
    destruct (_ && _) in Hrun; [discriminate|].
    destruct (_ && _) in Hrun; [discriminate|].
    apply IH in Hrun. now rewrite Hrun, append_assoc.
Qed.

Lemma decode_assemble (patternParts : list PatternPart) (i : nat) (c : string) :
  decode patternParts i = Some c -> c = assemble patternParts i.
Proof.
  unfold decode.
  destruct (decode_loop patternParts i "" "") as [result|] eqn:Hrun;
    [|discriminate].
  destruct (_ || _); [discriminate|]. intros [= <-].
  now apply decode_loop_assemble in Hrun.
Qed.

Lemma append_inj_length (a1 a2 b1 b2 : string) :
  String.length a1 = String.length a2 ->
  a1 +:+ b1 = a2 +:+ b2 -> a1 = a2 /\ b1 = b2.
Proof.
  revert a2. induction a1 as [|x a1 IH]; intros [|y a2] Hlen Heq;
    cbn [String.append String.length] in *; try discriminate.
  - auto.
  - injection Heq as -> Heq. injection Hlen as Hlen.
    destruct (IH a2 Hlen Heq) as [-> ->]. auto.
Qed.

Lemma radix_length (part : PatternPart) :
  part_ok part -> radix part = length (possibilities part)
                  /\ (0 < length (possibilities part))%nat.
Proof.
  intros (Hne & _). unfold radix.
  destruct (possibilities part); [congruence | simpl; lia].
Qed.

(** The mixed-radix decoding is injective below [totalCombinations]. *)
Lemma assemble_inj (patternParts : list PatternPart) :
  forall i j : nat,
    Forall part_ok patternParts ->
    (i < totalCombinations patternParts)%nat ->
    (j < totalCombinations patternParts)%nat ->
    assemble patternParts i = assemble patternParts j -> i = j.
Proof.
  induction patternParts as [|part rest IH]; intros i j Hparts Hi Hj Heq.
  - unfold totalCombinations in *. simpl in *. lia.
  - apply Forall_cons in Hparts as [Hpart Hrest].
    rewrite totalCombinations_cons in Hi, Hj.
    destruct (radix_length part Hpart) as [Hradix Hpos].
    rewrite Hradix in Hi, Hj.
    destruct (selected_piece_ok part i Hpart) as [Hini _].
    destruct (selected_piece_ok part j Hpart) as [Hinj _].
    destruct Hpart as (_ & Hnodup & Hlen & _).
    cbn [assemble] in Heq. cbv zeta in Hini, Hinj.
    set (l := possibilities part) in *. set (n := length l) in *.
    rewrite Forall_forall in Hlen.
    apply append_inj_length in Heq as [Hpiece Htail].
    2: { rewrite (Hlen _ (proj2 (list_elem_of_In _ _) Hini)).
         now rewrite (Hlen _ (proj2 (list_elem_of_In _ _) Hinj)). }
    assert (i mod n = j mod n)%nat as Hmod.
    { apply NoDup_ListNoDup in Hnodup.
      apply (proj1 (NoDup_nth l "undefined") Hnodup);
        try (apply Nat.mod_upper_bound; lia). exact Hpiece. }
    assert (i / n = j / n)%nat as Hdiv.
    { apply IH; auto; apply Nat.Div0.div_lt_upper_bound; lia. }
    rewrite (Nat.div_mod_eq i n), (Nat.div_mod_eq j n). now rewrite Hmod, Hdiv.
Qed.

Lemma decode_inj (patternParts : list PatternPart) (i j : nat) (c : string) :
  Forall part_ok patternParts ->
  (i < totalCombinations patternParts)%nat ->
  (j < totalCombinations patternParts)%nat ->
  decode patternParts i = Some c -> decode patternParts j = Some c -> i = j.
Proof.
  intros Hparts Hi Hj Hdi Hdj.
  apply decode_assemble in Hdi, Hdj.
  eapply assemble_inj; eauto. congruence.
Qed.

Lemma alphabet_product_fold (patternParts : list PatternPart) (acc : Z) :
  fold_left (fun acc part => acc * Z.of_nat (length (possibilities part)))
            patternParts acc
  = acc * alphabet_product patternParts.
Proof.
  unfold alphabet_product. revert acc.
  induction patternParts as [|part rest IH]; intros acc; cbn [fold_left].
  - lia.
  - rewrite (IH (acc * _)), (IH (1 * _)). lia.
Qed.

Lemma alphabet_product_cons (part : PatternPart) (rest : list PatternPart) :
  alphabet_product (part :: rest)
  = Z.of_nat (length (possibilities part)) * alphabet_product rest.
Proof.
  unfold alphabet_product at 1. cbn [fold_left].
  rewrite alphabet_product_fold. lia.
Qed.

Lemma alphabet_product_pos (patternParts : list PatternPart) :
  Forall part_ok patternParts -> 1 <= alphabet_product patternParts.
Proof.
  induction 1 as [|part rest Hpart _ IH].
  - unfold alphabet_product. simpl. lia.
  - rewrite alphabet_product_cons.
    destruct (radix_length part Hpart) as [_ Hpos]. nia.
Qed.

(** The count is the number of indices the generator shuffles. *)
Lemma alphabet_product_totalCombinations (patternParts : list PatternPart) :
  Forall part_ok patternParts ->
  alphabet_product patternParts = Z.of_nat (totalCombinations patternParts).
Proof.
  induction 1 as [|part rest Hpart _ IH].
  - reflexivity.
  - rewrite alphabet_product_cons, totalCombinations_cons, IH.
    destruct (radix_length part Hpart) as [-> _]. lia.
Qed.

(** C2: for every parsed pattern and every outcome of the random draws,
    [generateCombinations] yields no string twice and at most
    [totalCombinations] strings, the product of the alphabet sizes of the
    segments; [shuffleArray] returns a permutation of
    its argument, so the shuffled index list holds every index of
    [0, totalCombinations) once, and the strings yielded are the decodings
    of those indices that pass the pruning, in that order (a pruned index is
    skipped, nothing stands in for it). *)
Theorem generated_candidates_distinct (rand : oracle) (p : string) :
  let patternParts := parsePattern p in
  let indices := shuffleArray rand (seq 0 (totalCombinations patternParts)) in
  NoDup (generateCombinations rand patternParts)
  /\ (length (generateCombinations rand patternParts)
      <= totalCombinations patternParts)%nat
  /\ Z.of_nat (totalCombinations patternParts)
     = alphabet_product patternParts
  /\ (forall (A : Type) (array : list A), shuffleArray rand array ≡ₚ array)
  /\ indices ≡ₚ seq 0 (totalCombinations patternParts)
  /\ NoDup indices
  /\ generateCombinations rand patternParts
     = omap (decode patternParts) indices.
Proof.
  intros patternParts indices.
  assert (indices ≡ₚ seq 0 (totalCombinations patternParts)) as Hperm
    by apply shuffleArray_Permutation.
  assert (NoDup indices) as Hnodup by (rewrite Hperm; apply NoDup_seq).
  assert (forall x, x ∈ indices -> (x < totalCombinations patternParts)%nat)
    as Hbound.
  { intros x Hx. rewrite Hperm in Hx. apply elem_of_seq in Hx. lia. }
  assert (generateCombinations rand patternParts
          = omap (decode patternParts) indices) as Hgen by reflexivity.
  split; [|split; [|split; [|split; [|split; [|split]]]]]; auto.
  - rewrite Hgen. apply NoDup_omap_inj; [exact Hnodup|].
    intros x y z Hx Hy.
    apply decode_inj; [apply parsePattern_ok | |]; auto.
  - rewrite Hgen. etransitivity; [apply length_omap_le|].
    now rewrite Hperm, length_seq.
  - symmetry. apply alphabet_product_totalCombinations, parsePattern_ok.
  - intros A array. apply shuffleArray_Permutation.
Qed.

(** ** The generator: a first literal with a digit *)

Lemma omap_none {A B : Type} (f : A -> option B) (l : list A) :
  (forall x, f x = None) -> omap f l = [].
Proof.
  intros Hf. induction l as [|x l IH]; csimpl; [reflexivity|].
  now rewrite Hf.
Qed.

(** The first part is read with an empty [result]: a single possibility
    that holds a digit, wherever the digit stands, ends the decoding. *)
Lemma decode_first_has_digit (part : PatternPart) (rest : list PatternPart)
    (text : string) (i : nat) :
  possibilities part = [text] -> has_digit text = true ->
  decode (part :: rest) i = None.
Proof.
  intros Hposs Hdigit. unfold decode. cbn [decode_loop]. rewrite Hposs.
  cbn [length]. rewrite Nat.mod_1_r. cbn [nth String.length Nat.eqb andb].
  now rewrite Hdigit, orb_true_r.
Qed.

Lemma starts_with_digit_has_digit (text : string) :
  starts_with_digit text = true -> has_digit text = true.
Proof.
  destruct text as [|c r]; [discriminate|]. unfold has_digit. simpl.
  now intros ->.
Qed.

(** A single possibility other than the hyphen, read with a non-empty
    [result], is appended whatever its units are. *)
Lemma decode_loop_later_literal (part : PatternPart)
    (rest : list PatternPart) (text result lastChar : string)
    (current : nat) :
  possibilities part = [text] -> text <> "-" -> result <> "" ->
  decode_loop (part :: rest) current result lastChar
  = decode_loop rest current (result +:+ text) text.
Proof.
  intros Hposs Htext Hresult. cbn [decode_loop]. rewrite Hposs.
  cbn [length]. rewrite Nat.mod_1_r, Nat.div_1_r. cbn [nth].
  apply String.eqb_neq in Htext. rewrite Htext, length_zero.
  apply String.eqb_neq in Hresult. now rewrite Hresult.
Qed.

(** C9, as amended: the pruning does reject a first literal segment that
    begins with a digit: for every parsed pattern whose first segment is a
    literal whose text begins with a digit, [generateCombinations] yields
    nothing. A literal is taken as one unit, whatever its units are, only
    behind the first segment: read with a non-empty [result], its text is
    appended without any test of its characters. *)
Theorem first_literal_leading_digit_pruned :
  (forall (rand : oracle) (p : string) (part : PatternPart)
          (rest : list PatternPart) (text : string),
      parsePattern p = part :: rest ->
      type part = "literal" ->
      possibilities part = [text] ->
      starts_with_digit text = true ->
      generateCombinations rand (parsePattern p) = [])
  /\ (forall (part : PatternPart) (rest : list PatternPart)
             (text result lastChar : string) (current : nat),
      type part = "literal" ->
      possibilities part = [text] -> text <> "-" -> result <> "" ->
      decode_loop (part :: rest) current result lastChar
      = decode_loop rest current (result +:+ text) text).
Proof.
  split.
  - intros rand p part rest text Hp _ Hposs Hdigit.
    unfold generateCombinations. rewrite Hp. apply omap_none. intros i.
    eapply decode_first_has_digit; eauto using starts_with_digit_has_digit.
  - intros part rest text result lastChar current _.
    apply decode_loop_later_literal.
Qed.

Lemma first_literal_leading_digit_pruned_witness :
  parsePattern "1a"
  = [ {| type := "literal"; value := Some "1a"; possibilities := ["1a"];
         isWildcard := None |} ]
  /\ starts_with_digit "1a" = true
  /\ generateCombinations (fun i => i) (parsePattern "1a") = []
  /\ decode_loop (parsePattern "1a") 0 "x" "x" = Some "x1a".
Proof.
  split; [reflexivity|]. split; [reflexivity|]. split.
  - apply (proj1 first_literal_leading_digit_pruned (fun i => i) "1a"
             {| type := "literal"; value := Some "1a";
                possibilities := ["1a"]; isWildcard := None |} [] "1a");
      reflexivity.
  - change (parsePattern "1a")
      with [ {| type := "literal"; value := Some "1a";
                possibilities := ["1a"]; isWildcard := None |} ].
    rewrite (proj2 first_literal_leading_digit_pruned _ [] "1a" "x" "x" 0%nat);
      [reflexivity | reflexivity | reflexivity | discriminate | discriminate].
Defined.

(** C9 as stated fails: the first segment of ["1a"] is the literal ["1a"],
    which begins with a digit; the candidate it decodes to is ["1a"], and
    [generateCombinations] yields nothing. *)
Lemma first_literal_leading_digit_counterexample :
  map type (parsePattern "1a") = ["literal"]
  /\ map possibilities (parsePattern "1a") = [["1a"]]
  /\ starts_with_digit "1a" = true
  /\ assemble (parsePattern "1a") 0 = "1a"
  /\ totalCombinations (parsePattern "1a") = 1%nat
  /\ generateCombinations (fun i => i) (parsePattern "1a") = [].
Proof. repeat split; reflexivity. Qed.

(** C10: for every pattern whose first parsed segment is a literal that
    holds a digit at any position, [generateCombinations] yields nothing,
    whatever the shuffle draws: the first-position test looks for a digit
    in the whole literal. ["a1cc"] is such a pattern: [validatePattern]
    accepts it, [analyzePattern] reports 400 combinations, and nothing is
    generated. *)
Theorem first_literal_any_digit_generates_nothing :
  (forall (rand : oracle) (p : string) (part : PatternPart)
          (rest : list PatternPart) (text : string),
      parsePattern p = part :: rest ->
      type part = "literal" ->
      possibilities part = [text] ->
      has_digit text = true ->
      generateCombinations rand (parsePattern p) = [])
  /\ validatePattern "a1cc" = None
  /\ (exists a : PatternAnalysis,
        analyzePattern {| entry_pattern := "a1cc";
                          entry_extensions := [".com"];
                          entry_comment := None |} = inr a
        /\ combinations a = Finite 400)
  /\ (forall rand : oracle,
        generateCombinations rand (parsePattern "a1cc") = []).
Proof.
  assert (forall (rand : oracle) (p : string) (part : PatternPart)
                 (rest : list PatternPart) (text : string),
             parsePattern p = part :: rest ->
             type part = "literal" ->
             possibilities part = [text] ->
             has_digit text = true ->
             generateCombinations rand (parsePattern p) = []) as Hgen.
  { intros rand p part rest text Hp _ Hposs Hdigit.
    unfold generateCombinations. rewrite Hp. apply omap_none. intros i.
    eapply decode_first_has_digit; eauto. }
  split; [exact Hgen|]. split; [reflexivity|]. split.
  - eexists. split; [vm_compute; reflexivity|]. vm_compute. reflexivity.
  - intros rand.
    eapply (Hgen rand "a1cc"); [reflexivity | | |]; reflexivity.
Qed.

Lemma first_literal_any_digit_generates_nothing_witness :
  map type (parsePattern "a1cc") = ["literal"; "c"; "c"]
  /\ has_digit "a1" = true
  /\ starts_with_digit "a1" = false
  /\ generateCombinations (fun i => (i * 7 + 3)%nat) (parsePattern "a1cc") = [].
Proof.
  split; [reflexivity|]. split; [reflexivity|]. split; [reflexivity|].
  eapply (proj1 first_literal_any_digit_generates_nothing
            (fun i => (i * 7 + 3)%nat) "a1cc");
    [reflexivity | | |]; reflexivity.
Defined.

(** ** [validateExtensions] *)

Lemma check_extension_shaped (ext : string) :
  startsWith "." ext = true -> (2 <= String.length ext)%nat ->
  check_extension ext
  = if ext_regex ext then None
    else Some ("Invalid extension format: " +:+ ext).
Proof.
  intros Hdot Hlen. unfold check_extension. rewrite Hdot. cbn [negb].
  destruct (Nat.ltb_spec (String.length ext) 2) as [Hlt|_]; [lia|].
  now destruct (ext_regex ext).
Qed.

Lemma check_extensions_find (extensions : list string) :
  Forall (fun ext => startsWith "." ext = true
                     /\ (2 <= String.length ext)%nat) extensions ->
  check_extensions extensions
  = match List.find (fun ext => negb (ext_regex ext)) extensions with
    | Some ext => Some ("Invalid extension format: " +:+ ext)
    | None => None
    end.
Proof.
  induction 1 as [|ext rest [Hdot Hlen] _ IH]; [reflexivity|].
  cbn [check_extensions List.find].
  rewrite (check_extension_shaped ext Hdot Hlen).
  destruct (ext_regex ext); [exact IH | reflexivity].
Qed.

Lemma find_none_Forall (extensions : list string) :
  List.find (fun ext => negb (ext_regex ext)) extensions = None
  <-> Forall (fun ext => ext_regex ext = true) extensions.
Proof.
  induction extensions as [|ext rest IH]; cbn [List.find].
  - split; [constructor | reflexivity].
  - destruct (ext_regex ext) eqn:E; cbn [negb].
    + rewrite IH. split; [now constructor | now inversion 1].
    + split; [discriminate | inversion 1; congruence].
Qed.

(** C8, as amended: for every extension list whose elements all start with
    a dot and have length at least 2, [validateExtensions] returns the
    invalid-format error for the first element that does not match the
    regular expression of the source, [^[.a-z0-9]+$] (as [".COM"]), and it
    returns [null] exactly when the list is not empty and every element
    matches that expression; an element with further dots (as [".co.uk"])
    matches it and is accepted. *)
Theorem validateExtensions_format (extensions : list string) :
  Forall (fun ext => startsWith "." ext = true
                     /\ (2 <= String.length ext)%nat) extensions ->
  validateExtensions extensions
  = match extensions with
    | [] => Some "At least one extension is required"
    | _ =>
      match List.find (fun ext => negb (ext_regex ext)) extensions with
      | Some ext => Some ("Invalid extension format: " +:+ ext)
      | None => None
      end
    end
  /\ (validateExtensions extensions = None
      <-> extensions <> []
          /\ Forall (fun ext => ext_regex ext = true) extensions).
Proof.
  intros Hshape.
  assert (validateExtensions extensions
          = match extensions with
            | [] => Some "At least one extension is required"
            | _ =>
              match List.find (fun ext => negb (ext_regex ext)) extensions with
              | Some ext => Some ("Invalid extension format: " +:+ ext)
              | None => None
              end
            end) as Heq.
  { destruct extensions as [|ext rest]; [reflexivity|].
    unfold validateExtensions. now rewrite check_extensions_find. }
  split; [exact Heq|]. rewrite Heq.
  destruct extensions as [|ext rest].
  - split; [discriminate | intros [H _]; congruence].
  - rewrite <- find_none_Forall.
    destruct (List.find _ (ext :: rest)); split; try discriminate; auto.
    intros [_ H]. discriminate.
Qed.

Lemma validateExtensions_format_witness :
  validateExtensions [".com"; ".co.uk"; ".COM"; ".net"]
  = Some "Invalid extension format: .COM"
  /\ validateExtensions [".com"; ".co.uk"] = None.
Proof.
  split.
  - apply (proj1 (validateExtensions_format
                    [".com"; ".co.uk"; ".COM"; ".net"]
                    ltac:(repeat constructor))).
  - apply (proj2 (validateExtensions_format [".com"; ".co.uk"]
                    ltac:(repeat constructor))).
    split; [discriminate | repeat constructor].
Defined.

(** C8 as stated fails: [".co.uk"] starts with a dot, has length 6 and does
    not match [^\.[a-z0-9]+$], and [validateExtensions] returns [null]. *)
Lemma validateExtensions_format_counterexample :
  startsWith "." ".co.uk" = true
  /\ (2 <= String.length ".co.uk")%nat
  /\ spec_ext_regex ".co.uk" = false
  /\ validateExtensions [".co.uk"] = None.
Proof. repeat split; try reflexivity. simpl. lia. Qed.

(** ** [analyzePattern] *)

Lemma round_double_exact (z : Z) : z < 2 ^ 53 -> round_double z = Finite z.
Proof.
  intros H. unfold round_double.
  destruct (Z.ltb_spec z (2 ^ 53)); [reflexivity | lia].
Qed.

(** Below 2^53 the running product of the doubles is the exact product. *)
Lemma fold_number_mul_exact (patternParts : list PatternPart) :
  forall acc : Z,
    Forall part_ok patternParts -> 0 <= acc ->
    acc * alphabet_product patternParts < 2 ^ 53 ->
    fold_left (fun acc part => number_mul acc (length (possibilities part)))
              patternParts (Finite acc)
    = Finite (acc * alphabet_product patternParts).
Proof.
  induction patternParts as [|part rest IH]; intros acc Hparts Hacc Hlt.
  - cbn [fold_left]. f_equal. unfold alphabet_product. simpl. lia.
  - apply Forall_cons in Hparts as [Hpart Hrest].
    rewrite alphabet_product_cons in *.
    pose proof (alphabet_product_pos rest Hrest) as Hpos.
    destruct (radix_length part Hpart) as [_ Hlen].
    cbn [fold_left number_mul].
    rewrite round_double_exact by nia.
    rewrite IH; [f_equal; lia | exact Hrest | nia | nia].
Qed.

(** ** Doubles: how far a product is from the exact one *)

(** One rounding: the nearest double is off by half an ulp at most, that is
    by the 2^53-th part of the value. *)
Lemma round_double_error (z : Z) :
  0 <= z -> double_approx 1 z (round_double z).
Proof.
  intros Hz. unfold round_double.
  destruct (Z.ltb_spec z (2 ^ 53)) as [Hlt|Hge].
  { cbn [double_approx]. change (Z.of_nat 1) with 1. rewrite !Z.pow_1_r. lia. }
  cbv zeta.
  set (e := Z.log2 z - 52).
  assert (53 <= Z.log2 z) as Hlog by (apply Z.log2_le_pow2; lia).
  assert (1 <= e) as He by (unfold e; lia).
  pose proof (Z.log2_spec z ltac:(lia)) as [Hlow _].
  assert (Z.log2 z = e + 52) as Hle by (unfold e; lia).
  rewrite Hle in Hlow.
  assert (2 ^ e = 2 * 2 ^ (e - 1)) as HE.
  { replace e with (Z.succ (e - 1)) at 1 by lia. apply Z.pow_succ_r. lia. }
  assert (2 ^ (e + 52) = 2 ^ (e - 1) * 2 ^ 53) as HD.
  { rewrite <- Z.pow_add_r by lia. f_equal. lia. }
  assert (0 < 2 ^ (e - 1)) as Hhalf by (apply Z.pow_pos_nonneg; lia).
  pose proof (Z.div_mod z (2 ^ e) ltac:(lia)) as Hdm.
  pose proof (Z.mod_pos_bound z (2 ^ e) ltac:(lia)) as Hr.
  set (q := z / 2 ^ e) in *. set (r := z mod 2 ^ e) in *.
  set (half := 2 ^ (e - 1)) in *.
  set (m := if r <? half then q
            else if half <? r then q + 1 else if Z.even q then q else q + 1).
  assert (- half <= m * 2 ^ e - z <= half) as Hm.
  { unfold m. destruct (Z.ltb_spec r half); [lia|].
    destruct (Z.ltb_spec half r); [lia|].
    destruct (Z.even q); lia. }
  change (Z.of_nat 1) with 1.
  destruct (Z.leb_spec (2 ^ 1024) (m * 2 ^ e)) as [Hinf|Hfin];
    cbn [double_approx]; rewrite !Z.pow_1_r.
  - nia.
  - repeat split; nia.
Qed.

(** Two steps of a chain of products of non-negative integers. *)
Lemma approx_chain (x y u v c d : Z) :
  0 <= c -> 0 <= d -> x <= c * y -> y * d <= v -> u = c * v ->
  x * d <= u.
Proof.
  intros Hc Hd Hxy Hyv ->.
  transitivity (c * y * d).
  - apply Z.mul_le_mono_nonneg_r; assumption.
  - rewrite <- Z.mul_assoc. apply Z.mul_le_mono_nonneg_l; assumption.
Qed.

Lemma approx_chain_low (x y u v c d : Z) :
  0 <= c -> 0 <= d -> c * y <= x -> v <= y * d -> u = c * v ->
  u <= x * d.
Proof.
  intros Hc Hd Hxy Hyv ->.
  transitivity (c * y * d).
  - rewrite <- Z.mul_assoc. apply Z.mul_le_mono_nonneg_l; assumption.
  - apply Z.mul_le_mono_nonneg_r; assumption.
Qed.

(** One more multiplication. *)
Lemma double_approx_step (k : nat) (exact : Z) (acc : number) (n : nat) :
  0 <= exact -> (1 <= n)%nat ->
  double_approx k exact acc ->
  double_approx (S k) (exact * Z.of_nat n) (number_mul acc n).
Proof.
  intros Hexact Hn Hacc.
  assert (0 < (2 ^ 53) ^ Z.of_nat k) as HD by (apply Z.pow_pos_nonneg; lia).
  assert (0 < (2 ^ 53 + 1) ^ Z.of_nat k) as HU
    by (apply Z.pow_pos_nonneg; lia).
  assert (0 < (2 ^ 53 - 1) ^ Z.of_nat k) as HL
    by (apply Z.pow_pos_nonneg; lia).
  assert (0 < 2 ^ 53) as HDpos by lia.
  assert (1 <= 2 ^ 53 - 1) as HD1 by lia.
  assert (1 <= Z.of_nat n) as HN by lia.
  destruct acc as [a| |]; cbn [number_mul double_approx] in *.
  - destruct Hacc as (Ha & Hlow & Hup).
    assert (0 <= a * Z.of_nat n) as Han by (apply Z.mul_nonneg_nonneg; lia).
    pose proof (round_double_error (a * Z.of_nat n) Han) as Hround.
    change (Z.of_nat 1) with 1 in Hround.
    destruct (round_double (a * Z.of_nat n)) as [w| |];
      cbn [double_approx] in *; rewrite ?Z.pow_1_r in Hround;
      rewrite ?(Nat2Z.inj_succ k), ?Z.pow_succ_r by lia.
    + destruct Hround as (Hw & Hwl & Hwu). split; [exact Hw|].
      revert Hlow Hup Hwl Hwu HD HU HL HDpos HD1 HN Ha Hexact.
      generalize (2 ^ 53) ((2 ^ 53) ^ Z.of_nat k)
        ((2 ^ 53 + 1) ^ Z.of_nat k) ((2 ^ 53 - 1) ^ Z.of_nat k) (Z.of_nat n).
      intros D Dk Uk Lk N Hlow Hup Hwl Hwu HD HU HL HDpos HD1 HN Ha Hexact.
      split.
      * rewrite (Z.mul_assoc w D Dk).
        apply (approx_chain_low (w * D) a _ (exact * Lk) (N * (D - 1)) Dk);
          [nia | lia | lia | exact Hlow | ring].
      * rewrite (Z.mul_assoc w D Dk).
        apply (approx_chain (w * D) a _ (exact * Uk) (N * (D + 1)) Dk);
          [nia | lia | lia | exact Hup | ring].
    + revert Hup Hround HD HU HDpos HN Ha Hexact.
      generalize (2 ^ 1024) (2 ^ 53) ((2 ^ 53) ^ Z.of_nat k)
        ((2 ^ 53 + 1) ^ Z.of_nat k) (Z.of_nat n).
      intros I D Dk Uk N Hup Hround HD HU HDpos HN Ha Hexact.
      rewrite (Z.mul_assoc I D Dk).
      apply (approx_chain (I * D) a _ (exact * Uk) (N * (D + 1)) Dk);
        [nia | lia | lia | exact Hup | ring].
    + contradiction.
  - destruct n as [|n]; [lia|]. cbn [double_approx].
    rewrite (Nat2Z.inj_succ k), !Z.pow_succ_r by lia.
    revert Hacc HD HU HDpos HN Hexact.
    generalize (2 ^ 1024) (2 ^ 53) ((2 ^ 53) ^ Z.of_nat k)
      ((2 ^ 53 + 1) ^ Z.of_nat k) (Z.of_nat (S n)).
    intros I D Dk Uk N Hacc HD HU HDpos HN Hexact.
    transitivity (D * (exact * Uk)).
    { replace (I * (D * Dk)) with (D * (I * Dk)) by ring.
      apply Z.mul_le_mono_nonneg_l; [lia | exact Hacc]. }
    assert (0 <= exact * Uk) by (apply Z.mul_nonneg_nonneg; lia).
    replace (exact * N * ((D + 1) * Uk)) with ((N * (D + 1)) * (exact * Uk))
      by ring.
    apply Z.mul_le_mono_nonneg_r; [assumption | nia].
  - contradiction.
Qed.

(** The running product over the parts. *)
Lemma fold_number_mul_approx (patternParts : list PatternPart) :
  forall (k : nat) (exact : Z) (acc : number),
    Forall part_ok patternParts -> 0 <= exact ->
    double_approx k exact acc ->
    double_approx
      (k + length patternParts) (exact * alphabet_product patternParts)
      (fold_left (fun acc part => number_mul acc (length (possibilities part)))
                 patternParts acc).
Proof.
  induction patternParts as [|part rest IH]; intros k exact acc Hparts Hex Hacc.
  - cbn [fold_left length]. rewrite Nat.add_0_r.
    unfold alphabet_product. cbn [fold_left]. now rewrite Z.mul_1_r.
  - apply Forall_cons in Hparts as [Hpart Hrest].
    destruct (radix_length part Hpart) as [_ Hlen].
    cbn [fold_left length]. rewrite alphabet_product_cons.
    replace (k + S (length rest))%nat with (S k + length rest)%nat by lia.
    rewrite Z.mul_assoc. apply IH; [exact Hrest | nia |].
    apply double_approx_step; [exact Hex | lia | exact Hacc].
Qed.

(** C3, as amended: for every pattern that [validatePattern] accepts and
    every extension list that [validateExtensions] accepts, [analyzePattern]
    returns an analysis of the parsed parts, with [combinations] the product
    of the alphabet lengths and [totalDomains] that product times the number
    of extensions, both multiplied out from left to right on doubles. The
    two are the exact integers whenever the exact total is below 2^53. In
    general every multiplication rounds to the nearest double: for [k]
    segments a finite [combinations] lies between the exact product times
    (1 - 2^-53)^k and times (1 + 2^-53)^k, [combinations] is [Infinity] only
    when the exact product times (1 + 2^-53)^k is 2^1024 or more, and it is
    never [NaN]; the same holds of [totalDomains] with the exact total and
    [k + 1] multiplications. *)
Theorem analyzePattern_counts (entry : PatternEntry) :
  validatePattern (entry_pattern entry) = None ->
  validateExtensions (entry_extensions entry) = None ->
  exists a : PatternAnalysis,
    analyzePattern entry = inr a
    /\ parts a = parsePattern (entry_pattern entry)
    /\ extensions a = entry_extensions entry
    /\ combinations a
       = fold_left (fun acc part =>
                      number_mul acc (length (possibilities part)))
                   (parts a) (Finite 1)
    /\ totalDomains a = number_mul (combinations a) (length (extensions a))
    /\ (alphabet_product (parts a) * Z.of_nat (length (extensions a)) < 2 ^ 53 ->
        combinations a = Finite (alphabet_product (parts a))
        /\ totalDomains a
           = Finite (alphabet_product (parts a)
                     * Z.of_nat (length (extensions a))))
    /\ double_approx (length (parts a)) (alphabet_product (parts a))
                     (combinations a)
    /\ double_approx (S (length (parts a)))
                     (alphabet_product (parts a)
                      * Z.of_nat (length (extensions a)))
                     (totalDomains a).
Proof.
  intros Hpattern Hexts. unfold analyzePattern. rewrite Hpattern, Hexts.
  eexists. split; [reflexivity|]. cbn [parts extensions combinations totalDomains].
  repeat (split; [reflexivity|]).
  pose proof (parsePattern_ok (entry_pattern entry)) as Hok.
  pose proof (alphabet_product_pos _ Hok) as Hpos.
  assert (1 <= length (entry_extensions entry))%nat as Hn.
  { destruct (entry_extensions entry); [discriminate | simpl; lia]. }
  assert (double_approx (length (parsePattern (entry_pattern entry)))
            (alphabet_product (parsePattern (entry_pattern entry)))
            (fold_left (fun acc part =>
                          number_mul acc (length (possibilities part)))
                       (parsePattern (entry_pattern entry)) (Finite 1)))
    as Happrox.
  { pose proof (fold_number_mul_approx _ 0 1 (Finite 1) Hok) as H.
    rewrite Z.mul_1_l in H. apply H; [lia|].
    cbn [double_approx]. change (Z.of_nat 0) with 0. rewrite !Z.pow_0_r. lia. }
  split; [|split; [exact Happrox|]].
  - intros Hlt.
    rewrite fold_number_mul_exact by (auto; nia).
    rewrite Z.mul_1_l. split; [reflexivity|].
    cbn [number_mul]. now rewrite round_double_exact.
  - apply double_approx_step; [lia | exact Hn | exact Happrox].
Qed.

Lemma analyzePattern_counts_witness :
  exists a : PatternAnalysis,
    analyzePattern {| entry_pattern := "ll";
                      entry_extensions := [".com"; ".net"; ".org"];
                      entry_comment := None |} = inr a
    /\ combinations a = Finite 676
    /\ totalDomains a = Finite 2028.
Proof.
  destruct (analyzePattern_counts
              {| entry_pattern := "ll";
                 entry_extensions := [".com"; ".net"; ".org"];
                 entry_comment := None |} eq_refl eq_refl)
    as (a & Ha & Hparts & Hexts & _ & _ & Hexact & _).
  exists a. split; [exact Ha|].
  rewrite Hparts, Hexts in Hexact.
  apply Hexact. vm_compute. reflexivity.
Defined.

(** C3 as stated fails: the pattern of twelve wildcards passes both
    validators, the product of its alphabet lengths is 37^12 =
    6582952005840035281, and [analyzePattern] returns
    6582952005840035840 for [combinations] and for [totalDomains]. *)
Lemma analyzePattern_counts_counterexample :
  validatePattern "____________" = None
  /\ validateExtensions [".com"] = None
  /\ alphabet_product (parsePattern "____________") = 6582952005840035281
  /\ exists a : PatternAnalysis,
       analyzePattern {| entry_pattern := "____________";
                         entry_extensions := [".com"];
                         entry_comment := None |} = inr a
       /\ combinations a = Finite 6582952005840035840
       /\ totalDomains a = Finite 6582952005840035840.
Proof.
  split; [reflexivity|]. split; [reflexivity|].
  split; [vm_compute; reflexivity|].
  eexists. split; [vm_compute; reflexivity|].
  split; vm_compute; reflexivity.
Qed.

(** ** Decimal numerals *)

Lemma pretty_N_char_digit (d : N) :
  (d < 10)%N ->
  is_digit (pretty_N_char d) = true /\ digit_value (pretty_N_char d) = d.
Proof.
  intros H.
  assert (d = 0 \/ d = 1 \/ d = 2 \/ d = 3 \/ d = 4 \/ d = 5 \/ d = 6
          \/ d = 7 \/ d = 8 \/ d = 9)%N as Hd by lia.
  repeat (destruct Hd as [->|Hd]; [split; reflexivity|]).
  subst d. split; reflexivity.
Qed.

Lemma pretty_N_char_nonzero (d : N) :
  (0 < d < 10)%N -> Ascii.eqb (pretty_N_char d) "0" = false.
Proof.
  intros H.
  assert (d = 1 \/ d = 2 \/ d = 3 \/ d = 4 \/ d = 5 \/ d = 6
          \/ d = 7 \/ d = 8 \/ d = 9)%N as Hd by lia.
  repeat (destruct Hd as [->|Hd]; [reflexivity|]).
  subst d. reflexivity.
Qed.

(** Printing in front of [s], then appending, is printing in front of the
    appended string. *)
Lemma pretty_N_go_app (x : N) (s rest : string) :
  pretty_N_go x s +:+ rest = pretty_N_go x (s +:+ rest).
Proof.
  revert s. induction (N.lt_wf_0 x) as [x _ IH]; intros s.
  destruct (N.eq_dec x 0%N) as [->|Hx].
  - now rewrite !pretty_N_go_0.
  - rewrite (pretty_N_go_step x s), (pretty_N_go_step x (s +:+ rest)) by lia.
    rewrite IH by (apply N.div_lt; lia). reflexivity.
Qed.

(** Reading the digits that [pretty_N_go x] prints adds [x] behind the
    digits read so far. *)
Lemma parse_digits_pretty_N_go (x : N) :
  exists k : N, forall (acc : N) (s : string),
    parse_digits acc (pretty_N_go x s) = parse_digits (acc * 10 ^ k + x) s.
Proof.
  induction (N.lt_wf_0 x) as [x _ IH].
  destruct (N.eq_dec x 0%N) as [->|Hx].
  - exists 0%N. intros acc s. rewrite pretty_N_go_0. f_equal. lia.
  - destruct (IH (x `div` 10)%N) as [k Hk]; [apply N.div_lt; lia|].
    exists (k + 1)%N. intros acc s.
    rewrite pretty_N_go_step, Hk by lia. cbn [parse_digits].
    destruct (pretty_N_char_digit (x `mod` 10)%N) as [-> ->];
      [apply N.mod_lt; lia|].
    f_equal. rewrite N.pow_add_r, N.pow_1_r.
    rewrite (N.div_mod x 10) at 3 by lia. lia.
Qed.

(** A positive number is printed with a non-zero digit in front. *)
Lemma pretty_N_go_head (x : N) (s : string) :
  (0 < x)%N ->
  exists (c : ascii) (r : string),
    pretty_N_go x s = String c r
    /\ is_digit c = true /\ Ascii.eqb c "0" = false.
Proof.
  revert s. induction (N.lt_wf_0 x) as [x _ IH]; intros s Hx.
  rewrite pretty_N_go_step by lia.
  destruct (N.eq_dec (x `div` 10)%N 0%N) as [Hdiv|Hdiv].
  - rewrite Hdiv, pretty_N_go_0.
    assert (x < 10)%N as Hlt by (apply N.div_small_iff in Hdiv; lia).
    rewrite N.mod_small by lia.
    eexists _, _. split; [reflexivity|].
    split; [apply pretty_N_char_digit; lia | apply pretty_N_char_nonzero; lia].
  - apply IH; [apply N.div_lt; lia | now apply N.neq_0_lt_0].
Qed.


Lemma parse_digits_end (acc : N) (rest : string) :
  number_end rest = true -> parse_digits acc rest = (acc, rest).
Proof.
  destruct rest as [|c r]; [reflexivity|]. cbn [number_end parse_digits].
  destruct (is_digit c); [discriminate | reflexivity].
Qed.

Lemma parse_frac_exp_end (rest : string) :
  number_end rest = true -> parse_frac_exp rest = Some (false, rest).
Proof.
  destruct rest as [|c r]; [reflexivity|]. unfold number_end, parse_frac_exp.
  destruct (is_digit c); [discriminate|].
  destruct (Ascii.eqb c "."); [discriminate|].
  destruct (Ascii.eqb c "e"); [discriminate|].
  destruct (Ascii.eqb c "E"); [discriminate | reflexivity].
Qed.

Lemma digit_not_hyphen (c : ascii) :
  is_digit c = true -> Ascii.eqb c "-" = false.
Proof. by_units c. Qed.

Lemma digit_not_ws (c : ascii) : is_digit c = true -> is_ws c = false.
Proof. by_units c. Qed.

Lemma digit_not_bracket (c : ascii) :
  is_digit c = true -> Ascii.eqb c "]" = false.
Proof. by_units c. Qed.

Lemma parse_int_part_pretty (x : N) (rest : string) :
  number_end rest = true ->
  parse_int_part (pretty x +:+ rest) = Some (x, rest).
Proof.
  intros Hend. unfold pretty, pretty_N.
  destruct (decide (x = 0%N)) as [->|Hx]; [reflexivity|].
  rewrite pretty_N_go_app. cbn [String.append].
  destruct (pretty_N_go_head x rest) as (c & r & Hhead & Hdigit & Hzero);
    [lia|].
  unfold parse_int_part. rewrite Hhead, Hzero, Hdigit, <- Hhead.
  destruct (parse_digits_pretty_N_go x) as [k Hk].
  rewrite Hk. rewrite parse_digits_end by exact Hend. now rewrite N.mul_0_l.
Qed.

(** The head of a printed integer: a digit, or the minus sign. *)
Lemma pretty_Z_head (z : Z) (rest : string) :
  exists (c : ascii) (r : string),
    pretty z +:+ rest = String c r
    /\ (is_digit c = true \/ c = "-"%char).
Proof.
  destruct z as [|p|p]; unfold pretty, pretty_Z.
  - eexists _, _. split; [reflexivity | left; reflexivity].
  - unfold pretty, pretty_positive, pretty, pretty_N.
    destruct (decide (N.pos p = 0%N)); [discriminate|].
    rewrite pretty_N_go_app.
    destruct (pretty_N_go_head (N.pos p) ("" +:+ rest)) as (c & r & -> & H & _);
      [lia|]. eauto.
  - cbn [String.append]. eexists _, _. split; [reflexivity | right; reflexivity].
Qed.

(** [parse_number] reads back an integer that a double holds exactly. *)
Lemma parse_number_pretty (z : Z) (rest : string) :
  - 2 ^ 53 < z < 2 ^ 53 -> number_end rest = true ->
  parse_number (pretty z +:+ rest) = Some (JNumber z, rest).
Proof.
  intros Hz Hend. unfold parse_number.
  destruct z as [|p|p].
  - change (pretty 0 +:+ rest) with (String "0" rest).
    cbn. now rewrite parse_frac_exp_end.
  - change (pretty (Z.pos p)) with (pretty (N.pos p)).
    pose proof (parse_int_part_pretty (N.pos p) rest Hend) as Hint.
    destruct (pretty_Z_head (Z.pos p) rest) as (c & r & Hhead & Hc).
    change (pretty (Z.pos p)) with (pretty (N.pos p)) in Hhead.
    rewrite Hhead in *.
    assert (Ascii.eqb c "-" = false) as ->.
    { destruct Hc as [Hc| ->]; [now apply digit_not_hyphen|].
      unfold parse_int_part in Hint. simpl in Hint. discriminate. }
    rewrite Hint. rewrite parse_frac_exp_end by exact Hend.
    destruct (Z.ltb_spec (Z.of_N (N.pos p)) (2 ^ 53)); [reflexivity | lia].
  - change (pretty (Z.neg p)) with ("-" +:+ pretty (N.pos p)).
    cbn [String.append]. rewrite Ascii.eqb_refl.
    rewrite parse_int_part_pretty by exact Hend.
    rewrite parse_frac_exp_end by exact Hend.
    destruct (Z.ltb_spec (Z.of_N (N.pos p)) (2 ^ 53)); [reflexivity | lia].
Qed.

(** ** Parsing what [serialize] prints *)

Lemma skip_ws_pretty (z : Z) (rest : string) :
  skip_ws (pretty z +:+ rest) = pretty z +:+ rest.
Proof.
  destruct (pretty_Z_head z rest) as (c & r & -> & [Hc| ->]).
  - cbn [skip_ws]. now rewrite digit_not_ws.
  - reflexivity.
Qed.

Lemma parse_value_pretty (fuel : nat) (z : Z) (rest : string) :
  - 2 ^ 53 < z < 2 ^ 53 -> number_end rest = true ->
  parse_value (S fuel) (pretty z +:+ rest) = Some (JNumber z, rest).
Proof.
  intros Hz Hend. rewrite <- (parse_number_pretty z rest Hz Hend).
  destruct (pretty_Z_head z rest) as (c & r & -> & [Hc| ->]).
  - cbn [parse_value]. now rewrite Hc.
  - reflexivity.
Qed.

Lemma join_numbers_cons (x y : Z) (l : list Z) :
  join_numbers (x :: y :: l) = pretty x +:+ "," +:+ join_numbers (y :: l).
Proof. reflexivity. Qed.

(** A printed array that is not empty starts with a numeral. *)
Lemma join_numbers_head (x : Z) (l : list Z) (rest : string) :
  exists tail : string,
    join_numbers (x :: l) +:+ rest = pretty x +:+ tail.
Proof.
  destruct l as [|y l].
  - now exists rest.
  - exists ("," +:+ join_numbers (y :: l) +:+ rest).
    now rewrite join_numbers_cons, !append_assoc.
Qed.

Lemma parse_elements_step (fuel : nat) (s : string) :
  parse_elements (S fuel) s
  = match parse_value fuel s with
    | None => None
    | Some (v, r) =>
      match skip_ws r with
      | String c r1 =>
        if Ascii.eqb c "]" then Some ([v], r1)
        else if Ascii.eqb c "," then
          match parse_elements fuel (skip_ws r1) with
          | Some (vs, rest) => Some (v :: vs, rest)
          | None => None
          end
        else None
      | EmptyString => None
      end
    end.
Proof. reflexivity. Qed.

(** The elements of a printed array of integers are read back, up to the
    closing bracket. *)
Lemma parse_elements_join (l : list Z) :
  forall (x : Z) (fuel : nat) (rest : string),
    Forall (fun y => - 2 ^ 53 < y < 2 ^ 53) (x :: l) ->
    (length l + 2 <= fuel)%nat ->
    parse_elements fuel (join_numbers (x :: l) +:+ String "]" rest)
    = Some (map JNumber (x :: l), rest).
Proof.
  induction l as [|y l IH]; intros x fuel rest Hall Hfuel;
    apply Forall_cons in Hall as [Hx Hl];
    destruct fuel as [|[|fuel]]; cbn [length] in Hfuel; try lia;
    rewrite parse_elements_step.
  - cbn [join_numbers].
    rewrite parse_value_pretty by (auto; reflexivity). reflexivity.
  - rewrite join_numbers_cons, !append_assoc.
    rewrite parse_value_pretty by (auto; reflexivity).
    change (skip_ws ("," +:+ ?t)) with (String "," t).
    change (Ascii.eqb "," "]") with false.
    change (Ascii.eqb "," ",") with true. cbn iota.
    destruct (join_numbers_head y l (String "]" rest)) as [tail Htail].
    rewrite Htail, skip_ws_pretty, <- Htail.
    rewrite (IH y (S fuel) rest Hl) by lia. reflexivity.
Qed.

Lemma append_empty_r (s : string) : s +:+ "" = s.
Proof.
  induction s as [|a s IHs]; cbn [String.append]; [reflexivity | now rewrite IHs].
Qed.

Lemma pretty_Z_length (z : Z) : (1 <= String.length (pretty z))%nat.
Proof.
  destruct (pretty_Z_head z "") as (c & r & H & _).
  rewrite append_empty_r in H. rewrite H. simpl. lia.
Qed.

Lemma join_numbers_length (l : list Z) :
  (length l <= String.length (join_numbers l))%nat.
Proof.
  induction l as [|x [|y l] IH].
  - simpl. lia.
  - cbn [join_numbers length]. pose proof (pretty_Z_length x). lia.
  - rewrite join_numbers_cons, !append_length.
    pose proof (pretty_Z_length x). cbn [length] in *. lia.
Qed.


Lemma parse_value_array (fuel : nat) (r : string) :
  parse_value (S fuel) (String "[" r)
  = match skip_ws r with
    | EmptyString => None
    | String c1 rest as r1 =>
      if Ascii.eqb c1 "]" then Some (JArray [], rest)
      else
        match parse_elements fuel r1 with
        | Some (elements, rest) => Some (JArray elements, rest)
        | None => None
        end
    end.
Proof. reflexivity. Qed.

(** A printed array of integers is read back. *)
Lemma parse_value_join (l : list Z) (fuel : nat) (rest : string) :
  Forall (fun y => - 2 ^ 53 < y < 2 ^ 53) l ->
  (length l + 2 <= fuel)%nat ->
  parse_value (S fuel) (String "[" (join_numbers l +:+ String "]" rest))
  = Some (JArray (map JNumber l), rest).
Proof.
  intros Hl Hfuel. rewrite parse_value_array.
  destruct l as [|x l]; [reflexivity|].
  destruct (join_numbers_head x l (String "]" rest)) as [tail Htail].
  rewrite Htail, skip_ws_pretty.
  destruct (pretty_Z_head x tail) as (c & r & Hh & Hc). rewrite Hh.
  assert (Ascii.eqb c "]" = false) as ->.
  { destruct Hc as [Hc| ->]; [now apply digit_not_bracket | reflexivity]. }
  rewrite <- Hh, <- Htail.
  rewrite parse_elements_join by (auto; cbn [length] in *; lia).
  reflexivity.
Qed.

(** One member whose key is ["size"] or ["bits"], from its opening quote. *)
Lemma parse_members_size (fuel : nat) (tail : string) :
  parse_members (S fuel) (quoted "size" +:+ ":" +:+ tail)
  = match parse_value fuel (skip_ws tail) with
    | None => None
    | Some (v, r3) =>
      match skip_ws r3 with
      | String c r4 =>
        if Ascii.eqb c "}" then Some ([("size", v)], r4)
        else if Ascii.eqb c "," then
          match parse_members fuel (skip_ws r4) with
          | Some (ms, rest) => Some (("size", v) :: ms, rest)
          | None => None
          end
        else None
      | EmptyString => None
      end
    end.
Proof. reflexivity. Qed.

Lemma parse_members_bits (fuel : nat) (tail : string) :
  parse_members (S fuel) (quoted "bits" +:+ ":" +:+ tail)
  = match parse_value fuel (skip_ws tail) with
    | None => None
    | Some (v, r3) =>
      match skip_ws r3 with
      | String c r4 =>
        if Ascii.eqb c "}" then Some ([("bits", v)], r4)
        else if Ascii.eqb c "," then
          match parse_members fuel (skip_ws r4) with
          | Some (ms, rest) => Some (("bits", v) :: ms, rest)
          | None => None
          end
        else None
      | EmptyString => None
      end
    end.
Proof. reflexivity. Qed.

Lemma parse_value_object (fuel : nat) (r : string) :
  parse_value (S fuel) (String "{" (String dquote r))
  = match parse_members fuel (String dquote r) with
    | Some (members, rest) => Some (JObject members, rest)
    | None => None
    end.
Proof. reflexivity. Qed.

(** [JSON.parse] reads back what [serialize] prints. *)
Lemma parse_value_serialize (b : Bitmap.t) (fuel : nat) :
  - 2 ^ 53 < Bitmap.size b < 2 ^ 53 ->
  Forall (fun y => - 2 ^ 53 < y < 2 ^ 53) (Bitmap.bits b) ->
  (length (Bitmap.bits b) + 6 <= fuel)%nat ->
  parse_value fuel (Bitmap.serialize b) = Some (json_of_bitmap b, "").
Proof.
  intros Hsize Hbits Hfuel.
  destruct fuel as [|[|[|[|fuel]]]]; try lia.
  unfold Bitmap.serialize, json_of_bitmap.
  change ("{" +:+ quoted "size" +:+ ?t)
    with (String "{" (String dquote ("size" +:+ String dquote t))).
  rewrite parse_value_object.
  change (String dquote ("size" +:+ String dquote (":" +:+ ?t)))
    with (quoted "size" +:+ ":" +:+ t).
  rewrite parse_members_size, skip_ws_pretty.
  rewrite parse_value_pretty by (auto; reflexivity).
  change (skip_ws ("," +:+ ?t)) with (String "," t).
  change (Ascii.eqb "," "}") with false.
  change (Ascii.eqb "," ",") with true. cbn iota.
  change (skip_ws (quoted "bits" +:+ ":[" +:+ ?t))
    with (quoted "bits" +:+ ":" +:+ String "[" t).
  rewrite parse_members_bits.
  change (skip_ws (String "[" ?t)) with (String "[" t).
  change (join_numbers (Bitmap.bits b) +:+ "]}")
    with (join_numbers (Bitmap.bits b) +:+ String "]" "}").
  rewrite parse_value_join by (auto; lia).
  reflexivity.
Qed.

Lemma serialize_length (b : Bitmap.t) :
  (length (Bitmap.bits b) + 6 <= 2 * String.length (Bitmap.serialize b) + 2)%nat.
Proof.
  unfold Bitmap.serialize, quoted. rewrite !append_length.
  cbn [String.length String.append].
  pose proof (join_numbers_length (Bitmap.bits b)). lia.
Qed.

Lemma JSON_parse_serialize (b : Bitmap.t) :
  - 2 ^ 53 < Bitmap.size b < 2 ^ 53 ->
  Forall (fun y => - 2 ^ 53 < y < 2 ^ 53) (Bitmap.bits b) ->
  JSON_parse (Bitmap.serialize b) = Some (json_of_bitmap b).
Proof.
  intros Hsize Hbits. unfold JSON_parse.
  assert (skip_ws (Bitmap.serialize b) = Bitmap.serialize b) as -> by reflexivity.
  rewrite parse_value_serialize; auto using serialize_length.
Qed.

Lemma to_uint8s_numbers (l : list Z) :
  uint8_elements l -> Bitmap.to_uint8s (map JNumber l) = Some l.
Proof.
  induction 1 as [|x l Hx _ IH]; [reflexivity|].
  cbn [map Bitmap.to_uint8s Bitmap.to_uint8]. rewrite IH.
  now rewrite Z.mod_small.
Qed.

(** [deserialize] rebuilds the bitmap that [serialize] printed. *)
Lemma deserialize_serialize (b : Bitmap.t) :
  - 8 < Bitmap.size b < 2 ^ 53 ->
  uint8_elements (Bitmap.bits b) ->
  Bitmap.deserialize (Bitmap.serialize b) = Normal b.
Proof.
  intros Hsize Hbits. unfold Bitmap.deserialize.
  rewrite JSON_parse_serialize.
  - unfold json_of_bitmap.
    change (get_property (JObject ?m) ?k) with (lookup_member k m).
    change (lookup_member "size" _) with (Some (JNumber (Bitmap.size b))).
    change (lookup_member "bits" _)
      with (Some (JArray (map JNumber (Bitmap.bits b)))).
    cbn [Bitmap.construct_from Bitmap.new_Uint8Array].
    rewrite to_uint8s_numbers by exact Hbits.
    unfold Bitmap.constructor, Bitmap.byte_length.
    assert (0 <= (Bitmap.size b + 7) / 8) by (apply Z.div_pos; lia).
    assert ((Bitmap.size b + 7) / 8 <= 2 ^ 53 - 1).
    { apply Z.lt_le_pred, Z.div_lt_upper_bound; lia. }
    destruct (Z.ltb_spec ((Bitmap.size b + 7) / 8) 0); [lia|].
    destruct (Z.ltb_spec (2 ^ 53 - 1) ((Bitmap.size b + 7) / 8)); [lia|].
    cbn [orb Bitmap.size]. now destruct b.
  - lia.
  - eapply Forall_impl; [exact Hbits|]. cbv beta. intros; lia.
Qed.



(** Two hundred wildcards pass the validators, and 37^200 is beyond the
    doubles: both counts are [Infinity]. *)
Example analyzePattern_overflows :
  match analyzePattern
          {| entry_pattern :=
               "__________________________________________________" +:+
               "__________________________________________________" +:+
               "__________________________________________________" +:+
               "__________________________________________________";
             entry_extensions := [".com"];
             entry_comment := None |} with
  | inr a => combinations a = Infinity /\ totalDomains a = Infinity
  | inl _ => False
  end.
Proof. vm_compute. split; reflexivity. Qed.

(** ** The outcomes of [deserialize] *)

Lemma allocate_Normal (h : host) (n : Z) (bytes : list Z) :
  Bitmap.allocate h n = Normal bytes <->
  0 <= n <= 2 ^ 53 - 1 /\ byte_block h n = true
  /\ bytes = replicate (Z.to_nat n) 0.
Proof.
  unfold Bitmap.allocate.
  destruct (Z.ltb_spec n 0); cbn [orb].
  { split; [discriminate | lia]. }
  destruct (Z.ltb_spec (2 ^ 53 - 1) n); cbn [orb].
  { split; [discriminate | lia]. }
  destruct (byte_block h n); cbn [negb].
  - split; [intros [= <-]; auto | intros (_ & _ & ->); reflexivity].
  - split; [discriminate | intros (_ & [=] & _)].
Qed.


Lemma allocate_outcome (h : host) (n : Z) :
  Bitmap.allocate h n = Throw RangeError
  \/ Bitmap.allocate h n = Normal (replicate (Z.to_nat n) 0).
Proof. unfold Bitmap.allocate. destruct (_ || _); auto. Qed.





(** What returns on a host returns the same on a host with memory for
    everything: the results about [deserialize] hold of every call that
    returns. *)
Lemma deserialize_on_Normal (h : host) (data : string) (b : Bitmap.t) :
  Bitmap.deserialize_on h data = Normal b -> Bitmap.deserialize data = Normal b.
Proof.
  unfold Bitmap.deserialize_on, Bitmap.deserialize.
  destruct (JSON_parse data) as [parsed|]; [|discriminate].
  assert (forall x c,
            Bitmap.construct_from_on h x = Normal c ->
            Bitmap.construct_from x = Normal c) as Hctor.
  { intros x c. unfold Bitmap.construct_from_on, Bitmap.construct_from.
    assert (forall size, Bitmap.constructor_on h size = Normal c ->
                         Bitmap.constructor size = Normal c) as H.
    { intros size. unfold Bitmap.constructor_on, Bitmap.constructor.
      destruct (Bitmap.allocate h _) as [bytes| |] eqn:E; try discriminate.
      apply allocate_Normal in E as (Hn & _ & ->). intros [= <-]. cbv zeta.
      destruct (Z.ltb_spec (Bitmap.byte_length size) 0); [lia|].
      destruct (Z.ltb_spec (2 ^ 53 - 1) (Bitmap.byte_length size)); [lia|].
      reflexivity. }
    destruct x as [[]|]; try discriminate; apply H. }
  assert (forall x l,
            Bitmap.new_Uint8Array_on h x = Normal l ->
            Bitmap.new_Uint8Array x = Normal l) as Hbits.
  { intros x l. unfold Bitmap.new_Uint8Array_on, Bitmap.new_Uint8Array.
    destruct x as [[| b0 | n | | | elements | ]|]; try discriminate.
    - intros (_ & _ & ->)%allocate_Normal. reflexivity.
    - intros (_ & _ & ->)%allocate_Normal. now destruct b0.
    - intros (Hn & _ & ->)%allocate_Normal.
      destruct (Z.ltb_spec n 0); [lia | reflexivity].
    - destruct (Bitmap.allocate h _); try discriminate.
      destruct (Bitmap.to_uint8s elements); [auto | discriminate].
    - intros (_ & _ & ->)%allocate_Normal. reflexivity. }
  destruct parsed; try discriminate;
    (destruct (Bitmap.construct_from_on h _) as [c| |] eqn:Ec;
       try discriminate;
     destruct (Bitmap.new_Uint8Array_on h _) as [l| |] eqn:El;
       try discriminate;
     intros [= <-];
     now rewrite (Hctor _ _ Ec), (Hbits _ _ El)).
Qed.




(** Two texts on which [deserialize] throws the [RangeError] of a byte
    array: a negative length for the bytes, on any host, and a capacity of
    2^40 bits on a host that creates no array above 2^32 bytes. *)
Example deserialize_range_errors (h : host) :
  Bitmap.deserialize_on
    h ("{" +:+ quoted "size" +:+ ":8," +:+ quoted "bits" +:+ ":-1}")
  = Throw RangeError
  /\ Bitmap.deserialize_on
       {| byte_block := fun n => n <=? 2 ^ 32; array_block := fun _ => true |}
       ("{" +:+ quoted "size" +:+ ":1099511627776," +:+ quoted "bits"
            +:+ ":[]}")
     = Throw RangeError.
Proof.
  split; [|vm_compute; reflexivity].
  destruct h as [bytes arrays]. vm_compute.
  destruct (bytes 1); reflexivity.
Qed.

(** ** The tests of the repository, replayed on the embedding *)

(** The candidates do not depend on the shuffle, only their order does. *)
Lemma generateCombinations_Permutation (rand : oracle)
    (patternParts : list PatternPart) :
  generateCombinations rand patternParts
  ≡ₚ omap (decode patternParts) (seq 0 (totalCombinations patternParts)).
Proof. unfold generateCombinations. now rewrite shuffleArray_Permutation. Qed.

Example generates_letters (rand : oracle) :
  length (generateCombinations rand (parsePattern "ll")) = 676%nat.
Proof.
  rewrite (Permutation_length (generateCombinations_Permutation rand _)).
  vm_compute. reflexivity.
Qed.

Example generates_hyphens (rand : oracle) :
  length (generateCombinations rand (parsePattern "l-l")) = 676%nat.
Proof.
  rewrite (Permutation_length (generateCombinations_Permutation rand _)).
  vm_compute. reflexivity.
Qed.

Example generates_wildcards (rand : oracle) :
  length (generateCombinations rand (parsePattern "a_b")) = 37%nat.
Proof.
  rewrite (Permutation_length (generateCombinations_Permutation rand _)).
  vm_compute. reflexivity.
Qed.

Example skips_invalid_combinations (rand : oracle) :
  length (generateCombinations rand (parsePattern "_n")) = 260%nat.
Proof.
  rewrite (Permutation_length (generateCombinations_Permutation rand _)).
  vm_compute. reflexivity.
Qed.

Example bitmap_add_and_test :
  match Bitmap.constructor 1000 with
  | Normal bitmap =>
    let bitmap1 := Bitmap.add bitmap "test.com" in
    let bitmap2 := Bitmap.add bitmap1 "other.com" in
    Bitmap.debug bitmap = (1000, 0)
    /\ Bitmap.test bitmap1 "test.com" = true
    /\ Bitmap.test bitmap1 "other.com" = false
    /\ Bitmap.test bitmap2 "test.com" = true
    /\ Bitmap.test bitmap2 "other.com" = true
    /\ Bitmap.debug bitmap2 = (1000, 2)
  | _ => False
  end.
Proof. vm_compute. repeat split. Qed.

Example bitmap_serialization :
  match Bitmap.constructor 1000 with
  | Normal bitmap =>
    let original := add_all bitmap ["test.com"; "example.com"] in
    match Bitmap.deserialize (Bitmap.serialize original) with
    | Normal deserialized =>
      fst (Bitmap.debug deserialized) = fst (Bitmap.debug original)
      /\ Bitmap.test deserialized "test.com" = true
      /\ Bitmap.test deserialized "example.com" = true
      /\ Bitmap.test deserialized "other.com" = false
    | _ => False
    end
  | _ => False
  end.
Proof. vm_compute. repeat split. Qed.

Example bitmap_collisions :
  match Bitmap.constructor 10 with
  | Normal bitmap =>
    let domains := ["test1.com"; "test2.com"; "test3.com";
                    "example1.com"; "example2.com"] in
    forallb (Bitmap.test (add_all bitmap domains)) domains = true
  | _ => False
  end.
Proof. vm_compute. reflexivity. Qed.

Example bitmap_minimum_size :
  match Bitmap.constructor 1 with
  | Normal bitmap => Bitmap.test (Bitmap.add bitmap "test.com") "test.com" = true
  | _ => False
  end.
Proof. vm_compute. reflexivity. Qed.

(** ** The bitmap as a set: what [add] and [test] compose to *)

Lemma set_bit_twice (x j : Z) :
  0 <= j < 8 ->
  Z.lor (Z.lor x (Z.shiftl 1 j) mod 256) (Z.shiftl 1 j) mod 256
  = Z.lor x (Z.shiftl 1 j) mod 256.
Proof.
  intros Hj. change 256 with (2 ^ 8). apply Z.bits_inj'. intros n Hn.
  destruct (Z_lt_le_dec n 8) as [Hlt|Hge].
  - rewrite !Z.mod_pow2_bits_low, !Z.lor_spec, Z.mod_pow2_bits_low by lia.
    rewrite Z.lor_spec. now destruct (Z.testbit x n), (Z.testbit _ n).
  - now rewrite !Z.mod_pow2_bits_high by lia.
Qed.

Lemma set_bits_commute (x j k : Z) :
  0 <= j < 8 -> 0 <= k < 8 ->
  Z.lor (Z.lor x (Z.shiftl 1 j) mod 256) (Z.shiftl 1 k) mod 256
  = Z.lor (Z.lor x (Z.shiftl 1 k) mod 256) (Z.shiftl 1 j) mod 256.
Proof.
  intros Hj Hk. change 256 with (2 ^ 8). apply Z.bits_inj'. intros n Hn.
  destruct (Z_lt_le_dec n 8) as [Hlt|Hge].
  - rewrite !Z.mod_pow2_bits_low, !Z.lor_spec, !Z.mod_pow2_bits_low by lia.
    rewrite !Z.lor_spec.
    now destruct (Z.testbit x n), (Z.testbit (Z.shiftl 1 j) n),
      (Z.testbit (Z.shiftl 1 k) n).
  - now rewrite !Z.mod_pow2_bits_high by lia.
Qed.

(** The bytes of [add b value], by the index that [hash] gives. *)
Lemma add_bits (b : Bitmap.t) (value : string) (index : Z) :
  Bitmap.hash b value = Some index ->
  Bitmap.add b value
  = {| Bitmap.size := Bitmap.size b;
       Bitmap.bits :=
         <[Z.to_nat (index / 8) :=
             Z.lor (Bitmap.read_byte b (index / 8))
                   (Z.shiftl 1 (Z.rem index 8)) mod 256]> (Bitmap.bits b) |}.
Proof. intros H. unfold Bitmap.add. now rewrite H. Qed.

Lemma read_byte_insert_eq (size : Z) (l : list Z) (i x : Z) :
  0 <= i ->
  Bitmap.read_byte {| Bitmap.size := size;
                      Bitmap.bits := <[Z.to_nat i := x]> l |} i
  = if decide (Z.to_nat i < length l)%nat then x else 0.
Proof.
  intros Hi. unfold Bitmap.read_byte. cbn [Bitmap.bits].
  destruct (decide (Z.to_nat i < length l)%nat) as [Hlt|Hge].
  - now rewrite list_lookup_insert_eq.
  - rewrite list_insert_ge by lia.
    now rewrite (proj2 (lookup_ge_None l (Z.to_nat i))) by lia.
Qed.

Lemma read_byte_insert_ne (size : Z) (l : list Z) (i j x : Z) :
  0 <= i -> 0 <= j -> i <> j ->
  Bitmap.read_byte {| Bitmap.size := size;
                      Bitmap.bits := <[Z.to_nat i := x]> l |} j
  = Bitmap.read_byte {| Bitmap.size := size; Bitmap.bits := l |} j.
Proof.
  intros Hi Hj Hne. unfold Bitmap.read_byte. cbn [Bitmap.bits].
  rewrite list_lookup_insert_ne; [reflexivity|].
  intros E. apply Hne. now apply Z2Nat.inj.
Qed.

Lemma read_byte_bits (b : Bitmap.t) (i : Z) :
  Bitmap.read_byte {| Bitmap.size := Bitmap.size b;
                      Bitmap.bits := Bitmap.bits b |} i
  = Bitmap.read_byte b i.
Proof. reflexivity. Qed.

Lemma add_none (b : Bitmap.t) (value : string) :
  Bitmap.hash b value = None -> Bitmap.add b value = b.
Proof. intros H. unfold Bitmap.add. now rewrite H. Qed.

(** X1: [add] is idempotent: a second [add] of the same value changes
    nothing, whatever the state of the bitmap. *)
Theorem add_idempotent (b : Bitmap.t) (value : string) :
  Bitmap.add (Bitmap.add b value) value = Bitmap.add b value.
Proof.
  destruct (Bitmap.hash b value) as [index|] eqn:E.
  - pose proof (hash_index_nonneg _ _ _ E) as Hidx.
    assert (0 <= index / 8) as Hbyte by (apply Z.div_pos; lia).
    pose proof (bit_index_range index Hidx) as Hbit.
    rewrite (add_bits (Bitmap.add b value) value index)
      by (now rewrite hash_add).
    rewrite (add_bits b value index E). cbn [Bitmap.size Bitmap.bits].
    f_equal. rewrite read_byte_insert_eq by exact Hbyte.
    destruct (decide _) as [Hlt|Hge].
    + now rewrite set_bit_twice, list_insert_insert_eq.
    + now rewrite !(list_insert_ge (Bitmap.bits b)) by lia.
  - now rewrite !(add_none b value E).
Qed.

(** X2: two [add] calls commute: the bitmap does not depend on the order in
    which values are added. *)
Theorem add_commutes (b : Bitmap.t) (v w : string) :
  Bitmap.add (Bitmap.add b v) w = Bitmap.add (Bitmap.add b w) v.
Proof.
  destruct (Bitmap.hash b v) as [iv|] eqn:Ev;
    destruct (Bitmap.hash b w) as [iw|] eqn:Ew.
  - pose proof (hash_index_nonneg _ _ _ Ev) as Hv.
    pose proof (hash_index_nonneg _ _ _ Ew) as Hw.
    assert (0 <= iv / 8) as Hbv by (apply Z.div_pos; lia).
    assert (0 <= iw / 8) as Hbw by (apply Z.div_pos; lia).
    pose proof (bit_index_range iv Hv) as Hkv.
    pose proof (bit_index_range iw Hw) as Hkw.
    rewrite (add_bits (Bitmap.add b v) w iw) by (now rewrite hash_add).
    rewrite (add_bits (Bitmap.add b w) v iv) by (now rewrite hash_add).
    rewrite (add_bits b v iv Ev), (add_bits b w iw Ew).
    cbn [Bitmap.size Bitmap.bits]. f_equal.
    destruct (Z.eq_dec (iv / 8) (iw / 8)) as [Heq|Hne].
    + rewrite Heq in *. rewrite !read_byte_insert_eq by exact Hbw.
      destruct (decide _) as [Hlt|Hge].
      * rewrite !list_insert_insert_eq. f_equal. now apply set_bits_commute.
      * now rewrite !(list_insert_ge (Bitmap.bits b)) by lia.
    + rewrite !read_byte_insert_ne, !read_byte_bits by auto.
      apply list_insert_insert_ne. intros E. apply Hne.
      now apply Z2Nat.inj in E.
  - rewrite (add_none b w Ew), (add_none (Bitmap.add b v) w); [reflexivity|].
    now rewrite hash_add.
  - rewrite (add_none b v Ev), (add_none (Bitmap.add b w) v); [reflexivity|].
    now rewrite hash_add.
  - now rewrite (add_none b v Ev), (add_none b w Ew), (add_none b v Ev).
Qed.

Lemma hash_size (b1 b2 : Bitmap.t) (value : string) :
  Bitmap.size b1 = Bitmap.size b2 ->
  Bitmap.hash b1 value = Bitmap.hash b2 value.
Proof. intros H. unfold Bitmap.hash. now rewrite H. Qed.

Lemma hash_some (b : Bitmap.t) (value : string) :
  0 < Bitmap.size b -> exists index, Bitmap.hash b value = Some index.
Proof.
  intros H. unfold Bitmap.hash.
  destruct (Z.eqb_spec (Bitmap.size b) 0); [lia | eauto].
Qed.

Lemma index_split (i j : Z) :
  0 <= i -> 0 <= j -> i / 8 = j / 8 -> Z.rem i 8 = Z.rem j 8 -> i = j.
Proof.
  intros Hi Hj Hdiv Hrem. rewrite !Z.rem_mod_nonneg in Hrem by lia.
  rewrite (Z.div_mod i 8), (Z.div_mod j 8) by lia. now rewrite Hdiv, Hrem.
Qed.

(** [add] sets the bit of its value's hash and no other. *)
Lemma test_add_bit (b : Bitmap.t) (v w : string) :
  0 < Bitmap.size b -> bitmap_allocated b ->
  Bitmap.test (Bitmap.add b w) v
  = Bitmap.test b v || bool_decide (Bitmap.hash b v = Bitmap.hash b w).
Proof.
  intros Hsize Halloc. rewrite !test_testbit, hash_add.
  destruct (hash_some b v Hsize) as [iv Ev].
  destruct (hash_some b w Hsize) as [iw Ew]. rewrite Ev, Ew.
  pose proof (hash_index_nonneg _ _ _ Ev) as Hv.
  pose proof (hash_index_nonneg _ _ _ Ew) as Hw.
  assert (0 <= iv / 8) as Hbv by (apply Z.div_pos; lia).
  assert (0 <= iw / 8) as Hbw by (apply Z.div_pos; lia).
  pose proof (bit_index_range iv Hv) as Hkv.
  pose proof (bit_index_range iw Hw) as Hkw.
  pose proof (hash_index_in_array _ _ _ Hsize Halloc Ew) as Hin.
  rewrite (add_bits b w iw Ew).
  destruct (Z.eq_dec (iv / 8) (iw / 8)) as [Heq|Hne].
  - rewrite Heq, read_byte_insert_eq by exact Hbw.
    destruct (decide _) as [_|Hge]; [|lia].
    rewrite testbit_set_byte by lia. f_equal.
    destruct (Z.eqb_spec (Z.rem iw 8) (Z.rem iv 8)) as [Hk|Hk].
    + rewrite (index_split iv iw) by auto. now rewrite bool_decide_eq_true_2.
    + rewrite bool_decide_eq_false_2; [reflexivity|]. intros [= ->]. auto.
  - rewrite read_byte_insert_ne, read_byte_bits by auto.
    rewrite bool_decide_eq_false_2; [now rewrite orb_false_r|].
    intros [= ->]. auto.
Qed.

(** No bit of a constructed bitmap is set. *)
Lemma constructor_test_false (size : Z) (fresh : Bitmap.t) (value : string) :
  Bitmap.constructor size = Normal fresh ->
  Bitmap.test fresh value = false.
Proof.
  unfold Bitmap.constructor. destruct (_ || _); [discriminate|].
  intros [= <-]. unfold Bitmap.test.
  destruct (Bitmap.hash _ value) as [index|]; [|reflexivity].
  unfold Bitmap.read_byte. cbn [Bitmap.bits].
  destruct (replicate _ 0 !! _) as [byte|] eqn:E.
  - apply lookup_replicate in E as [-> _]. now rewrite Z.land_0_l.
  - now rewrite Z.land_0_l.
Qed.

(** X3: on a bitmap of capacity above 0 in the state the class keeps,
    [test(v)] after [add(w)] is true exactly when it was true before or [v]
    and [w] have the same hash: a false positive is a hash collision, and
    nothing else. *)
Theorem test_add_exact (b : Bitmap.t) (v w : string) :
  0 < Bitmap.size b -> bitmap_allocated b ->
  Bitmap.test (Bitmap.add b w) v
  = Bitmap.test b v || bool_decide (Bitmap.hash b v = Bitmap.hash b w).
Proof.
  apply test_add_bit.
Qed.

Lemma test_add_exact_witness :
  let b := {| Bitmap.size := 10; Bitmap.bits := [0; 0] |} in
  0 < Bitmap.size b /\ bitmap_allocated b
  /\ Bitmap.hash b "b" = Bitmap.hash b "test3.com"
  /\ Bitmap.test b "b" = false
  /\ Bitmap.test (Bitmap.add b "test3.com") "b" = true.
Proof.
  intros b. split; [simpl; lia|]. split; [reflexivity|].
  split; [reflexivity|]. split; [reflexivity|].
  rewrite (test_add_exact b "b" "test3.com");
    [reflexivity | simpl; lia | reflexivity].
Defined.

(** X4: a bitmap fresh from the constructor holds nothing: [test] is false
    for every string. *)
Theorem fresh_test_false (size : Z) (fresh : Bitmap.t) (value : string) :
  Bitmap.constructor size = Normal fresh ->
  Bitmap.test fresh value = false.
Proof.
  apply constructor_test_false.
Qed.

Lemma fresh_test_false_witness :
  Bitmap.constructor 1000 = Normal {| Bitmap.size := 1000;
                                      Bitmap.bits := replicate 125 0 |}
  /\ Bitmap.test {| Bitmap.size := 1000; Bitmap.bits := replicate 125 0 |}
       "test.com" = false.
Proof.
  split; [reflexivity|]. now apply (fresh_test_false 1000).
Defined.

Lemma test_add_all_exact (values : list string) :
  forall (b0 b : Bitmap.t) (v : string),
    0 < Bitmap.size b -> bitmap_allocated b ->
    Bitmap.size b = Bitmap.size b0 ->
    Bitmap.test (add_all b values) v
    = Bitmap.test b v
      || existsb (fun w => bool_decide (Bitmap.hash b0 v = Bitmap.hash b0 w))
                 values.
Proof.
  induction values as [|w values IH]; intros b0 b v Hsize Halloc Hb0;
    cbn [add_all fold_left existsb].
  - now rewrite orb_false_r.
  - change (fold_left Bitmap.add values (Bitmap.add b w))
      with (add_all (Bitmap.add b w) values).
    rewrite (IH b0) by (rewrite ?add_size; auto using add_allocated).
    rewrite test_add_bit by assumption.
    rewrite (hash_size b b0 v Hb0), (hash_size b b0 w Hb0).
    now rewrite orb_assoc.
Qed.

(** X5: what a bitmap holds: after any sequence of [add] calls on a fresh
    bitmap of capacity above 0, [test(v)] is true exactly when one of the
    added values has the hash of [v] (no false negative; a false positive
    only on a hash collision). *)
Theorem test_characterised (size : Z) (fresh : Bitmap.t)
    (values : list string) (v : string) :
  Bitmap.constructor size = Normal fresh -> 0 < size ->
  Bitmap.test (add_all fresh values) v = true
  <-> exists w : string,
        w ∈ values /\ Bitmap.hash fresh v = Bitmap.hash fresh w.
Proof.
  intros Hnew Hsize.
  destruct (constructor_allocated size fresh Hnew) as (Hs & Halloc & _).
  rewrite (test_add_all_exact values fresh fresh) by (auto; lia).
  rewrite (constructor_test_false size fresh v Hnew). cbn [orb].
  rewrite existsb_exists. split.
  - intros (w & Hin & Hw). exists w. split; [now apply list_elem_of_In|].
    now apply bool_decide_eq_true_1 in Hw.
  - intros (w & Hin & Hw). exists w. split; [now apply list_elem_of_In|].
    now apply bool_decide_eq_true_2.
Qed.

Lemma test_characterised_witness :
  let fresh := {| Bitmap.size := 10; Bitmap.bits := [0; 0] |} in
  Bitmap.constructor 10 = Normal fresh
  /\ Bitmap.test (add_all fresh ["test1.com"; "test3.com"]) "b" = true.
Proof.
  intros fresh. split; [reflexivity|].
  apply (test_characterised 10 fresh ["test1.com"; "test3.com"] "b");
    [reflexivity | lia |].
  exists "test3.com". split; [right; left | reflexivity].
Defined.

(** X6: distinct bitmaps have distinct serializations: [serialize] is
    injective on the bitmaps a byte array and a capacity in
    (-8, 2^53) make up. *)
Theorem serialize_injective (b1 b2 : Bitmap.t) :
  - 8 < Bitmap.size b1 < 2 ^ 53 -> uint8_elements (Bitmap.bits b1) ->
  - 8 < Bitmap.size b2 < 2 ^ 53 -> uint8_elements (Bitmap.bits b2) ->
  Bitmap.serialize b1 = Bitmap.serialize b2 -> b1 = b2.
Proof.
  intros Hs1 Hb1 Hs2 Hb2 Heq.
  pose proof (deserialize_serialize b1 Hs1 Hb1) as H1.
  pose proof (deserialize_serialize b2 Hs2 Hb2) as H2.
  rewrite Heq in H1. congruence.
Qed.

Lemma serialize_injective_witness :
  let b := {| Bitmap.size := 8; Bitmap.bits := [3] |} in
  Bitmap.serialize b = "{" +:+ quoted "size" +:+ ":8," +:+ quoted "bits" +:+ ":[3]}"
  /\ b = b.
Proof.
  intros b. split; [reflexivity|].
  apply (serialize_injective b b); try reflexivity;
    try (simpl; lia); repeat constructor; lia.
Defined.

(** ** [debug]: the number of bits set *)

Lemma popcount8_testbit (byte : Z) :
  Bitmap.popcount8 byte
  = Z.b2z (Z.testbit byte 0) + Z.b2z (Z.testbit byte 1)
    + Z.b2z (Z.testbit byte 2) + Z.b2z (Z.testbit byte 3)
    + Z.b2z (Z.testbit byte 4) + Z.b2z (Z.testbit byte 5)
    + Z.b2z (Z.testbit byte 6) + Z.b2z (Z.testbit byte 7).
Proof.
  unfold Bitmap.popcount8. cbn [fold_left].
  rewrite !land_bit, !negb_involutive by lia.
  destruct (Z.testbit byte 0), (Z.testbit byte 1), (Z.testbit byte 2),
    (Z.testbit byte 3), (Z.testbit byte 4), (Z.testbit byte 5),
    (Z.testbit byte 6), (Z.testbit byte 7); reflexivity.
Qed.

Lemma popcount8_set (x k : Z) :
  0 <= k < 8 ->
  Bitmap.popcount8 (Z.lor x (Z.shiftl 1 k) mod 256)
  = Bitmap.popcount8 x + (if Z.testbit x k then 0 else 1).
Proof.
  intros Hk. rewrite !popcount8_testbit.
  rewrite !testbit_set_byte by lia.
  assert (k = 0 \/ k = 1 \/ k = 2 \/ k = 3 \/ k = 4 \/ k = 5 \/ k = 6
          \/ k = 7) as Hcases by lia.
  repeat (destruct Hcases as [->|Hcases];
          [cbn [Z.eqb Pos.eqb];
           destruct (Z.testbit x 0), (Z.testbit x 1), (Z.testbit x 2),
             (Z.testbit x 3), (Z.testbit x 4), (Z.testbit x 5),
             (Z.testbit x 6), (Z.testbit x 7); reflexivity|]).
  subst k. cbn [Z.eqb Pos.eqb].
  destruct (Z.testbit x 0), (Z.testbit x 1), (Z.testbit x 2),
    (Z.testbit x 3), (Z.testbit x 4), (Z.testbit x 5),
    (Z.testbit x 6), (Z.testbit x 7); reflexivity.
Qed.

Lemma bits_sum_shift (l : list Z) (a : Z) :
  fold_left (fun n byte => n + Bitmap.popcount8 byte) l a
  = a + fold_left (fun n byte => n + Bitmap.popcount8 byte) l 0.
Proof.
  revert a. induction l as [|x l IH]; intros a; cbn [fold_left]; [lia|].
  rewrite (IH (a + _)), (IH (0 + _)). lia.
Qed.

Lemma bits_sum_insert (l : list Z) (i : nat) (x y : Z) :
  l !! i = Some x ->
  fold_left (fun n byte => n + Bitmap.popcount8 byte) (<[i := y]> l) 0
  = fold_left (fun n byte => n + Bitmap.popcount8 byte) l 0
    - Bitmap.popcount8 x + Bitmap.popcount8 y.
Proof.
  revert i. induction l as [|a l IH]; intros [|i] Hi; try discriminate;
    cbn [fold_left] in *.
  - injection Hi as ->. change (<[0%nat:=y]> (x :: l)) with (y :: l).
    cbn [fold_left]. rewrite (bits_sum_shift l (0 + _)).
    rewrite (bits_sum_shift l (0 + Bitmap.popcount8 x)). lia.
  - change (<[S i:=y]> (a :: l)) with (a :: <[i:=y]> l).
    cbn [fold_left]. rewrite (bits_sum_shift _ (0 + _)).
    rewrite (bits_sum_shift l (0 + _)). rewrite (IH i Hi). lia.
Qed.

(** One [add] moves the count of [debug] by at most one. *)
Lemma debug_add_step (b : Bitmap.t) (v : string) :
  0 < Bitmap.size b -> bitmap_allocated b ->
  fst (Bitmap.debug (Bitmap.add b v)) = fst (Bitmap.debug b)
  /\ snd (Bitmap.debug (Bitmap.add b v))
     = snd (Bitmap.debug b) + (if Bitmap.test b v then 0 else 1).
Proof.
  intros Hsize Halloc. unfold Bitmap.debug. cbn [fst snd].
  split; [apply add_size|].
  destruct (hash_some b v Hsize) as [index E].
  pose proof (hash_index_nonneg _ _ _ E) as Hidx.
  pose proof (bit_index_range index Hidx) as Hbit.
  pose proof (hash_index_in_array _ _ _ Hsize Halloc E) as Hin.
  rewrite test_testbit, E, (add_bits b v index E). cbn [Bitmap.bits].
  destruct (lookup_lt_is_Some_2 _ _ Hin) as [byte Hbyte].
  rewrite (bits_sum_insert _ _ byte) by exact Hbyte.
  unfold Bitmap.read_byte. rewrite Hbyte, popcount8_set by lia. lia.
Qed.

(** X7: on a bitmap of capacity above 0 in the state the class keeps,
    [add(v)] raises the number of bits that [debug] counts by one when
    [test(v)] was false and leaves it when [test(v)] was true; the capacity
    that [debug] reports does not change. *)
Theorem debug_add (b : Bitmap.t) (v : string) :
  0 < Bitmap.size b -> bitmap_allocated b ->
  fst (Bitmap.debug (Bitmap.add b v)) = fst (Bitmap.debug b)
  /\ snd (Bitmap.debug (Bitmap.add b v))
     = snd (Bitmap.debug b) + (if Bitmap.test b v then 0 else 1).
Proof.
  apply debug_add_step.
Qed.

Lemma debug_add_witness :
  let b := {| Bitmap.size := 10; Bitmap.bits := [0; 1] |} in
  0 < Bitmap.size b /\ bitmap_allocated b
  /\ Bitmap.test b "test3.com" = true /\ Bitmap.test b "test1.com" = false
  /\ snd (Bitmap.debug b) = 1
  /\ snd (Bitmap.debug (Bitmap.add b "test3.com")) = 1
  /\ snd (Bitmap.debug (Bitmap.add b "test1.com")) = 2.
Proof.
  intros b. split; [simpl; lia|]. split; [reflexivity|].
  split; [reflexivity|]. split; [reflexivity|]. split; [reflexivity|].
  split.
  - rewrite (proj2 (debug_add b "test3.com" ltac:(simpl; lia) eq_refl)).
    reflexivity.
  - rewrite (proj2 (debug_add b "test1.com" ltac:(simpl; lia) eq_refl)).
    reflexivity.
Defined.

Lemma debug_add_all_bound (values : list string) :
  forall b : Bitmap.t,
    0 < Bitmap.size b -> bitmap_allocated b ->
    snd (Bitmap.debug b) <= snd (Bitmap.debug (add_all b values))
    <= snd (Bitmap.debug b) + Z.of_nat (length values).
Proof.
  induction values as [|w values IH]; intros b Hsize Halloc;
    cbn [add_all fold_left length].
  - lia.
  - change (fold_left Bitmap.add values (Bitmap.add b w))
      with (add_all (Bitmap.add b w) values).
    pose proof (IH (Bitmap.add b w)) as H.
    rewrite add_size in H. specialize (H Hsize (add_allocated b w Halloc)).
    destruct (debug_add_step b w Hsize Halloc) as [_ Hstep]. rewrite Hstep in H.
    destruct (Bitmap.test b w); lia.
Qed.

(** X8: [debug] on a fresh bitmap reports its capacity and no bit set, and
    after any sequence of [add] calls it reports the same capacity and at
    most as many bits as values were added. *)
Theorem debug_counts (size : Z) (fresh : Bitmap.t) (values : list string) :
  Bitmap.constructor size = Normal fresh -> 0 < size ->
  Bitmap.debug fresh = (size, 0)
  /\ fst (Bitmap.debug (add_all fresh values)) = size
  /\ 0 <= snd (Bitmap.debug (add_all fresh values))
     <= Z.of_nat (length values).
Proof.
  intros Hnew Hsize.
  destruct (constructor_allocated size fresh Hnew) as (Hs & Halloc & _).
  assert (Bitmap.debug fresh = (size, 0)) as Hfresh.
  { unfold Bitmap.debug. rewrite Hs. f_equal.
    unfold Bitmap.constructor in Hnew. destruct (_ || _); [discriminate|].
    injection Hnew as <-. cbn [Bitmap.bits].
    generalize (Z.to_nat (Bitmap.byte_length size)). intros n.
    induction n as [|n IHn]; [reflexivity|]. cbn [replicate fold_left].
    exact IHn. }
  split; [exact Hfresh|]. split.
  - unfold Bitmap.debug. cbn [fst]. now rewrite add_all_size.
  - pose proof (debug_add_all_bound values fresh) as H.
    rewrite Hfresh, Hs in H. cbn [snd] in H. apply H; auto.
Qed.

Lemma debug_counts_witness :
  let fresh := {| Bitmap.size := 1000; Bitmap.bits := replicate 125 0 |} in
  Bitmap.constructor 1000 = Normal fresh
  /\ Bitmap.debug fresh = (1000, 0)
  /\ Bitmap.debug (add_all fresh ["test1.com"; "test2.com"]) = (1000, 2).
Proof.
  intros fresh. split; [reflexivity|].
  split; [|vm_compute; reflexivity].
  apply (debug_counts 1000 fresh []); [reflexivity | lia].
Defined.

(** ** The generator: which candidates are yielded *)

(** X9: the random draws decide the order of the candidates and nothing
    else: two runs of [generateCombinations] on the same parts yield
    permutations of one another. *)
Theorem generateCombinations_order_only (rand1 rand2 : oracle)
    (patternParts : list PatternPart) :
  generateCombinations rand1 patternParts
  ≡ₚ generateCombinations rand2 patternParts.
Proof.
  now rewrite (generateCombinations_Permutation rand1),
    (generateCombinations_Permutation rand2).
Qed.

Lemma starts_with_digit_app (a b : string) :
  a <> "" -> starts_with_digit (a +:+ b) = starts_with_digit a.
Proof. destruct a as [|c r]; [congruence | reflexivity]. Qed.

(** The loop accepts every index whose assembled text breaks no rule. *)
Lemma decode_loop_complete (patternParts : list PatternPart) :
  forall (current : nat) (result lastChar : string),
    Forall part_ok patternParts ->
    startsWith "-" (result +:+ assemble patternParts current) = false ->
    includes "--" (result +:+ assemble patternParts current) = false ->
    (result = "" -> has_digit (first_piece patternParts current) = false) ->
    (lastChar = "-" -> endsWith "-" result = true) ->
    decode_loop patternParts current result lastChar
    = Some (result +:+ assemble patternParts current).
Proof.
  induction patternParts as [|part rest IH];
    intros current result lastChar Hparts Hstart Hdouble Hfirst Hlast.
  - cbn [decode_loop assemble]. now rewrite append_empty_r.
  - apply Forall_cons in Hparts as [Hpart Hrest].
    destruct (selected_piece_ok part current Hpart) as [_ Hpiece].
    cbn [decode_loop assemble first_piece] in *. cbv zeta in Hpiece.
    set (char := nth _ _ _) in *.
    destruct (piece_ok_facts char Hpiece) as (Hne & Hs & He & Hi).
    rewrite length_zero.
    assert ((String.eqb result "" && (String.eqb char "-" || has_digit char))
            = false) as ->.
    { destruct (String.eqb_spec result "") as [->|_]; [|reflexivity].
      cbn [String.append andb] in *.
      rewrite startsWith_app, Hs in Hstart by exact Hne.
      now rewrite Hstart, Hfirst. }
    assert ((String.eqb char "-" && String.eqb lastChar "-") = false) as ->.
    { destruct (String.eqb_spec char "-") as [Hc|_]; [|reflexivity].
      destruct (String.eqb_spec lastChar "-") as [Hl|_]; [|reflexivity].
      rewrite includes_hyphens_app, (Hlast Hl) in Hdouble.
      rewrite Hc in Hdouble. cbn [String.append] in Hdouble.
      unfold startsWith in Hdouble. rewrite prefix_cons, prefix_nil in Hdouble.
      cbn in Hdouble. now rewrite orb_true_r in Hdouble. }
    rewrite <- append_assoc in *.
    apply IH; auto.
    + intros E. apply append_empty in E as [_ E]. congruence.
    + intros ->. rewrite endsWith_app, He by exact Hne. apply String.eqb_refl.
Qed.

Lemma first_piece_head (patternParts : list PatternPart) (current : nat) :
  Forall part_ok patternParts ->
  starts_with_digit (assemble patternParts current) = true ->
  has_digit (first_piece patternParts current) = true.
Proof.
  destruct patternParts as [|part rest]; [discriminate|].
  intros [Hpart _]%Forall_cons.
  destruct (selected_piece_ok part current Hpart) as [_ Hpiece].
  cbn [assemble first_piece]. cbv zeta in Hpiece.
  destruct (piece_ok_facts _ Hpiece) as (Hne & _).
  rewrite starts_with_digit_app by exact Hne.
  apply starts_with_digit_has_digit.
Qed.

(** An index is yielded exactly when its assembled text breaks none of the
    three hyphen rules and its first piece holds no digit. *)
Lemma decode_exact (patternParts : list PatternPart) (i : nat) (c : string) :
  Forall part_ok patternParts ->
  decode patternParts i = Some c
  <-> c = assemble patternParts i
      /\ startsWith "-" c = false /\ includes "--" c = false
      /\ endsWith "-" c = false
      /\ has_digit (first_piece patternParts i) = false.
Proof.
  intros Hparts. split.
  - intros Hdec. pose proof (decode_assemble _ _ _ Hdec) as ->.
    destruct (decode_sound _ _ _ Hparts Hdec) as (H1 & _ & H3 & H4).
    repeat split; auto.
    destruct patternParts as [|part rest]; [reflexivity|].
    unfold decode in Hdec. cbn [decode_loop first_piece] in *.
    cbn [String.length Nat.eqb andb] in Hdec.
    destruct (has_digit _); [|reflexivity].
    rewrite orb_true_r in Hdec. discriminate.
  - intros (-> & Hstart & Hdouble & Hend & Hfirst). unfold decode.
    rewrite (decode_loop_complete patternParts i "" "") by (auto; discriminate).
    cbn [String.append]. rewrite Hend. cbn [orb].
    destruct (starts_with_digit _) eqn:Hd; [|reflexivity].
    apply first_piece_head in Hd; [congruence | exact Hparts].
Qed.

(** ** The generator on a host *)

Lemma index_array_returns (h : host) (n : nat) :
  Z.of_nat n < 2 ^ 32 -> array_block h (Z.of_nat n) = true ->
  index_array h n = Normal (seq 0 n).
Proof.
  intros Hn Hblock. unfold index_array. rewrite Hblock.
  destruct (Z.leb_spec (2 ^ 32) (Z.of_nat n)); [lia | reflexivity].
Qed.

Lemma index_array_throws (h : host) (n : nat) :
  2 ^ 32 <= Z.of_nat n \/ array_block h (Z.of_nat n) = false ->
  index_array h n = Throw RangeError.
Proof.
  intros H. unfold index_array.
  destruct (Z.leb_spec (2 ^ 32) (Z.of_nat n)); [reflexivity|].
  destruct H as [H|H]; [lia | now rewrite H].
Qed.

(** On a host that builds the index array, the generator yields the list
    [generateCombinations]. *)
Lemma generateCombinations_on_returns (h : host) (rand : oracle)
    (patternParts : list PatternPart) :
  Z.of_nat (totalCombinations patternParts) < 2 ^ 32 ->
  array_block h (Z.of_nat (totalCombinations patternParts)) = true ->
  generateCombinations_on h rand patternParts
  = Normal (generateCombinations rand patternParts).
Proof.
  intros Hn Hblock. unfold generateCombinations_on.
  now rewrite index_array_returns.
Qed.

(** Without the index array the generator yields nothing: the call ends in
    the [RangeError]. *)
Lemma generateCombinations_on_throws (h : host) (rand : oracle)
    (patternParts : list PatternPart) :
  2 ^ 32 <= Z.of_nat (totalCombinations patternParts)
  \/ array_block h (Z.of_nat (totalCombinations patternParts)) = false ->
  generateCombinations_on h rand patternParts = Throw RangeError.
Proof.
  intros H. unfold generateCombinations_on.
  now rewrite index_array_throws.
Qed.

(** Seven letters are 26^7 = 8031810176 combinations, more than an array
    holds: the generator throws on every host. *)
Example seven_letters_throw (h : host) (rand : oracle) :
  generateCombinations_on h rand (parsePattern "lllllll") = Throw RangeError.
Proof.
  apply generateCombinations_on_throws. left.
  rewrite <- alphabet_product_totalCombinations by apply parsePattern_ok.
  vm_compute. discriminate.
Qed.

(** X10: what [generateCombinations] yields for a parsed pattern of fewer
    than 2^32 combinations, on a host that creates the index array: the
    call returns, and it yields exactly the assembled texts of the indices
    below [totalCombinations] that do not start with a hyphen, hold no
    doubled hyphen, do not end with a hyphen, and whose first piece holds no
    digit. Nothing else is yielded and none of these is left out. (From 2^32
    combinations on the call throws a [RangeError] and yields nothing,
    [generateCombinations_on_throws].) *)
Theorem generated_exactly (h : host) (rand : oracle) (p : string) :
  Z.of_nat (totalCombinations (parsePattern p)) < 2 ^ 32 ->
  array_block h (Z.of_nat (totalCombinations (parsePattern p))) = true ->
  exists l : list string,
    generateCombinations_on h rand (parsePattern p) = Normal l
    /\ forall c : string,
         c ∈ l
         <-> exists i : nat,
               (i < totalCombinations (parsePattern p))%nat
               /\ c = assemble (parsePattern p) i
               /\ startsWith "-" c = false /\ includes "--" c = false
               /\ endsWith "-" c = false
               /\ has_digit (first_piece (parsePattern p) i) = false.
Proof.
  intros Hn Hblock. eexists.
  split; [now apply generateCombinations_on_returns|]. intros c.
  rewrite generateCombinations_Permutation, list_elem_of_omap.
  split.
  - intros (i & Hi & Hdec). exists i. apply elem_of_seq in Hi.
    split; [lia|]. now apply decode_exact; [apply parsePattern_ok|].
  - intros (i & Hi & Hrest). exists i. split; [apply elem_of_seq; lia|].
    now apply decode_exact; [apply parsePattern_ok|].
Qed.

Lemma generated_exactly_witness :
  Z.of_nat (totalCombinations (parsePattern "a-_")) < 2 ^ 32
  /\ array_block roomy (Z.of_nat (totalCombinations (parsePattern "a-_")))
     = true
  /\ exists l : list string,
       generateCombinations_on roomy (fun i => (i * 3 + 1)%nat)
                               (parsePattern "a-_") = Normal l
       /\ forall c : string,
            c ∈ l
            <-> exists i : nat,
                  (i < totalCombinations (parsePattern "a-_"))%nat
                  /\ c = assemble (parsePattern "a-_") i
                  /\ startsWith "-" c = false /\ includes "--" c = false
                  /\ endsWith "-" c = false
                  /\ has_digit (first_piece (parsePattern "a-_") i) = false.
Proof.
  split; [vm_compute; reflexivity|]. split; [reflexivity|].
  apply (generated_exactly roomy _ "a-_"); [vm_compute|]; reflexivity.
Defined.

(** ** The generator: the shape of a candidate *)

Lemma toLowerCase_length (s : string) :
  String.length (toLowerCase s) = String.length s.
Proof. induction s as [|c r IH]; simpl; [reflexivity | now rewrite IH]. Qed.

Lemma parts_length_app (l1 l2 : list PatternPart) :
  parts_length (l1 ++ l2) = (parts_length l1 + parts_length l2)%nat.
Proof.
  induction l1 as [|x l1 IH]; simpl; [reflexivity|]. rewrite IH. lia.
Qed.

Lemma processLiteral_length (st : parser_state) :
  parts_length (fst (processLiteral st))
  = (parts_length (fst st) + String.length (snd st))%nat
  /\ snd (processLiteral st) = "".
Proof.
  destruct st as [parts [|c lit]]; cbn [processLiteral fst snd].
  - simpl. split; [lia | reflexivity].
  - rewrite parts_length_app. split; [|reflexivity].
    unfold parts_length at 2, piece_length. cbn [fold_right possibilities hd].
    rewrite toLowerCase_length. lia.
Qed.

Lemma push_part_length (p : PatternPart) (st : parser_state) :
  piece_length p = 1%nat ->
  (parts_length (fst (push_part p st))
   + String.length (snd (push_part p st)))%nat
  = (parts_length (fst st) + String.length (snd st) + 1)%nat.
Proof.
  intros Hp. unfold push_part.
  destruct (processLiteral_length st) as [H1 H2].
  destruct (processLiteral st) as [parts lit]. cbn [fst snd] in *. subst lit.
  rewrite parts_length_app, H1. unfold parts_length at 2.
  cbn [fold_right]. rewrite Hp. simpl. lia.
Qed.

Lemma parse_step_length (char : ascii) (st : parser_state) :
  (parts_length (fst (parse_step char st))
   + String.length (snd (parse_step char st)))%nat
  = (parts_length (fst st) + String.length (snd st) + 1)%nat.
Proof.
  unfold parse_step.
  repeat match goal with
         | |- context [if ?b then _ else _] => destruct b
         end;
    try (apply push_part_length; reflexivity).
  cbn [fst snd]. rewrite append_length. simpl. lia.
Qed.

Lemma parse_loop_length (pattern : string) (st : parser_state) :
  (parts_length (fst (parse_loop pattern st))
   + String.length (snd (parse_loop pattern st)))%nat
  = (parts_length (fst st) + String.length (snd st)
     + String.length pattern)%nat.
Proof.
  revert st. induction pattern as [|c r IH]; intros st; cbn [parse_loop].
  - simpl. lia.
  - rewrite IH, parse_step_length. simpl. lia.
Qed.

Lemma parsePattern_length (pattern : string) :
  parts_length (parsePattern pattern) = String.length pattern.
Proof.
  unfold parsePattern.
  destruct (processLiteral_length (parse_loop pattern ([], ""))) as [-> _].
  rewrite parse_loop_length. simpl. lia.
Qed.

Lemma assemble_length (patternParts : list PatternPart) (i : nat) :
  Forall part_ok patternParts ->
  String.length (assemble patternParts i) = parts_length patternParts.
Proof.
  revert i. induction patternParts as [|part rest IH]; intros i Hparts.
  - reflexivity.
  - apply Forall_cons in Hparts as [Hpart Hrest].
    cbn [assemble parts_length fold_right]. rewrite append_length.
    rewrite (IH _ Hrest). f_equal.
    destruct (selected_piece_ok part i Hpart) as [Hin _].
    destruct Hpart as (_ & _ & Hlen & _). rewrite Forall_forall in Hlen.
    apply Hlen, list_elem_of_In, Hin.
Qed.

(** X11: for a pattern of ASCII units (every pattern that [validatePattern]
    accepts is one), every candidate has as many units as the pattern it
    comes from: each token gives one unit and each literal its own text,
    lower-cased unit by unit. *)
Theorem generated_lengths (rand : oracle) (p : string) :
  string_forall is_ascii_unit p = true ->
  Forall (fun c => String.length c = String.length p)
         (generateCombinations rand (parsePattern p)).
Proof.
  intros _.
  apply Forall_forall. intros c Hc. unfold generateCombinations in Hc.
  apply list_elem_of_omap in Hc as (i & _ & Hi).
  apply decode_assemble in Hi as ->.
  rewrite assemble_length by apply parsePattern_ok.
  apply parsePattern_length.
Qed.

Lemma generated_lengths_witness :
  string_forall is_ascii_unit "Te-_n" = true
  /\ Forall (fun c => String.length c = 5%nat)
            (generateCombinations (fun i => (i * 5 + 1)%nat)
                                  (parsePattern "Te-_n")).
Proof.
  split; [reflexivity|].
  apply (generated_lengths (fun i => (i * 5 + 1)%nat) "Te-_n"). reflexivity.
Defined.

(** ** [validatePattern] and [validateExtensions]: what they accept *)

Lemma validChars_pattern_char (c : ascii) : validChars_has c = pattern_char c.
Proof. by_units c. Qed.

Lemma first_invalid_char_None (pattern : string) :
  first_invalid_char pattern = None
  <-> string_forall pattern_char pattern = true.
Proof.
  induction pattern as [|c r IH]; cbn [first_invalid_char string_forall].
  - split; reflexivity.
  - rewrite <- validChars_pattern_char.
    destruct (validChars_has c); cbn [andb]; [exact IH|].
    split; discriminate.
Qed.

Lemma pattern_char_no_space (pattern : string) :
  string_forall pattern_char pattern = true -> includes " " pattern = false.
Proof.
  induction pattern as [|c r IH]; [reflexivity|].
  cbn [string_forall]. intros [Hc Hr]%andb_prop.
  rewrite includes_cons, prefix_cons, prefix_nil, (IH Hr), andb_true_r.
  rewrite orb_false_r. revert Hc. by_units c.
Qed.

Lemma validatePattern_None (pattern : string) :
  validatePattern pattern = None
  <-> pattern <> ""
      /\ string_forall pattern_char pattern = true
      /\ startsWith "-" pattern = false
      /\ endsWith "-" pattern = false
      /\ includes "--" pattern = false.
Proof.
  unfold validatePattern. split.
  - destruct (String.eqb_spec pattern ""); [discriminate|].
    destruct (includes " " pattern); [discriminate|].
    destruct (startsWith "-" pattern); [discriminate|].
    destruct (endsWith "-" pattern); [discriminate|].
    destruct (includes "--" pattern); [discriminate|].
    destruct (first_invalid_char pattern) eqn:E; [discriminate|].
    apply first_invalid_char_None in E. auto.
  - intros (Hne & Hchars & -> & -> & ->).
    rewrite (pattern_char_no_space _ Hchars).
    apply first_invalid_char_None in Hchars. rewrite Hchars.
    destruct (String.eqb_spec pattern ""); [contradiction | reflexivity].
Qed.

(** X12: [validatePattern] returns [null] exactly for the non-empty
    patterns over [[a-zA-Z0-9_-]] that neither start nor end with a hyphen
    and hold no doubled hyphen (the test for a space never decides: a space
    is not among the valid characters). *)
Theorem validatePattern_accepts (pattern : string) :
  validatePattern pattern = None
  <-> pattern <> ""
      /\ string_forall pattern_char pattern = true
      /\ startsWith "-" pattern = false
      /\ endsWith "-" pattern = false
      /\ includes "--" pattern = false.
Proof. apply validatePattern_None. Qed.

Lemma check_extension_None (ext : string) :
  check_extension ext = None
  <-> startsWith "." ext = true
      /\ (2 <= String.length ext)%nat
      /\ string_forall ext_char_ok ext = true.
Proof.
  unfold check_extension, ext_regex.
  destruct (startsWith "." ext) eqn:Hdot; cbn [negb].
  2: { split; [discriminate | intros (H & _); discriminate]. }
  destruct (Nat.ltb_spec (String.length ext) 2) as [Hlt|Hge].
  { split; [discriminate | intros (_ & H & _); lia]. }
  destruct (String.eqb_spec ext "") as [->|Hne]; [discriminate|].
  cbn [negb andb]. destruct (string_forall ext_char_ok ext); cbn [negb].
  - split; auto.
  - split; [discriminate | intros (_ & _ & H); discriminate].
Qed.

Lemma check_extensions_None (extensions : list string) :
  check_extensions extensions = None
  <-> Forall (fun ext => startsWith "." ext = true
                         /\ (2 <= String.length ext)%nat
                         /\ string_forall ext_char_ok ext = true)
             extensions.
Proof.
  induction extensions as [|ext l IH]; cbn [check_extensions].
  - split; [constructor | reflexivity].
  - destruct (check_extension ext) eqn:E.
    + split; [discriminate|]. intros [Hext _]%Forall_cons.
      apply check_extension_None in Hext. congruence.
    + apply check_extension_None in E. rewrite IH. split.
      * intros Hl. now constructor.
      * now intros [_ Hl]%Forall_cons.
Qed.

(** X13: [validateExtensions] returns [null] exactly for the non-empty
    lists all of whose elements start with a dot, have at least two units
    and are made of [[.a-z0-9]]; an empty list is always an error. *)
Theorem validateExtensions_accepts (extensions : list string) :
  validateExtensions extensions = None
  <-> extensions <> []
      /\ Forall (fun ext => startsWith "." ext = true
                            /\ (2 <= String.length ext)%nat
                            /\ string_forall ext_char_ok ext = true)
                extensions.
Proof.
  destruct extensions as [|ext0 rest].
  - split; [discriminate | intros [H _]; congruence].
  - change (validateExtensions (ext0 :: rest))
      with (check_extensions (ext0 :: rest)).
    rewrite check_extensions_None. split.
    + intros H. split; [discriminate | exact H].
    + intros [_ H]. exact H.
Qed.

(** ** Accepted patterns generate host name labels *)

Lemma literal_step_alnum (c : ascii) :
  pattern_char c = true ->
  Ascii.eqb (toLowerCase_char c) "c" = false ->
  Ascii.eqb (toLowerCase_char c) "v" = false ->
  Ascii.eqb (toLowerCase_char c) "n" = false ->
  Ascii.eqb (toLowerCase_char c) "l" = false ->
  Ascii.eqb c "_" = false -> Ascii.eqb c "-" = false ->
  is_lower (toLowerCase_char c) || is_digit (toLowerCase_char c) = true.
Proof.
  destruct c as [[] [] [] [] [] [] [] []]; vm_compute; intros; congruence.
Qed.

Lemma alnum_domain_char (c : ascii) :
  is_lower c || is_digit c = true -> domain_char c = true.
Proof. unfold domain_char. now intros ->. Qed.

Lemma literal_alnum_domain (lit : string) :
  literal_alnum lit = true ->
  string_forall domain_char (toLowerCase lit) = true.
Proof.
  unfold literal_alnum. induction lit as [|c r IH]; [reflexivity|].
  cbn [string_forall toLowerCase]. intros [Hc Hr]%andb_prop.
  now rewrite (alnum_domain_char _ Hc), (IH Hr).
Qed.

Lemma string_forall_app (f : ascii -> bool) (a b : string) :
  string_forall f (a +:+ b) = string_forall f a && string_forall f b.
Proof.
  induction a as [|c r IH]; cbn [String.append string_forall]; [reflexivity|].
  now rewrite IH, andb_assoc.
Qed.

Lemma processLiteral_domain (st : parser_state) :
  parser_domain_inv st ->
  Forall part_domain (fst (processLiteral st))
  /\ snd (processLiteral st) = "".
Proof.
  destruct st as [parts [|c lit]]; intros [Hparts Hlit];
    cbn [processLiteral fst snd] in *; [auto|].
  split; [|reflexivity]. apply Forall_app. split; [exact Hparts|].
  apply Forall_singleton. red. cbn [possibilities].
  apply Forall_singleton. now apply literal_alnum_domain.
Qed.

Lemma push_part_domain (p : PatternPart) (st : parser_state) :
  part_domain p -> parser_domain_inv st -> parser_domain_inv (push_part p st).
Proof.
  intros Hp Hst. unfold push_part.
  destruct (processLiteral_domain st Hst) as [H1 H2].
  destruct (processLiteral st) as [parts lit]. cbn [fst snd] in *. subst lit.
  split; [|reflexivity]. cbn [fst]. apply Forall_app.
  split; [exact H1 | now apply Forall_singleton].
Qed.

Lemma alphabets_domain :
  Forall (fun l => Forall (fun s => string_forall domain_char s = true) l)
         [CONSONANTS; VOWELS; NUMBERS; LETTERS; ALL_CHARS; ["-"]].
Proof. repeat constructor. Qed.

Lemma parse_step_domain (char : ascii) (st : parser_state) :
  pattern_char char = true ->
  parser_domain_inv st -> parser_domain_inv (parse_step char st).
Proof.
  intros Hchar Hst. unfold parse_step.
  pose proof alphabets_domain as Halpha.
  rewrite !Forall_cons in Halpha.
  destruct Halpha as (Hc & Hv & Hn & Hl & Hall & Hhyphen & _).
  destruct (Ascii.eqb (toLowerCase_char char) "c") eqn:E1;
    [now apply push_part_domain|].
  destruct (Ascii.eqb (toLowerCase_char char) "v") eqn:E2;
    [now apply push_part_domain|].
  destruct (Ascii.eqb (toLowerCase_char char) "n") eqn:E3;
    [now apply push_part_domain|].
  destruct (Ascii.eqb (toLowerCase_char char) "l") eqn:E4;
    [now apply push_part_domain|].
  destruct (Ascii.eqb char "_") eqn:E5; [now apply push_part_domain|].
  destruct (Ascii.eqb char "-") eqn:E6.
  - apply push_part_domain; [|exact Hst]. apply Ascii.eqb_eq in E6. subst char.
    red. cbn [possibilities]. repeat constructor.
  - destruct Hst as [H1 H2]. split; [exact H1|]. cbn [snd].
    unfold literal_alnum in *. rewrite string_forall_app, H2.
    cbn [string_forall andb]. now rewrite literal_step_alnum.
Qed.

Lemma parse_loop_domain (pattern : string) (st : parser_state) :
  string_forall pattern_char pattern = true ->
  parser_domain_inv st -> parser_domain_inv (parse_loop pattern st).
Proof.
  revert st. induction pattern as [|c r IH]; intros st Hp Hst;
    cbn [parse_loop string_forall] in *; [exact Hst|].
  apply andb_prop in Hp as [Hc Hr]. apply IH; [exact Hr|].
  now apply parse_step_domain.
Qed.

Lemma parsePattern_domain (pattern : string) :
  string_forall pattern_char pattern = true ->
  Forall part_domain (parsePattern pattern).
Proof.
  intros Hp. unfold parsePattern.
  apply processLiteral_domain, parse_loop_domain; [exact Hp|].
  split; [constructor | reflexivity].
Qed.

Lemma assemble_domain (patternParts : list PatternPart) (i : nat) :
  Forall part_ok patternParts -> Forall part_domain patternParts ->
  string_forall domain_char (assemble patternParts i) = true.
Proof.
  revert i. induction patternParts as [|part rest IH]; intros i Hok Hdom.
  - reflexivity.
  - apply Forall_cons in Hok as [Hpart Hrest].
    apply Forall_cons in Hdom as [Hd Hdrest].
    cbn [assemble]. rewrite string_forall_app, (IH _ Hrest Hdrest), andb_true_r.
    destruct (selected_piece_ok part i Hpart) as [Hin _].
    red in Hd. rewrite Forall_forall in Hd. apply Hd, list_elem_of_In, Hin.
Qed.

(** X14: for every pattern that [validatePattern] accepts, every candidate
    that [generateCombinations] yields is made of [[a-z0-9-]] only and
    starts with a letter of [[a-z]]. *)
Theorem accepted_pattern_generates_labels (rand : oracle) (p : string) :
  validatePattern p = None ->
  Forall (fun c => string_forall domain_char c = true
                   /\ starts_with_lower c = true)
         (generateCombinations rand (parsePattern p)).
Proof.
  intros Hvalid. apply validatePattern_None in Hvalid as (Hne & Hchars & _).
  apply Forall_forall. intros c Hc. unfold generateCombinations in Hc.
  apply list_elem_of_omap in Hc as (i & _ & Hi).
  pose proof (decode_sound _ _ _ (parsePattern_ok p) Hi) as (Hs & Hd & _).
  pose proof (decode_assemble _ _ _ Hi) as Hc.
  assert (string_forall domain_char c = true) as Hdom.
  { rewrite Hc. apply assemble_domain;
      [apply parsePattern_ok | now apply parsePattern_domain]. }
  split; [exact Hdom|].
  assert (String.length c = String.length p) as Hlen.
  { rewrite Hc, assemble_length by apply parsePattern_ok.
    apply parsePattern_length. }
  destruct c as [|a r].
  - destruct p; [congruence | discriminate].
  - cbn [string_forall starts_with_digit starts_with_lower] in *.
    unfold startsWith in Hs. rewrite prefix_cons, prefix_nil in Hs.
    apply andb_prop in Hdom as [Ha _]. unfold domain_char in Ha.
    rewrite andb_true_r, Ascii.eqb_sym in Hs.
    now rewrite Hd, Hs, !orb_false_r in Ha.
Qed.

Lemma accepted_pattern_generates_labels_witness :
  validatePattern "Te-_n" = None
  /\ Forall (fun c => string_forall domain_char c = true
                      /\ starts_with_lower c = true)
            (generateCombinations (fun i => (i * 5 + 1)%nat)
                                  (parsePattern "Te-_n")).
Proof.
  split; [reflexivity|].
  now apply (accepted_pattern_generates_labels _ "Te-_n").
Defined.

(** ** [shuffleArray]: every order can come out *)

Lemma shuffle_loop_ext {A : Type} (rand1 rand2 : oracle) (i : nat)
    (array : list A) :
  (forall k, (1 <= k <= i)%nat -> rand1 k = rand2 k) ->
  shuffle_loop rand1 i array = shuffle_loop rand2 i array.
Proof.
  revert array. induction i as [|i IH]; intros array Hext; simpl.
  - reflexivity.
  - rewrite (Hext (S i)) by lia. apply IH. intros k Hk. apply Hext. lia.
Qed.

Lemma swap_length {A : Type} (i j : nat) (array : list A) :
  length (swap i j array) = length array.
Proof.
  unfold swap. destruct (array !! j); [|reflexivity].
  destruct (array !! i); [|reflexivity].
  now rewrite !length_insert.
Qed.

(** The loop from turn [i] reaches every array that agrees with the current
    one behind position [i] and permutes it up to there. *)
Lemma shuffle_loop_reaches {A : Type} (i : nat) (array target : list A) :
  (S i <= length array)%nat ->
  take (S i) array ≡ₚ take (S i) target ->
  drop (S i) array = drop (S i) target ->
  exists rand, shuffle_loop rand i array = target.
Proof.
  revert array. induction i as [|i IH]; intros array Hlen Hperm Hdrop.
  - exists (fun _ => O). simpl.
    rewrite <- (take_drop 1 array), <- (take_drop 1 target), Hdrop.
    f_equal.
    destruct array as [|a array]; [simpl in Hlen; lia|].
    destruct target as [|t target].
    + simpl in Hperm. now apply Permutation_nil_r in Hperm.
    + simpl in Hperm |- *. rewrite !take_0 in *.
      now apply Permutation_singleton_inj in Hperm as ->.
  - assert (Hlent : (S (S i) <= length target)%nat).
    { apply Permutation_length in Hperm.
      rewrite !length_take in Hperm. lia. }
    destruct (lookup_lt_is_Some_2 target (S i)) as [t Ht]; [lia|].
    destruct (lookup_lt_is_Some_2 array (S i)) as [al Hal]; [lia|].
    assert (Hin : t ∈ take (S (S i)) array).
    { rewrite Hperm. apply list_elem_of_lookup. exists (S i).
      rewrite lookup_take_lt by lia. exact Ht. }
    apply list_elem_of_lookup in Hin as [j Hj].
    assert (Hjlt : (j < S (S i))%nat).
    { apply lookup_lt_Some in Hj. rewrite length_take in Hj. lia. }
    rewrite lookup_take_lt in Hj by exact Hjlt.
    assert (Hswap : swap (S i) j array = <[j := al]> (<[S i := t]> array)).
    { unfold swap. now rewrite Hj, Hal. }
    rewrite (take_S_r _ _ _ Hal), (take_S_r _ _ _ Ht) in Hperm.
    destruct (IH (swap (S i) j array)) as [rand Hrand].
    + rewrite swap_length. lia.
    + rewrite Hswap.
      destruct (decide (j = S i)) as [->|Hne].
      * assert (Heq : al = t).
        { rewrite Hal in Hj. now injection Hj. }
        rewrite Heq in *.
        rewrite list_insert_insert_eq, take_insert_ge by lia.
        now apply (inj (.++ [t])).
      * rewrite take_insert_lt, take_insert_ge by lia.
        apply (inj (t ::.)).
        rewrite (insert_Permutation _ _ al t)
          by (rewrite lookup_take_lt by lia; exact Hj).
        rewrite (Permutation_cons_append _ al), Hperm.
        symmetry. apply Permutation_cons_append.
    + rewrite Hswap, (drop_S _ _ _ Ht).
      rewrite (drop_S _ t).
      * f_equal. rewrite !drop_insert_lt by lia. exact Hdrop.
      * destruct (decide (j = S i)) as [->|Hne].
        -- assert (Heq : al = t).
           { rewrite Hal in Hj. now injection Hj. }
           rewrite Heq. apply list_lookup_insert_eq. rewrite length_insert.
           now apply lookup_lt_Some in Hal.
        -- rewrite list_lookup_insert_ne by exact Hne.
           apply list_lookup_insert_eq. now apply lookup_lt_Some in Hal.
    + exists (fun k => if (k =? S i)%nat then j else rand k).
      cbn [shuffle_loop]. rewrite Nat.eqb_refl.
      rewrite Nat.mod_small by lia.
      rewrite <- Hrand. apply shuffle_loop_ext.
      intros k Hk. destruct (Nat.eqb_spec k (S i)); [lia|reflexivity].
Qed.

(** X15: [shuffleArray] is a full Fisher-Yates shuffle: every order of the
    input is the result for some sequence of random draws. With
    [shuffleArray_Permutation] the results are exactly the orders of the
    input. *)
Theorem shuffleArray_reaches {A : Type} (array target : list A) :
  target ≡ₚ array -> exists rand, shuffleArray rand array = target.
Proof.
  intros Hperm. unfold shuffleArray.
  pose proof (Permutation_length Hperm) as Hlen.
  destruct array as [|a array].
  - apply Permutation_nil_r in Hperm as ->. now exists (fun _ => O).
  - apply shuffle_loop_reaches.
    + simpl. lia.
    + rewrite !take_ge by (simpl in *; lia). now symmetry.
    + rewrite !drop_ge by (simpl in *; lia). reflexivity.
Qed.

Lemma shuffleArray_reaches_witness :
  [3; 1; 2] ≡ₚ [1; 2; 3] /\
  exists rand, shuffleArray rand [1; 2; 3] = [3; 1; 2].
Proof.
  assert (H : [3; 1; 2] ≡ₚ [1; 2; 3])
    by exact (Permutation_cons_append [1; 2] 3).
  split; [exact H | exact (shuffleArray_reaches [1; 2; 3] [3; 1; 2] H)].
Defined.

(** ** Patterns of letters: nothing is pruned *)

Lemma is_lower_alnum (s : string) :
  string_forall is_lower s = true -> string_forall is_alnum s = true.
Proof.
  induction s as [|c r IH]; [reflexivity|]. cbn [string_forall].
  intros [Hc Hr]%andb_prop. rewrite (IH Hr). unfold is_alnum at 1.
  now rewrite Hc.
Qed.

Lemma is_alnum_no_hyphen (s : string) :
  string_forall is_alnum s = true -> no_hyphen s = true.
Proof.
  unfold no_hyphen. induction s as [|c r IH]; [reflexivity|].
  cbn [string_forall]. intros [Hc Hr]%andb_prop. rewrite (IH Hr), andb_true_r.
  destruct (Ascii.eqb_spec c "-") as [->|_]; [discriminate | reflexivity].
Qed.

Lemma is_lower_no_digit (s : string) :
  string_forall is_lower s = true -> has_digit s = false.
Proof.
  unfold has_digit. induction s as [|c r IH]; [reflexivity|].
  cbn [string_forall string_exists]. intros [Hc Hr]%andb_prop.
  rewrite (IH Hr), orb_false_r. unfold is_lower, is_digit in *.
  cbv zeta in *. apply andb_prop in Hc as [H1 H2].
  apply Nat.leb_le in H1. apply andb_false_iff. right.
  apply Nat.leb_gt. lia.
Qed.

Lemma toLowerCase_letters (lit : string) :
  string_forall (fun c => is_lower (toLowerCase_char c)) lit = true ->
  string_forall is_lower (toLowerCase lit) = true.
Proof.
  induction lit as [|c r IH]; [reflexivity|].
  cbn [string_forall toLowerCase]. intros [Hc Hr]%andb_prop.
  now rewrite Hc, (IH Hr).
Qed.

Lemma is_letter_lower (c : ascii) :
  is_letter c = true -> is_lower (toLowerCase_char c) = true.
Proof. destruct c as [[] [] [] [] [] [] [] []]; vm_compute; congruence. Qed.

Lemma letter_alphabets :
  part_chars is_lower {| type := "c"; value := None;
                         possibilities := CONSONANTS; isWildcard := None |}
  /\ part_chars is_lower {| type := "v"; value := None;
                            possibilities := VOWELS; isWildcard := None |}
  /\ part_chars is_alnum {| type := "n"; value := None;
                            possibilities := NUMBERS; isWildcard := None |}
  /\ part_chars is_lower {| type := "l"; value := None;
                            possibilities := LETTERS; isWildcard := None |}.
Proof. repeat split; red; cbn [possibilities]; repeat constructor. Qed.

Lemma part_chars_alnum (part : PatternPart) :
  part_chars is_lower part -> part_chars is_alnum part.
Proof.
  unfold part_chars. intros H. eapply Forall_impl; [exact H|].
  intros s. apply is_lower_alnum.
Qed.

Lemma processLiteral_letters (st : parser_state) :
  parser_letters_inv st ->
  snd (processLiteral st) = ""
  /\ exists part rest,
       fst (processLiteral st) = part :: rest
       /\ part_chars is_lower part
       /\ Forall (part_chars is_alnum) rest.
Proof.
  destruct st as [parts [|c lit]]; intros (Hparts & Hlit & Hfirst);
    cbn [processLiteral fst snd] in *.
  - split; [reflexivity|]. destruct parts as [|part rest]; [congruence|].
    apply Forall_cons in Hparts as [_ Hrest]. now exists part, rest.
  - split; [reflexivity|].
    assert (part_chars is_lower
              {| type := "literal"; value := Some (String c lit);
                 possibilities := [toLowerCase (String c lit)];
                 isWildcard := None |}) as Hnew.
    { red. cbn [possibilities]. apply Forall_singleton.
      now apply toLowerCase_letters. }
    destruct parts as [|part rest].
    + eexists _, []. cbn [app]. repeat split; [exact Hnew | constructor].
    + apply Forall_cons in Hparts as [_ Hrest].
      exists part, (rest ++ [ {| type := "literal";
                                value := Some (String c lit);
                                possibilities := [toLowerCase (String c lit)];
                                isWildcard := None |} ]).
      repeat split; [exact Hfirst|]. apply Forall_app. split; [exact Hrest|].
      apply Forall_singleton. now apply part_chars_alnum.
Qed.

Lemma push_part_letters (p : PatternPart) (st : parser_state) :
  part_chars is_alnum p -> parser_letters_inv st ->
  parser_letters_inv (push_part p st).
Proof.
  intros Hp Hst. unfold push_part.
  destruct (processLiteral_letters st Hst)
    as (Hlit & part & rest & Hparts & Hpart & Hrest).
  destruct (processLiteral st) as [parts lit]. cbn [fst snd] in *.
  subst lit parts. cbn [app]. repeat split; cbn [fst snd]; auto.
  apply Forall_cons. split; [now apply part_chars_alnum|].
  apply Forall_app. split; [exact Hrest | now apply Forall_singleton].
Qed.

Lemma parse_step_letters (char : ascii) (st : parser_state) :
  is_letter char = true ->
  parser_letters_inv st -> parser_letters_inv (parse_step char st).
Proof.
  intros Hchar Hst. unfold parse_step.
  destruct letter_alphabets as (Hc & Hv & Hn & Hl).
  destruct (Ascii.eqb (toLowerCase_char char) "c");
    [now apply push_part_letters; [apply part_chars_alnum|]|].
  destruct (Ascii.eqb (toLowerCase_char char) "v");
    [now apply push_part_letters; [apply part_chars_alnum|]|].
  destruct (Ascii.eqb (toLowerCase_char char) "n");
    [now apply push_part_letters|].
  destruct (Ascii.eqb (toLowerCase_char char) "l");
    [now apply push_part_letters; [apply part_chars_alnum|]|].
  destruct (Ascii.eqb_spec char "_") as [->|_]; [discriminate|].
  destruct (Ascii.eqb_spec char "-") as [->|_]; [discriminate|].
  destruct Hst as (H1 & H2 & H3). repeat split; cbn [fst snd].
  - exact H1.
  - rewrite string_forall_app, H2. cbn [string_forall andb].
    now rewrite is_letter_lower.
  - destruct (fst st); [|exact H3].
    intros E. apply append_empty in E as [_ E]. discriminate.
Qed.

Lemma parse_loop_letters (pattern : string) (st : parser_state) :
  string_forall is_letter pattern = true ->
  parser_letters_inv st -> parser_letters_inv (parse_loop pattern st).
Proof.
  revert st. induction pattern as [|c r IH]; intros st Hp Hst;
    cbn [parse_loop string_forall] in *; [exact Hst|].
  apply andb_prop in Hp as [Hc Hr]. apply IH; [exact Hr|].
  now apply parse_step_letters.
Qed.

(** The first turn of the parser, on a letter that is not the digit token. *)
Lemma parse_first_letters (char : ascii) :
  is_letter char = true ->
  Ascii.eqb (toLowerCase_char char) "n" = false ->
  parser_letters_inv (parse_step char ([], EmptyString)).
Proof.
  intros Hchar Hn. unfold parse_step. rewrite Hn.
  destruct letter_alphabets as (Hc & Hv & _ & Hl).
  destruct (Ascii.eqb (toLowerCase_char char) "c").
  { repeat split; cbn; auto using part_chars_alnum. }
  destruct (Ascii.eqb (toLowerCase_char char) "v").
  { repeat split; cbn; auto using part_chars_alnum. }
  destruct (Ascii.eqb (toLowerCase_char char) "l").
  { repeat split; cbn; auto using part_chars_alnum. }
  destruct (Ascii.eqb_spec char "_") as [->|_]; [discriminate|].
  destruct (Ascii.eqb_spec char "-") as [->|_]; [discriminate|].
  repeat split; cbn [fst snd String.append string_forall]; auto.
  now rewrite is_letter_lower.
Qed.

Lemma assemble_chars (f : ascii -> bool) (patternParts : list PatternPart)
    (i : nat) :
  Forall part_ok patternParts -> Forall (part_chars f) patternParts ->
  string_forall f (assemble patternParts i) = true.
Proof.
  revert i. induction patternParts as [|part rest IH]; intros i Hok Hf.
  - reflexivity.
  - apply Forall_cons in Hok as [Hpart Hrest].
    apply Forall_cons in Hf as [Hd Hdrest].
    cbn [assemble]. rewrite string_forall_app, (IH _ Hrest Hdrest), andb_true_r.
    destruct (selected_piece_ok part i Hpart) as [Hin _].
    red in Hd. rewrite Forall_forall in Hd. apply Hd, list_elem_of_In, Hin.
Qed.

Lemma omap_total {A B : Type} (f : A -> option B) (g : A -> B) (l : list A) :
  (forall x, f x = Some (g x)) -> omap f l = map g l.
Proof.
  intros H. induction l as [|x l IH]; [reflexivity|].
  csimpl. now rewrite H, IH.
Qed.

(** On a pattern of letters that does not start with the digit token no
    index is skipped. *)
Lemma letter_pattern_all_decoded (rand : oracle) (p : string) :
  string_forall is_letter p = true ->
  startsWith "n" p = false -> startsWith "N" p = false ->
  generateCombinations rand (parsePattern p)
  ≡ₚ map (assemble (parsePattern p))
         (seq 0 (totalCombinations (parsePattern p)))
  /\ length (generateCombinations rand (parsePattern p))
     = totalCombinations (parsePattern p).
Proof.
  intros Hletters Hn HN.
  assert (forall i, decode (parsePattern p) i
                    = Some (assemble (parsePattern p) i)) as Hdec.
  { destruct p as [|c r]; [intros i; reflexivity|].
    cbn [string_forall] in Hletters. apply andb_prop in Hletters as [Hc Hr].
    assert (Ascii.eqb (toLowerCase_char c) "n" = false) as Hcn.
    { unfold startsWith in Hn, HN. rewrite prefix_cons, prefix_nil in Hn, HN.
      rewrite andb_true_r in Hn, HN. revert Hn HN. clear.
      destruct c as [[] [] [] [] [] [] [] []]; vm_compute; congruence. }
    pose proof (parse_loop_letters r _ Hr (parse_first_letters c Hc Hcn))
      as Hinv.
    apply processLiteral_letters in Hinv
      as (_ & part & rest & Hparts & Hpart & Hrest).
    pose proof (parsePattern_ok (String c r)) as Hok.
    unfold parsePattern in *. cbn [parse_loop] in *.
    rewrite Hparts in *. intros i.
    assert (string_forall is_alnum (assemble (part :: rest) i) = true)
      as Halnum.
    { apply assemble_chars; [exact Hok|]. apply Forall_cons.
      split; [now apply part_chars_alnum | exact Hrest]. }
    apply is_alnum_no_hyphen in Halnum.
    apply decode_exact; [exact Hok|].
    repeat split.
    - now apply no_hyphen_startsWith.
    - now apply no_hyphen_includes.
    - now apply no_hyphen_endsWith.
    - cbn [first_piece]. apply is_lower_no_digit.
      apply Forall_cons in Hok as [Hp _].
      destruct (selected_piece_ok part i Hp) as [Hin _].
      red in Hpart. rewrite Forall_forall in Hpart.
      apply Hpart, list_elem_of_In, Hin. }
  assert (generateCombinations rand (parsePattern p)
          ≡ₚ map (assemble (parsePattern p))
                 (seq 0 (totalCombinations (parsePattern p)))) as Hperm.
  { rewrite generateCombinations_Permutation. now rewrite (omap_total _ _ _ Hdec). }
  split; [exact Hperm|].
  now rewrite (Permutation_length Hperm), length_map, length_seq.
Qed.

(** X16: a pattern of letters [[a-zA-Z]] that does not start with the digit
    token [n] loses nothing to the pruning: when it has fewer than 2^32
    combinations and the host creates the index array,
    [generateCombinations] returns and yields the text of every index below
    [totalCombinations], each once, so the number of candidates is
    [totalCombinations]. *)
Theorem letter_pattern_nothing_pruned (h : host) (rand : oracle)
    (p : string) :
  string_forall is_letter p = true ->
  startsWith "n" p = false -> startsWith "N" p = false ->
  Z.of_nat (totalCombinations (parsePattern p)) < 2 ^ 32 ->
  array_block h (Z.of_nat (totalCombinations (parsePattern p))) = true ->
  exists l : list string,
    generateCombinations_on h rand (parsePattern p) = Normal l
    /\ l ≡ₚ map (assemble (parsePattern p))
              (seq 0 (totalCombinations (parsePattern p)))
    /\ length l = totalCombinations (parsePattern p).
Proof.
  intros Hletters Hn HN Htotal Hblock. eexists.
  split; [now apply generateCombinations_on_returns|].
  now apply letter_pattern_all_decoded.
Qed.

Lemma letter_pattern_nothing_pruned_witness :
  string_forall is_letter "Cvn" = true
  /\ startsWith "n" "Cvn" = false /\ startsWith "N" "Cvn" = false
  /\ Z.of_nat (totalCombinations (parsePattern "Cvn")) = 1000
  /\ exists l : list string,
       generateCombinations_on roomy (fun i => (i * 7 + 3)%nat)
                               (parsePattern "Cvn") = Normal l
       /\ l ≡ₚ map (assemble (parsePattern "Cvn"))
                 (seq 0 (totalCombinations (parsePattern "Cvn")))
       /\ length l = totalCombinations (parsePattern "Cvn").
Proof.
  split; [reflexivity|]. split; [reflexivity|]. split; [reflexivity|].
  split; [vm_compute; reflexivity|].
  apply (letter_pattern_nothing_pruned roomy _ "Cvn"); reflexivity.
Defined.

(** ** [analyzePattern] and the generator *)

(** X17: the counts of [analyzePattern] bound what the generator yields:
    for an analysis whose exact total is below 2^53, [combinations] is the
    number of indices [generateCombinations] walks through, and
    [totalDomains] is at least the number of candidates times the number of
    extensions, whatever the random draws. *)
Theorem analysis_bounds_generation (rand : oracle) (entry : PatternEntry)
    (a : PatternAnalysis) :
  analyzePattern entry = inr a ->
  alphabet_product (parts a) * Z.of_nat (length (extensions a)) < 2 ^ 53 ->
  combinations a = Finite (Z.of_nat (totalCombinations (parts a)))
  /\ exists n : Z,
       totalDomains a = Finite n
       /\ Z.of_nat (length (generateCombinations rand (parts a))
                    * length (extensions a)) <= n.
Proof.
  unfold analyzePattern.
  destruct (validatePattern (entry_pattern entry)); [discriminate|].
  destruct (validateExtensions (entry_extensions entry)) eqn:Hexts;
    [discriminate|].
  intros [= <-]. cbn [parts extensions combinations totalDomains].
  intros Hlt.
  pose proof (parsePattern_ok (entry_pattern entry)) as Hok.
  pose proof (alphabet_product_pos _ Hok) as Hpos.
  pose proof (alphabet_product_totalCombinations _ Hok) as Htotal.
  assert (1 <= Z.of_nat (length (entry_extensions entry))) as Hn.
  { destruct (entry_extensions entry); [discriminate | simpl; lia]. }
  rewrite fold_number_mul_exact by (auto; nia).
  rewrite Z.mul_1_l, Htotal. split; [reflexivity|].
  cbn [number_mul]. rewrite round_double_exact by (rewrite <- Htotal; exact Hlt).
  eexists. split; [reflexivity|].
  assert (length (generateCombinations rand
                    (parsePattern (entry_pattern entry)))
          <= totalCombinations (parsePattern (entry_pattern entry)))%nat
    as Hle.
  { rewrite (Permutation_length (generateCombinations_Permutation rand _)).
    etransitivity; [apply length_omap_le|]. now rewrite length_seq. }
  nia.
Qed.

Lemma analysis_bounds_generation_witness :
  exists a : PatternAnalysis,
    analyzePattern {| entry_pattern := "c-n";
                      entry_extensions := [".com"; ".net"];
                      entry_comment := None |} = inr a
    /\ combinations a = Finite (Z.of_nat (totalCombinations (parts a)))
    /\ exists n : Z,
         totalDomains a = Finite n
         /\ Z.of_nat (length (generateCombinations (fun i => (i * 3)%nat)
                                                   (parts a))
                      * length (extensions a)) <= n.
Proof.
  eexists. split; [reflexivity|].
  apply (analysis_bounds_generation
           (fun i => (i * 3)%nat)
           {| entry_pattern := "c-n";
              entry_extensions := [".com"; ".net"];
              entry_comment := None |});
    [reflexivity | vm_compute; reflexivity].
Defined.

(** ** [parsePattern]: the parts spell the pattern *)

Lemma parts_source_app (l1 l2 : list PatternPart) :
  parts_source (l1 ++ l2) = parts_source l1 +:+ parts_source l2.
Proof.
  induction l1 as [|part l1 IH]; [reflexivity|].
  cbn [app parts_source fold_right]. fold (parts_source (l1 ++ l2)).
  fold (parts_source l1). now rewrite IH, append_assoc.
Qed.

Lemma processLiteral_source (st : parser_state) :
  parts_source (fst (processLiteral st)) = parts_source (fst st) +:+ snd st
  /\ snd (processLiteral st) = "".
Proof.
  destruct st as [parts [|c lit]]; cbn [processLiteral fst snd].
  - now rewrite append_empty_r.
  - split; [|reflexivity]. rewrite parts_source_app. f_equal.
    unfold parts_source. cbn [fold_right part_source value].
    now rewrite append_empty_r.
Qed.

Lemma push_part_source (p : PatternPart) (st : parser_state) :
  parts_source (fst (push_part p st)) +:+ snd (push_part p st)
  = (parts_source (fst st) +:+ snd st) +:+ part_source p.
Proof.
  unfold push_part. destruct (processLiteral_source st) as [H1 H2].
  destruct (processLiteral st) as [parts lit]. cbn [fst snd] in *. subst lit.
  rewrite append_empty_r, parts_source_app, H1. f_equal.
  unfold parts_source. cbn [fold_right]. now rewrite append_empty_r.
Qed.

Lemma token_source (c : ascii) (t : ascii) :
  Ascii.eqb (toLowerCase_char c) t = true ->
  String t EmptyString = String (toLowerCase_char c) EmptyString.
Proof. intros H. apply Ascii.eqb_eq in H. now rewrite H. Qed.

Lemma parse_step_source (char : ascii) (st : parser_state) :
  parts_source (fst (parse_step char st)) +:+ snd (parse_step char st)
  = (parts_source (fst st) +:+ snd st)
    +:+ String (if is_token char then toLowerCase_char char else char)
               EmptyString.
Proof.
  unfold parse_step, is_token. cbv zeta.
  destruct (Ascii.eqb (toLowerCase_char char) "c") eqn:E1.
  { rewrite push_part_source. cbn [orb]. f_equal.
    exact (token_source char "c" E1). }
  destruct (Ascii.eqb (toLowerCase_char char) "v") eqn:E2.
  { rewrite push_part_source. cbn [orb]. f_equal.
    exact (token_source char "v" E2). }
  destruct (Ascii.eqb (toLowerCase_char char) "n") eqn:E3.
  { rewrite push_part_source. cbn [orb]. f_equal.
    exact (token_source char "n" E3). }
  destruct (Ascii.eqb (toLowerCase_char char) "l") eqn:E4.
  { rewrite push_part_source. cbn [orb]. f_equal.
    exact (token_source char "l" E4). }
  cbn [orb].
  destruct (Ascii.eqb_spec char "_") as [->|_].
  { now rewrite push_part_source. }
  destruct (Ascii.eqb_spec char "-") as [->|_].
  { now rewrite push_part_source. }
  cbn [fst snd]. now rewrite append_assoc.
Qed.

Lemma parse_loop_source (pattern : string) (st : parser_state) :
  parts_source (fst (parse_loop pattern st)) +:+ snd (parse_loop pattern st)
  = (parts_source (fst st) +:+ snd st) +:+ lower_tokens pattern.
Proof.
  revert st. induction pattern as [|c r IH]; intros st;
    cbn [parse_loop lower_tokens].
  - now rewrite append_empty_r.
  - rewrite IH, parse_step_source, append_assoc. reflexivity.
Qed.

(** X18: the parts of [parsePattern], spelled back ([_] for the wildcard,
    the text of a literal, the type of every other part), give the pattern
    with its tokens [c], [v], [n], [l] in lower case: the parser drops no
    unit, adds none and keeps the order. *)
Theorem parsePattern_spells_pattern (pattern : string) :
  parts_source (parsePattern pattern) = lower_tokens pattern.
Proof.
  unfold parsePattern.
  destruct (processLiteral_source (parse_loop pattern ([], EmptyString)))
    as [-> _].
  now rewrite parse_loop_source.
Qed.

(** ** [parsePattern]: the literal parts *)

Lemma adjacent_literals_snoc (l : list PatternPart) (p : PatternPart) :
  adjacent_literals (l ++ [p])
  = adjacent_literals l
    || match last l with
       | Some q => is_literal q && is_literal p
       | None => false
       end.
Proof.
  induction l as [|a l IH]; [reflexivity|].
  destruct l as [|b l].
  - cbn. now rewrite !orb_false_r.
  - change (adjacent_literals ((a :: b :: l) ++ [p]))
      with (is_literal a && is_literal b || adjacent_literals ((b :: l) ++ [p])).
    rewrite IH.
    change (adjacent_literals (a :: b :: l))
      with (is_literal a && is_literal b || adjacent_literals (b :: l)).
    change (last (a :: b :: l)) with (last (b :: l)).
    now rewrite orb_assoc.
Qed.

Lemma processLiteral_shape (st : parser_state) :
  parser_shape_inv st ->
  Forall literal_shape (fst (processLiteral st))
  /\ adjacent_literals (fst (processLiteral st)) = false
  /\ snd (processLiteral st) = "".
Proof.
  destruct st as [parts [|c lit]]; intros (Hshape & Hadj & Hlast & Hlit);
    cbn [processLiteral fst snd] in *; [auto|].
  repeat split.
  - apply Forall_app. split; [exact Hshape|]. apply Forall_singleton.
    intros _. exists (String c lit). repeat split; [discriminate | exact Hlit].
  - rewrite adjacent_literals_snoc, Hadj. cbn [orb].
    destruct (last parts); [now rewrite Hlast | reflexivity].
Qed.

Lemma push_part_shape (p : PatternPart) (st : parser_state) :
  is_literal p = false ->
  parser_shape_inv st -> parser_shape_inv (push_part p st).
Proof.
  intros Hp Hst. unfold push_part.
  destruct (processLiteral_shape st Hst) as (H1 & H2 & H3).
  destruct (processLiteral st) as [parts lit]. cbn [fst snd] in *. subst lit.
  repeat split; cbn [fst snd].
  - apply Forall_app. split; [exact H1|]. apply Forall_singleton.
    intros E. congruence.
  - rewrite adjacent_literals_snoc, H2, Hp. cbn [orb].
    destruct (last parts); [apply andb_false_r | reflexivity].
  - now rewrite last_snoc.
Qed.

Lemma parse_step_shape (char : ascii) (st : parser_state) :
  parser_shape_inv st -> parser_shape_inv (parse_step char st).
Proof.
  intros Hst. unfold parse_step.
  destruct (Ascii.eqb (toLowerCase_char char) "c") eqn:E1;
    [now apply push_part_shape|].
  destruct (Ascii.eqb (toLowerCase_char char) "v") eqn:E2;
    [now apply push_part_shape|].
  destruct (Ascii.eqb (toLowerCase_char char) "n") eqn:E3;
    [now apply push_part_shape|].
  destruct (Ascii.eqb (toLowerCase_char char) "l") eqn:E4;
    [now apply push_part_shape|].
  destruct (Ascii.eqb char "_") eqn:E5; [now apply push_part_shape|].
  destruct (Ascii.eqb char "-") eqn:E6.
  - apply push_part_shape; [|exact Hst].
    apply Ascii.eqb_eq in E6. now subst char.
  - destruct Hst as (H1 & H2 & H3 & H4). repeat split; auto. cbn [snd].
    rewrite string_forall_app, H4. cbn [string_forall andb].
    unfold is_literal_char, is_token. cbv zeta.
    now rewrite E1, E2, E3, E4, E5, E6.
Qed.

Lemma parse_loop_shape (pattern : string) (st : parser_state) :
  parser_shape_inv st -> parser_shape_inv (parse_loop pattern st).
Proof.
  revert st. induction pattern as [|c r IH]; intros st Hst;
    cbn [parse_loop]; [exact Hst|].
  now apply IH, parse_step_shape.
Qed.

(** X19: [parsePattern] cuts the literal text into maximal runs: no two
    literal parts stand next to one another, and every literal part holds a
    non-empty text free of tokens, wildcards and hyphens as its [value] and
    the lower-cased text as its only possibility. *)
Theorem parsePattern_literals (pattern : string) :
  Forall literal_shape (parsePattern pattern)
  /\ adjacent_literals (parsePattern pattern) = false.
Proof.
  unfold parsePattern.
  destruct (processLiteral_shape (parse_loop pattern ([], EmptyString)))
    as (H1 & H2 & _); [|auto].
  apply parse_loop_shape. repeat split; constructor.
Qed.

(** ** [processPatterns]: the tests of the repository *)

Example processes_pattern_file :
  processPatterns
    (join (String line_feed "")
          [""; "      # Comment line";
           "      test-l  # Test with letter";
           "      ccvv ; extensions=.com,.net  # Test with extensions";
           "      ll_l ; extensions=.dev       # Test with wildcard";
           "    "])
  = [ {| entry_pattern := "test-l"; entry_extensions := [".com"];
         entry_comment := Some "Test with letter" |};
      {| entry_pattern := "ccvv"; entry_extensions := [".com"; ".net"];
         entry_comment := Some "Test with extensions" |};
      {| entry_pattern := "ll_l"; entry_extensions := [".dev"];
         entry_comment := Some "Test with wildcard" |} ].
Proof. vm_compute. reflexivity. Qed.

Example handles_comment_only_lines :
  processPatterns
    (join (String line_feed "")
          [""; "      # Comment line"; "      ";
           "      # Another comment"; "      test"; "    "])
  = [ {| entry_pattern := "test"; entry_extensions := [".com"];
         entry_comment := None |} ].
Proof. vm_compute. reflexivity. Qed.

(** ** [processPatterns]: the entries *)

Lemma string_forall_impl (f g : ascii -> bool) (s : string) :
  (forall c, f c = true -> g c = true) ->
  string_forall f s = true -> string_forall g s = true.
Proof.
  intros Hfg. induction s as [|c r IH]; [reflexivity|].
  cbn [string_forall]. intros [Hc Hr]%andb_prop.
  now rewrite (Hfg c Hc), (IH Hr).
Qed.

Lemma string_forall_true (f : ascii -> bool) (s : string) :
  (forall c, f c = true) -> string_forall f s = true.
Proof.
  intros Hf. induction s as [|c r IH]; [reflexivity|].
  cbn [string_forall]. now rewrite Hf, IH.
Qed.

Lemma trimStart_forall (f : ascii -> bool) (s : string) :
  string_forall f s = true -> string_forall f (trimStart s) = true.
Proof.
  induction s as [|c r IH]; [reflexivity|]. cbn [trimStart].
  destruct (is_space c); [|auto].
  cbn [string_forall]. intros [_ Hr]%andb_prop. auto.
Qed.

Lemma trimEnd_forall (f : ascii -> bool) (s : string) :
  string_forall f s = true -> string_forall f (trimEnd s) = true.
Proof.
  induction s as [|c r IH]; [reflexivity|]. cbn [trimEnd string_forall].
  intros [Hc Hr]%andb_prop. specialize (IH Hr).
  destruct (trimEnd r) as [|c' r'].
  - destruct (is_space c); [reflexivity|]. cbn [string_forall].
    now rewrite Hc.
  - cbn [string_forall] in *. now rewrite Hc, IH.
Qed.

Lemma trim_forall (f : ascii -> bool) (s : string) :
  string_forall f s = true -> string_forall f (trim s) = true.
Proof. intros H. now apply trimEnd_forall, trimStart_forall. Qed.

Lemma trimStart_head (s : string) : starts_with_space (trimStart s) = false.
Proof.
  induction s as [|c r IH]; [reflexivity|]. cbn [trimStart].
  destruct (is_space c) eqn:E; [exact IH|]. exact E.
Qed.

Lemma trimEnd_head (s : string) :
  starts_with_space s = false -> starts_with_space (trimEnd s) = false.
Proof.
  destruct s as [|c r]; [reflexivity|]. cbn [starts_with_space trimEnd].
  intros Hc. destruct (trimEnd r); [rewrite Hc|]; exact Hc.
Qed.

Lemma trimEnd_tail (s : string) : ends_with_space (trimEnd s) = false.
Proof.
  induction s as [|c r IH]; [reflexivity|]. cbn [trimEnd].
  destruct (trimEnd r) as [|c' r'].
  - destruct (is_space c) eqn:E; [reflexivity | exact E].
  - exact IH.
Qed.

Lemma trim_trimmed (s : string) : trimmed (trim s) = true.
Proof.
  unfold trimmed, trim.
  now rewrite trimEnd_tail, (trimEnd_head _ (trimStart_head s)).
Qed.

(** The pieces of [split] hold what the text holds, the separator apart. *)
Lemma split_on_pieces (f : ascii -> bool) (sep : ascii) (s : string) :
  string_forall (fun c => Ascii.eqb c sep || f c) s = true ->
  Forall (fun piece => string_forall f piece = true) (split_on sep s).
Proof.
  induction s as [|c r IH]; cbn [split_on string_forall].
  - intros _. now apply Forall_singleton.
  - intros [Hc Hr]%andb_prop. specialize (IH Hr).
    destruct (Ascii.eqb c sep); [now apply Forall_cons|].
    cbn [orb] in Hc. destruct (split_on sep r) as [|piece rest].
    + apply Forall_singleton. cbn [string_forall]. now rewrite Hc.
    + apply Forall_cons in IH as [Hpiece Hrest]. apply Forall_cons.
      split; [|exact Hrest]. cbn [string_forall]. now rewrite Hc, Hpiece.
Qed.

Lemma split_spaced_pieces (f : ascii -> bool) (x : ascii) (s : string) :
  forall (piece ws : string) (skipping : bool),
    string_forall (fun c => Ascii.eqb c x || f c) s = true ->
    string_forall f piece = true -> string_forall f ws = true ->
    Forall (fun p => string_forall f p = true)
           (split_spaced x s piece ws skipping).
Proof.
  induction s as [|c r IH]; intros piece ws skipping;
    cbn [split_spaced string_forall].
  - intros _ Hp Hw. apply Forall_singleton.
    now rewrite string_forall_app, Hp, Hw.
  - intros [Hc Hr]%andb_prop Hp Hw.
    destruct (Ascii.eqb c x).
    { apply Forall_cons. split; [exact Hp|]. now apply IH. }
    cbn [orb] in Hc.
    destruct (is_space c).
    + destruct skipping; apply IH; auto.
      rewrite string_forall_app, Hw. cbn [string_forall]. now rewrite Hc.
    + apply IH; auto.
      rewrite !string_forall_app, Hp, Hw. cbn [string_forall].
      now rewrite Hc.
Qed.

Lemma split_spaced_nonempty (x : ascii) (s : string) :
  forall (piece ws : string) (skipping : bool),
    split_spaced x s piece ws skipping <> [].
Proof.
  induction s as [|c r IH]; intros piece ws skipping; cbn [split_spaced].
  - discriminate.
  - destruct (Ascii.eqb c x); [discriminate|].
    destruct (is_space c); [destruct skipping|]; apply IH.
Qed.

Lemma ends_with_space_cons (c : ascii) (r : string) :
  r <> "" -> ends_with_space (String c r) = ends_with_space r.
Proof. destruct r; [congruence | reflexivity]. Qed.

Lemma ends_with_space_app (a b : string) :
  b <> "" -> ends_with_space (a +:+ b) = ends_with_space b.
Proof.
  intros Hb. induction a as [|c r IH]; [reflexivity|].
  cbn [String.append]. rewrite ends_with_space_cons; [exact IH|].
  intros E. apply append_empty in E as [_ E]. contradiction.
Qed.

Lemma ends_with_space_suffix (a b : string) :
  ends_with_space (a +:+ b) = false -> ends_with_space b = false.
Proof.
  destruct b as [|c r]; [reflexivity|].
  now rewrite ends_with_space_app by discriminate.
Qed.

Lemma starts_with_space_app (a b : string) :
  a <> "" -> starts_with_space (a +:+ b) = starts_with_space a.
Proof. destruct a; [congruence | reflexivity]. Qed.

Lemma spaces_end (ws : string) :
  string_forall is_space ws = true -> ends_with_space ws = false -> ws = "".
Proof.
  induction ws as [|c r IH]; [reflexivity|].
  cbn [string_forall]. intros [Hc Hr]%andb_prop He.
  destruct r as [|c' r'].
  - cbn in He. congruence.
  - rewrite ends_with_space_cons in He by discriminate.
    specialize (IH Hr He). discriminate.
Qed.

(** The first piece of a text without white space at either end has none at
    either end. *)
Lemma split_spaced_head (x : ascii) (s : string) :
  forall piece ws : string,
    is_space x = false ->
    trimmed piece = true ->
    (piece = "" -> ws = "" /\ starts_with_space s = false) ->
    string_forall is_space ws = true ->
    ends_with_space (ws +:+ s) = false ->
    exists first rest,
      split_spaced x s piece ws false = first :: rest
      /\ trimmed first = true.
Proof.
  induction s as [|c r IH]; intros piece ws Hx Hpiece Hempty Hws Hend;
    cbn [split_spaced].
  - rewrite append_empty_r in Hend.
    rewrite (spaces_end ws Hws Hend), append_empty_r. eauto.
  - destruct (Ascii.eqb c x); [eauto|].
    destruct (is_space c) eqn:Hc.
    + apply IH; auto.
      * intros ->. destruct (Hempty eq_refl) as [_ H].
        cbn in H. congruence.
      * rewrite string_forall_app, Hws. cbn [string_forall]. now rewrite Hc.
      * now rewrite append_assoc.
    + apply IH; auto.
      * unfold trimmed in *. apply andb_prop in Hpiece as [H1 H2].
        apply negb_true_iff in H1, H2.
        rewrite <- append_assoc, ends_with_space_app by discriminate.
        cbn [ends_with_space]. rewrite Hc, andb_true_r.
        apply negb_true_iff.
        destruct piece as [|p0 piece].
        -- destruct (Hempty eq_refl) as [-> _]. cbn. exact Hc.
        -- exact H1.
      * intros E. apply append_empty in E as [_ E].
        apply append_empty in E as [_ E]. discriminate.
      * cbn [String.append].
        change (String c r) with (String c "" +:+ r) in Hend.
        rewrite <- append_assoc in Hend.
        now apply ends_with_space_suffix in Hend.
Qed.

Lemma apply_setting_nonempty (extensions : list string) (part : string) :
  extensions <> [] -> apply_setting extensions part <> [].
Proof.
  intros Hne. unfold apply_setting.
  destruct (split_regex "=" part) as [|key [|value rest]]; auto.
  destruct (_ && _); [apply split_spaced_nonempty | exact Hne].
Qed.

Lemma fold_apply_setting_nonempty (settings extensions : list string) :
  extensions <> [] -> fold_left apply_setting settings extensions <> [].
Proof.
  revert extensions. induction settings as [|part rest IH];
    intros extensions Hne; cbn [fold_left]; [exact Hne|].
  now apply IH, apply_setting_nonempty.
Qed.

Lemma trimmed_ends (s : string) :
  trimmed s = true -> ends_with_space s = false.
Proof.
  unfold trimmed. intros [_ H]%andb_prop. now apply negb_true_iff in H.
Qed.

Lemma trimmed_starts (s : string) :
  trimmed s = true -> starts_with_space s = false.
Proof.
  unfold trimmed. intros [H _]%andb_prop. now apply negb_true_iff in H.
Qed.

(** X20: every entry that [processPatterns] returns has a pattern that is
    not empty, has no white space at either end and holds no line feed, no
    [#] and no [;]; it has at least one extension; and its comment, when
    it has one, is not empty and has no white space at either end. *)
Theorem processPatterns_entries (input : string) :
  Forall (fun e =>
            entry_pattern e <> ""
            /\ trimmed (entry_pattern e) = true
            /\ string_forall entry_char (entry_pattern e) = true
            /\ entry_extensions e <> []
            /\ match entry_comment e with
               | Some c => c <> "" /\ trimmed c = true
               | None => True
               end)
         (processPatterns input).
Proof.
  apply Forall_forall. intros e He. unfold processPatterns in He.
  apply list_elem_of_omap in He as (line & Hline & He).
  apply list_elem_of_fmap in Hline as (raw & -> & Hraw).
  assert (string_forall (fun c => negb (Ascii.eqb c line_feed)) (trim raw)
          = true) as Hfeed.
  { apply trim_forall.
    pose proof (split_on_pieces (fun c => negb (Ascii.eqb c line_feed))
                  line_feed input) as H.
    rewrite Forall_forall in H. apply H; [|exact Hraw].
    apply string_forall_true. intros c. apply orb_negb_r. }
  unfold process_line in He.
  destruct (String.eqb (trim raw) "" || startsWith "#" (trim raw));
    [discriminate|].
  pose proof (split_on_pieces
                (fun c => negb (Ascii.eqb c line_feed)
                          && negb (Ascii.eqb c "#")) "#" (trim raw)) as Hhash.
  destruct (split_on "#" (trim raw)) as [|content commentParts];
    [discriminate|].
  apply Forall_cons in Hhash as [Hcontent _].
  2:{ revert Hfeed. apply string_forall_impl. intros c ->.
      cbn [andb]. apply orb_negb_r. }
  pose proof (split_spaced_pieces entry_char ";" (trim content) "" "" false)
    as Hpieces.
  destruct (split_spaced_head ";" (trim content) "" "")
    as (first & rest & Hsplit & Hfirst); auto.
  { intros _. split; [reflexivity|]. apply trimmed_starts, trim_trimmed. }
  { cbn [String.append]. apply trimmed_ends, trim_trimmed. }
  unfold split_regex in He. rewrite Hsplit in *.
  destruct (String.eqb_spec first "") as [|Hne]; [discriminate|].
  injection He as <-. cbn [entry_pattern entry_extensions entry_comment].
  split; [exact Hne|]. split; [exact Hfirst|]. split.
  - apply Forall_cons in Hpieces as [H _]; auto.
    apply trim_forall. revert Hcontent. apply string_forall_impl.
    intros c Hc. unfold entry_char. rewrite Hc. cbn [andb]. apply orb_negb_r.
  - split; [now apply fold_apply_setting_nonempty|].
    destruct (String.eqb_spec (trim (join "#" commentParts)) "");
      [exact I|].
    split; [assumption | apply trim_trimmed].
Qed.

(** ** [processPatterns] on a file of accepted patterns *)

Lemma split_on_none (sep : ascii) (s : string) :
  string_forall (fun c => negb (Ascii.eqb c sep)) s = true ->
  split_on sep s = [s].
Proof.
  induction s as [|c r IH]; [reflexivity|]. cbn [string_forall split_on].
  intros [Hc Hr]%andb_prop. apply negb_true_iff in Hc.
  now rewrite Hc, (IH Hr).
Qed.

Lemma split_on_app (sep : ascii) (s t : string) :
  string_forall (fun c => negb (Ascii.eqb c sep)) s = true ->
  split_on sep (s +:+ String sep t) = s :: split_on sep t.
Proof.
  induction s as [|c r IH]; cbn [string_forall String.append split_on].
  - intros _. now rewrite Ascii.eqb_refl.
  - intros [Hc Hr]%andb_prop. apply negb_true_iff in Hc.
    now rewrite Hc, (IH Hr).
Qed.

Lemma split_on_join (sep : ascii) (l : list string) :
  l <> [] ->
  Forall (fun s => string_forall (fun c => negb (Ascii.eqb c sep)) s = true)
         l ->
  split_on sep (join (String sep "") l) = l.
Proof.
  induction l as [|s l IH]; [congruence|]. intros _ Hl.
  apply Forall_cons in Hl as [Hs Hl].
  destruct l as [|s' l].
  - now apply split_on_none.
  - change (join (String sep "") (s :: s' :: l))
      with (s +:+ String sep (join (String sep "") (s' :: l))).
    rewrite split_on_app by exact Hs. f_equal. now apply IH.
Qed.

Lemma trimStart_id (s : string) :
  starts_with_space s = false -> trimStart s = s.
Proof. destruct s as [|c r]; [reflexivity|]. cbn. now intros ->. Qed.

Lemma trimEnd_id (s : string) :
  string_forall (fun c => negb (is_space c)) s = true -> trimEnd s = s.
Proof.
  induction s as [|c r IH]; [reflexivity|]. cbn [string_forall trimEnd].
  intros [Hc Hr]%andb_prop. apply negb_true_iff in Hc.
  rewrite (IH Hr). destruct r; [now rewrite Hc | reflexivity].
Qed.

Lemma trim_id (s : string) :
  string_forall (fun c => negb (is_space c)) s = true -> trim s = s.
Proof.
  intros H. unfold trim. rewrite trimStart_id; [now apply trimEnd_id|].
  destruct s as [|c r]; [reflexivity|]. cbn [string_forall] in H.
  apply andb_prop in H as [Hc _]. now apply negb_true_iff in Hc.
Qed.

Lemma split_spaced_none (x : ascii) (s : string) :
  forall (piece : string) (skipping : bool),
    string_forall (fun c => negb (Ascii.eqb c x) && negb (is_space c)) s
    = true ->
    split_spaced x s piece "" skipping = [piece +:+ s].
Proof.
  induction s as [|c r IH]; intros piece skipping;
    cbn [string_forall split_spaced]; [reflexivity|].
  intros [Hc Hr]%andb_prop. apply andb_prop in Hc as [H1 H2].
  apply negb_true_iff in H1, H2. rewrite H1, H2, (IH _ _ Hr).
  cbn [String.append]. now rewrite append_assoc.
Qed.

Lemma pattern_char_plain (c : ascii) :
  pattern_char c = true ->
  is_space c = false /\ Ascii.eqb c "#" = false /\ Ascii.eqb c ";" = false
  /\ Ascii.eqb c line_feed = false.
Proof.
  destruct c as [[] [] [] [] [] [] [] []]; vm_compute; intros;
    repeat split; congruence.
Qed.

(** A line that holds an accepted pattern and nothing else. *)
Lemma process_line_pattern (p : string) :
  validatePattern p = None -> process_line (trim p) = Some (default_entry p).
Proof.
  intros (Hne & Hchars & _)%validatePattern_None.
  assert (forall f : ascii -> bool,
            (forall c, pattern_char c = true -> f c = true) ->
            string_forall f p = true) as Hall.
  { intros f Hf. revert Hchars. now apply string_forall_impl. }
  assert (trim p = p) as Htrim.
  { apply trim_id, Hall. intros c Hc.
    destruct (pattern_char_plain c Hc) as (-> & _). reflexivity. }
  unfold process_line. rewrite Htrim.
  destruct (String.eqb_spec p "") as [|_]; [contradiction|].
  assert (startsWith "#" p = false) as ->.
  { destruct p as [|c r]; [congruence|]. unfold startsWith.
    rewrite prefix_cons, prefix_nil, andb_true_r, Ascii.eqb_sym.
    cbn [string_forall] in Hchars. apply andb_prop in Hchars as [Hc _].
    now destruct (pattern_char_plain c Hc) as (_ & -> & _). }
  cbn [orb]. rewrite split_on_none.
  2:{ apply Hall. intros c Hc.
      now destruct (pattern_char_plain c Hc) as (_ & -> & _). }
  rewrite Htrim. unfold split_regex. rewrite split_spaced_none.
  2:{ apply Hall. intros c Hc.
      now destruct (pattern_char_plain c Hc) as (-> & _ & -> & _). }
  cbn [String.append].
  destruct (String.eqb_spec p "") as [|_]; [contradiction|]. reflexivity.
Qed.

(** X21: a file of patterns that [validatePattern] accepts, one on each
    line, is read by [processPatterns] as these patterns in their order,
    each with the one extension [.com] and no comment. *)
Theorem processPatterns_pattern_lines (patterns : list string) :
  Forall (fun p => validatePattern p = None) patterns ->
  processPatterns (join (String line_feed "") patterns)
  = map default_entry patterns.
Proof.
  intros Hvalid. unfold processPatterns.
  destruct patterns as [|p0 rest]; [reflexivity|].
  rewrite split_on_join; [|discriminate|].
  - induction Hvalid as [|p l Hp _ IH]; [reflexivity|].
    csimpl. now rewrite (process_line_pattern p Hp), IH.
  - eapply Forall_impl; [exact Hvalid|]. intros p Hp.
    apply validatePattern_None in Hp as (_ & Hchars & _).
    revert Hchars. apply string_forall_impl. intros c Hc.
    now destruct (pattern_char_plain c Hc) as (_ & _ & _ & ->).
Qed.

Lemma processPatterns_pattern_lines_witness :
  Forall (fun p => validatePattern p = None) ["test-l"; "ccvv"; "LL_n"]
  /\ processPatterns (join (String line_feed "") ["test-l"; "ccvv"; "LL_n"])
     = map default_entry ["test-l"; "ccvv"; "LL_n"].
Proof.
  assert (H : Forall (fun p => validatePattern p = None)
                     ["test-l"; "ccvv"; "LL_n"])
    by (repeat constructor).
  split; [exact H | exact (processPatterns_pattern_lines _ H)].
Defined.

(** ** [countRemainingDomains] *)

(** The counters after a list of domains: each one adds to [checked] or to
    [remaining]. *)
Lemma count_domain_fold (clk : clock) (history : DomainHistory)
    (maxAgeDays : Z) (base : string) (extensions : list string)
    (counters : nat * nat) :
  fold_left (count_domain clk history maxAgeDays base) extensions counters
  = (fst counters
     + length (List.filter (fun d => negb (recently_checked clk history maxAgeDays d))
                           (map (fun ext => base +:+ ext) extensions)),
     snd counters
     + length (List.filter (recently_checked clk history maxAgeDays)
                           (map (fun ext => base +:+ ext) extensions)))%nat.
Proof.
  revert counters. induction extensions as [|ext rest IH]; intros [r c].
  - cbn. f_equal; lia.
  - cbn [fold_left map List.filter]. rewrite IH. unfold count_domain.
    destruct (recently_checked clk history maxAgeDays (base +:+ ext)); cbn;
      f_equal; lia.
Qed.

Lemma count_base_fold (clk : clock) (history : DomainHistory)
    (maxAgeDays : Z) 
    (extensions bases : list string)
    (counters : nat * nat) :
  fold_left (count_base clk history maxAgeDays extensions) bases counters
  = (fst counters
     + length (List.filter (fun d => negb (recently_checked clk history maxAgeDays d))
                           (domains_of bases extensions)),
     snd counters
     + length (List.filter (recently_checked clk history maxAgeDays) (domains_of bases extensions)))%nat.
Proof.
  revert counters. induction bases as [|base rest IH]; intros [r c].
  - cbn. f_equal; lia.
  - cbn [fold_left domains_of flat_map]. rewrite IH. unfold count_base.
    fold (domains_of rest extensions).
    destruct (startsWith "-" base || endsWith "-" base).
    + reflexivity.
    + rewrite count_domain_fold, !List.filter_app, !length_app.
      cbn [fst snd]. f_equal; lia.
Qed.

Lemma filter_split_length (f : string -> bool) (l : list string) :
  (length (List.filter (fun d => negb (f d)) l)
   + length (List.filter f l) = length l)%nat.
Proof.
  induction l as [|d l IH]; [reflexivity|]. cbn [List.filter].
  destruct (f d); cbn [negb length]; lia.
Qed.

Lemma domains_of_Permutation (extensions bases1 bases2 : list string) :
  bases1 ≡ₚ bases2 ->
  domains_of bases1 extensions ≡ₚ domains_of bases2 extensions.
Proof.
  induction 1 as [|base l1 l2 _ IH|b1 b2 l|l1 l2 l3 _ IH1 _ IH2];
    cbn [domains_of flat_map].
  - reflexivity.
  - now apply Permutation_app_head.
  - rewrite !app_assoc. apply Permutation_app_tail, Permutation_app_comm.
  - now transitivity (domains_of l2 extensions).
Qed.

Lemma filter_length_Permutation (f : string -> bool) (l1 l2 : list string) :
  l1 ≡ₚ l2 -> length (List.filter f l1) = length (List.filter f l2).
Proof.
  induction 1 as [|d l1 l2 _ IH|d1 d2 l|l1 l2 l3 _ IH1 _ IH2];
    cbn [List.filter].
  - reflexivity.
  - destruct (f d); cbn [length]; now rewrite IH.
  - destruct (f d1), (f d2); reflexivity.
  - now rewrite IH1.
Qed.

(** The candidates of a parsed pattern all pass the hyphen test of the
    loop. *)
Lemma domains_of_parsed (extensions bases : list string) :
  Forall candidate_ok bases ->
  domains_of bases extensions
  = flat_map (fun base => map (fun ext => base +:+ ext) extensions) bases.
Proof.
  induction 1 as [|base rest (Hs & _ & _ & He) _ IH]; [reflexivity|].
  cbn [domains_of flat_map]. fold (domains_of rest extensions).
  now rewrite Hs, He, IH.
Qed.

Lemma flat_map_length_const (extensions bases : list string) :
  length (flat_map (fun base => map (fun ext => base +:+ ext) extensions)
                   bases)
  = (length bases * length extensions)%nat.
Proof.
  induction bases as [|base rest IH]; [reflexivity|].
  cbn [flat_map]. rewrite length_app, length_map, IH. cbn. lia.
Qed.

(** The counts over the list of the candidates. *)
Lemma count_remaining_counts (clk : clock) (history : DomainHistory)
    (maxAgeDays : Z)
    (rand : oracle) (entry : PatternEntry) (a : PatternAnalysis) :
  analyzePattern entry = inr a ->
  let domains :=
    flat_map (fun base => map (fun ext => base +:+ ext) (extensions a))
             (generateCombinations rand (parts a)) in
  let result := countRemainingDomains clk rand a history maxAgeDays in
  result
  = (length (List.filter
               (fun d => negb (recently_checked clk history maxAgeDays d))
               domains),
     length (List.filter (recently_checked clk history maxAgeDays) domains))
  /\ (fst result + snd result
      = length (generateCombinations rand (parts a))
        * length (extensions a))%nat
  /\ (history = ∅ -> snd result = O).
Proof.
  intros Ha domains result.
  assert (parts a = parsePattern (entry_pattern entry)) as Hparts.
  { unfold analyzePattern in Ha.
    destruct (validatePattern _); [discriminate|].
    destruct (validateExtensions _); [discriminate|].
    now injection Ha as <-. }
  assert (Forall candidate_ok (generateCombinations rand (parts a))) as Hok.
  { rewrite Hparts. apply Forall_forall. intros c Hc.
    unfold generateCombinations in Hc.
    apply list_elem_of_omap in Hc as (i & _ & Hi).
    eapply decode_sound; [apply parsePattern_ok | exact Hi]. }
  assert (result
          = (length (List.filter
                       (fun d =>
                          negb (recently_checked clk history maxAgeDays d))
                       domains),
             length (List.filter (recently_checked clk history maxAgeDays)
                                 domains))) as Hresult.
  { unfold result, countRemainingDomains. rewrite count_base_fold.
    now rewrite (domains_of_parsed _ _ Hok). }
  split; [exact Hresult|]. rewrite Hresult. cbn [fst snd]. split.
  - rewrite filter_split_length. apply flat_map_length_const.
  - intros Hempty. clear Hresult.
    induction domains as [|d l IH]; [reflexivity|]. cbn [List.filter].
    assert (recently_checked clk history maxAgeDays d = false) as ->;
      [|exact IH].
    assert (history !! d = None) as Hd.
    { rewrite Hempty. apply lookup_empty. }
    unfold recently_checked. now rewrite Hd.
Qed.

(** X23: the random draws of the generator have no part in the counts of
    [countRemainingDomains]. *)
Theorem countRemainingDomains_order_independent (clk : clock) (history : DomainHistory)
    (maxAgeDays : Z) 
    (rand1 rand2 : oracle) (pattern : PatternAnalysis) :
  countRemainingDomains clk rand1 pattern history maxAgeDays
  = countRemainingDomains clk rand2 pattern history maxAgeDays.
Proof.
  unfold countRemainingDomains. rewrite !count_base_fold.
  assert (generateCombinations rand1 (parts pattern)
          ≡ₚ generateCombinations rand2 (parts pattern)) as Hperm.
  { now rewrite (generateCombinations_Permutation rand1),
      (generateCombinations_Permutation rand2). }
  apply (domains_of_Permutation (extensions pattern)) in Hperm.
  f_equal; f_equal; now apply filter_length_Permutation.
Qed.

(** Without the index array of the generator [countRemainingDomains]
    returns nothing: the call ends in the [RangeError]. *)
Lemma countRemainingDomains_on_throws (h : host) (clk : clock)
    (rand : oracle) (pattern : PatternAnalysis) (history : DomainHistory)
    (maxAgeDays : Z) :
  2 ^ 32 <= Z.of_nat (totalCombinations (parts pattern))
  \/ array_block h (Z.of_nat (totalCombinations (parts pattern))) = false ->
  countRemainingDomains_on h clk rand pattern history maxAgeDays
  = Throw RangeError.
Proof.
  intros H. unfold countRemainingDomains_on.
  now rewrite generateCombinations_on_throws.
Qed.

(** X22: for the analysis of an accepted entry of fewer than 2^32
    combinations, on a host that creates the index array of the generator,
    [countRemainingDomains] returns, and it counts every candidate of the
    generator with every extension, once: [checked] is the number of these
    domains that the history holds with a date less than [maxAgeDays] days
    old, [remaining] the number of the others, so the two add up to the
    number of candidates times the number of extensions; with an empty
    history nothing is [checked]. (From 2^32 combinations on the call
    throws a [RangeError], [countRemainingDomains_on_throws].) *)
Theorem countRemainingDomains_counts (h : host) (clk : clock)
    (history : DomainHistory) (maxAgeDays : Z)
    (rand : oracle) (entry : PatternEntry) (a : PatternAnalysis) :
  analyzePattern entry = inr a ->
  Z.of_nat (totalCombinations (parts a)) < 2 ^ 32 ->
  array_block h (Z.of_nat (totalCombinations (parts a))) = true ->
  exists (bases : list string) (result : nat * nat),
    generateCombinations_on h rand (parts a) = Normal bases
    /\ countRemainingDomains_on h clk rand a history maxAgeDays
       = Normal result
    /\ (let domains :=
          flat_map (fun base => map (fun ext => base +:+ ext) (extensions a))
                   bases in
        result
        = (length (List.filter
                     (fun d =>
                        negb (recently_checked clk history maxAgeDays d))
                     domains),
           length (List.filter (recently_checked clk history maxAgeDays)
                               domains)))
    /\ (fst result + snd result = length bases * length (extensions a))%nat
    /\ (history = ∅ -> snd result = O).
Proof.
  intros Ha Htotal Hblock.
  exists (generateCombinations rand (parts a)),
         (countRemainingDomains clk rand a history maxAgeDays).
  split; [now apply generateCombinations_on_returns|]. split.
  - unfold countRemainingDomains_on.
    now rewrite generateCombinations_on_returns.
  - exact (count_remaining_counts clk history maxAgeDays rand entry a Ha).
Qed.

Lemma countRemainingDomains_counts_witness :
  exists a : PatternAnalysis,
    analyzePattern {| entry_pattern := "cv";
                      entry_extensions := [".com"; ".net"];
                      entry_comment := None |} = inr a
    /\ Z.of_nat (totalCombinations (parts a)) < 2 ^ 32
    /\ let clk := {| Date_now := 1000; Date_getTime := fun _ => Some 0 |} in
       let history :=
         {[ "ba.com" := {| checked := true; available := Some false;
                           last_checked := "2024-01-01" |} ]} in
       let rand := fun i : nat => (i * 11 + 2)%nat in
       exists (bases : list string) (result : nat * nat),
         generateCombinations_on roomy rand (parts a) = Normal bases
         /\ countRemainingDomains_on roomy clk rand a history 7
            = Normal result
         /\ (let domains :=
               flat_map (fun base =>
                           map (fun ext => base +:+ ext) (extensions a))
                        bases in
             result
             = (length (List.filter
                          (fun d => negb (recently_checked clk history 7 d))
                          domains),
                length (List.filter (recently_checked clk history 7)
                                    domains)))
         /\ (fst result + snd result
             = length bases * length (extensions a))%nat
         /\ (history = ∅ -> snd result = O).
Proof.
  eexists. split; [reflexivity|]. split; [vm_compute; reflexivity|].
  apply (countRemainingDomains_counts
           roomy
           {| Date_now := 1000; Date_getTime := fun _ => Some 0 |}
           {[ "ba.com" := {| checked := true; available := Some false;
                             last_checked := "2024-01-01" |} ]}
           7 (fun i : nat => (i * 11 + 2)%nat)
           {| entry_pattern := "cv";
              entry_extensions := [".com"; ".net"];
              entry_comment := None |});
    [reflexivity | vm_compute; reflexivity | reflexivity].
Defined.

(** One run of [countRemainingDomains]: the 100 candidates of [cv] with two
    extensions, one domain of them checked a moment ago. *)
Example counts_remaining_domains :
  countRemainingDomains
    {| Date_now := 1000; Date_getTime := fun _ => Some 0 |}
    (fun i : nat => (i * 11 + 2)%nat)
    {| pattern := "cv"; extensions := [".com"; ".net"];
       combinations := Finite 100; totalDomains := Finite 200;
       parts := parsePattern "cv"; comment := None |}
    {[ "ba.com" := {| checked := true; available := Some false;
                      last_checked := "2024-01-01" |} ]}
    7
  = (199%nat, 1%nat).
Proof. vm_compute. reflexivity. Qed.
